(** * Insertive: snippet key validation, template substitution and the
      snippet settings store

    A shallow embedding of [main.js]: [SnippetValidator], [SnippetProcessor]
    and the handlers of [EditSnippetModal] and [InsertiveSettingTab] that
    add, edit and delete the snippets of [plugin.settings].

    JavaScript strings are sequences of UTF-16 code units and are modelled as
    lists of code units; plain objects used as maps are modelled as ordered
    association lists that follow the property order of the language. *)

From Stdlib Require Import Ascii String.
From Stdlib Require Import List NArith Bool Arith Lia.
From Stdlib Require DecimalFacts DecimalPos DecimalN.
From Stdlib Require Import Permutation Sorted.
Import ListNotations.

Local Open Scope N_scope.

(** ** JavaScript strings *)

Definition char16 := N.
Definition jsstring := list char16.

(** A literal: every character of a Rocq string is one code unit. *)
Definition js (s : string) : jsstring :=
  map N_of_ascii (list_ascii_of_string s).

Definition TAB : char16 := 9.
Definition LF : char16 := 10.
Definition SPACE : char16 := 32.
Definition DOLLAR : char16 := 36.
Definition AMPERSAND : char16 := 38.
Definition APOSTROPHE : char16 := 39.
Definition HYPHEN : char16 := 45.
Definition UNDERSCORE : char16 := 95.
Definition BACKTICK : char16 := 96.
Definition LBRACE : char16 := 123.
Definition RBRACE : char16 := 125.

Definition in_range (lo hi c : char16) : bool := (lo <=? c) && (c <=? hi).

(** [\d] *)
Definition is_digit (c : char16) : bool := in_range 48 57 c.

(** [[a-zA-Z0-9_-]] *)
Definition is_key_char (c : char16) : bool :=
  in_range 97 122 c || in_range 65 90 c || is_digit c
  || (c =? UNDERSCORE) || (c =? HYPHEN).

(** The code units removed by [String.prototype.trim]: WhiteSpace and
    LineTerminator of the language specification. *)
Definition is_whitespace (c : char16) : bool :=
  in_range 9 13 c || (c =? 32) || (c =? 160) || (c =? 5760)
  || in_range 8192 8202 c || (c =? 8232) || (c =? 8233) || (c =? 8239)
  || (c =? 8287) || (c =? 12288) || (c =? 65279).

Fixpoint jseq (a b : jsstring) : bool :=
  match a, b with
  | [], [] => true
  | x :: a', y :: b' => (x =? y) && jseq a' b'
  | _, _ => false
  end.

Definition is_empty (s : jsstring) : bool :=
  match s with [] => true | _ :: _ => false end.

Fixpoint trimStart (s : jsstring) : jsstring :=
  match s with
  | c :: s' => if is_whitespace c then trimStart s' else s
  | [] => []
  end.

Definition trimEnd (s : jsstring) : jsstring := rev (trimStart (rev s)).

Definition trim (s : jsstring) : jsstring := trimEnd (trimStart s).

(** [s.includes(c)] for a one-unit needle. *)
Definition includes (c : char16) (s : jsstring) : bool :=
  existsb (N.eqb c) s.

(** [s.split(sep)] for a one-unit separator; never returns the empty list. *)
Fixpoint split (sep : char16) (s : jsstring) : list jsstring :=
  match s with
  | [] => [[]]
  | c :: s' =>
      if c =? sep then [] :: split sep s'
      else match split sep s' with
           | l :: ls => (c :: l) :: ls
           | [] => [[c]]
           end
  end.

(** [parts.join(sep)] for a one-unit separator. *)
Fixpoint join (sep : char16) (parts : list jsstring) : jsstring :=
  match parts with
  | [] => []
  | [p] => p
  | p :: ps => p ++ sep :: join sep ps
  end.

Fixpoint starts_with (pat s : jsstring) : bool :=
  match pat, s with
  | [], _ => true
  | p :: pat', c :: s' => (p =? c) && starts_with pat' s'
  | _ :: _, [] => false
  end.

(** Decimal digits of a number, as [String(n)] prints a non-negative
    integer below 10^21. *)
Fixpoint uint_units (u : Decimal.uint) : jsstring :=
  match u with
  | Decimal.Nil => []
  | Decimal.D0 u => 48 :: uint_units u
  | Decimal.D1 u => 49 :: uint_units u
  | Decimal.D2 u => 50 :: uint_units u
  | Decimal.D3 u => 51 :: uint_units u
  | Decimal.D4 u => 52 :: uint_units u
  | Decimal.D5 u => 53 :: uint_units u
  | Decimal.D6 u => 54 :: uint_units u
  | Decimal.D7 u => 55 :: uint_units u
  | Decimal.D8 u => 56 :: uint_units u
  | Decimal.D9 u => 57 :: uint_units u
  end.

Definition decimal (n : N) : jsstring := uint_units (N.to_uint n).

(** The longest prefix of decimal digits, and what follows it. *)
Fixpoint span_digits (s : jsstring) : jsstring * jsstring :=
  match s with
  | c :: s' =>
      if is_digit c
      then let (ds, r) := span_digits s' in (c :: ds, r)
      else ([], s)
  | [] => ([], [])
  end.

(** [parseInt(s, 10)] on a string that starts with a digit.  A JavaScript
    number is a double: below 2^53 the value is the exact integer, which the
    embedding keeps.  From 2^53 on the source rounds to the nearest double;
    the embedding does not follow it there and keeps the integer, so what is
    proved about the substitution of tokens bounds their numbers by 2^53
    ([piece_ok]). *)
Definition parseInt (s : jsstring) : N :=
  fold_left (fun acc c => 10 * acc + (c - 48)) (fst (span_digits s)) 0.

(** ** SnippetValidator *)

Record Validation := { isValid : bool; message : string }.

Definition MSG_NONE : string := EmptyString.
Definition MSG_EMPTY : string := "Snippet key cannot be empty.".
Definition MSG_SPACES : string := "Snippet key cannot contain spaces.".
Definition MSG_CHARS : string :=
  "Snippet key can only contain letters, numbers, hyphens, and underscores.".

(** [/^[a-zA-Z0-9_-]+$/.test(key)] *)
Definition key_regex_test (key : jsstring) : bool :=
  negb (is_empty key) && forallb is_key_char key.

Definition validateKey (key : jsstring) : Validation :=
  if is_empty key || jseq (trim key) [] then
    {| isValid := false; message := MSG_EMPTY |}
  else if includes SPACE key then
    {| isValid := false; message := MSG_SPACES |}
  else if negb (key_regex_test key) then
    {| isValid := false; message := MSG_CHARS |}
  else
    {| isValid := true; message := MSG_NONE |}.

(** ** SnippetProcessor *)

(** [/\{\d+\}/] anchored at the start of [s]: the matched text, if any.
    [\d+] is greedy and the closing brace is not a digit, so the only
    candidate is the whole run of digits after the opening brace. *)
Definition match_token (s : jsstring) : option jsstring :=
  match s with
  | c :: s' =>
      if c =? LBRACE then
        match span_digits s' with
        | (d :: ds, c' :: _) =>
            if c' =? RBRACE then Some (LBRACE :: d :: ds ++ [RBRACE]) else None
        | _ => None
        end
      else None
  | [] => None
  end.

(** [/\{\d+\}/.test(text)]: a match at some position. *)
Fixpoint hasPlaceholders (text : jsstring) : bool :=
  match text with
  | [] => false
  | _ :: text' =>
      match match_token text with
      | Some _ => true
      | None => hasPlaceholders text'
      end
  end.

(** [text.match(/\{\d+\}/g)]: the matches from left to right, each search
    resuming after the previous match.  [skip] counts the code units of the
    last match that are still to be passed over. *)
Fixpoint match_all (skip : nat) (text : jsstring) : list jsstring :=
  match text with
  | [] => []
  | _ :: text' =>
      match skip with
      | S n => match_all n text'
      | O =>
          match match_token text with
          | Some tok => tok :: match_all (length tok - 1) text'
          | None => match_all 0 text'
          end
      end
  end.

Definition set_has (x : jsstring) (s : list jsstring) : bool :=
  existsb (jseq x) s.

(** [[...new Set(matches)]]: distinct values in order of first insertion. *)
Definition new_Set (l : list jsstring) : list jsstring :=
  fold_left (fun s x => if set_has x s then s else s ++ [x]) l [].

Definition extractPlaceholders (text : jsstring) : list jsstring :=
  new_Set (match_all 0 text).

(** The replacement text of [String.prototype.replace] as the language
    expands it (GetSubstitution) for a pattern without capture groups:
    [$$] is a dollar sign, [$&] the matched text, [$`] the text before the
    match and [$'] the text after it.  [$1] to [$99] and [$<] refer to groups
    that the pattern does not have and stay as written, like a dollar sign
    before any other unit. *)
Fixpoint expand (rep matched before after : jsstring) : jsstring :=
  match rep with
  | [] => []
  | c :: r =>
      if c =? DOLLAR then
        match r with
        | d :: r' =>
            if d =? DOLLAR then DOLLAR :: expand r' matched before after
            else if d =? AMPERSAND then matched ++ expand r' matched before after
            else if d =? BACKTICK then before ++ expand r' matched before after
            else if d =? APOSTROPHE then after ++ expand r' matched before after
            else DOLLAR :: expand r matched before after
        | [] => [DOLLAR]
        end
      else c :: expand r matched before after
  end.

(** [text.replace(new RegExp(pat, 'g'), rep)] for a pattern [pat] that
    matches one literal text: every match, searching from left to right and
    resuming after each match, is replaced by the expansion of [rep].
    [before] is the part of the subject already passed and [skip] counts the
    units of the last match still to be passed over. *)
Fixpoint replace_from (pat rep : jsstring) (skip : nat)
    (before text : jsstring) : jsstring :=
  match text with
  | [] => []
  | c :: text' =>
      match skip with
      | S n => replace_from pat rep n (before ++ [c]) text'
      | O =>
          if starts_with pat text then
            expand rep pat before (skipn (length pat) text)
            ++ replace_from pat rep (length pat - 1) (before ++ [c]) text'
          else c :: replace_from pat rep 0 (before ++ [c]) text'
      end
  end.

Definition replace_global (pat rep text : jsstring) : jsstring :=
  replace_from pat rep 0 [] text.

(** [placeholder.replace(/[{}]/g, '')] *)
Definition strip_braces (placeholder : jsstring) : jsstring :=
  filter (fun c => negb ((c =? LBRACE) || (c =? RBRACE))) placeholder.

(** The source of [new RegExp('\\{' + paramNum + '\\}', 'g')] matches the
    literal text of an opening brace, the decimal digits of [paramNum] and a
    closing brace.  The digits are those of the integer, as [String] prints a
    number below 2^53; beyond it the source prints the rounded double, from
    1e21 on in exponent form, which the embedding does not follow. *)
Definition placeholder_pattern (paramNum : N) : jsstring :=
  LBRACE :: decimal paramNum ++ [RBRACE].

(** The [if / else if] chain that chooses [replacement]. *)
Definition replacement_for (paramNum : N) (lines : list jsstring) : jsstring :=
  if paramNum =? 1 then
    if (0 <? length lines)%nat then nth 0 lines [] else []
  else if (1 <? paramNum) && (paramNum <=? N.of_nat (length lines)) then
    nth (N.to_nat (paramNum - 1)) lines []
  else if (paramNum =? 2) && (1 <? length lines)%nat then
    join SPACE (skipn 1 lines)
  else [].

(** One turn of [placeholders.forEach]: [processedText] before, and after. *)
Definition substitute (lines : list jsstring) (processedText placeholder : jsstring)
    : jsstring :=
  let paramNum := parseInt (strip_braces placeholder) in
  replace_global (placeholder_pattern paramNum)
    (replacement_for paramNum lines) processedText.

(** [selectedText.split('\n').map(trim).filter(line => line.length > 0)] *)
Definition selected_lines (selectedText : jsstring) : list jsstring :=
  filter (fun line => (0 <? length line)%nat) (map trim (split LF selectedText)).

(** [selectedText] is [None] when the caller passes no string ([undefined]
    or [null]); both that and the empty string are falsy. *)
Definition processTemplate (snippetText : jsstring)
    (selectedText : option jsstring) : jsstring :=
  match selectedText with
  | None => snippetText
  | Some sel =>
      if is_empty sel || negb (hasPlaceholders snippetText) then snippetText
      else
        fold_left (substitute (selected_lines sel))
          (extractPlaceholders snippetText) snippetText
  end.

(** ** Plain objects used as maps from keys to strings *)

Module JSObject.

(** The own properties, in the order in which the language enumerates them
    ([Object.keys], spread, [JSON.stringify]): keys that are array indices
    first, in ascending numeric order, then the other keys in the order in
    which they were created.  Every property here is an enumerable data
    property holding a string. *)
Definition t := list (jsstring * jsstring).

Definition empty : t := [].

(** An array index is the canonical decimal spelling of an integer
    below 2^32 - 1. *)
Definition array_index (k : jsstring) : option N :=
  if negb (is_empty k) && forallb is_digit k
     && jseq (decimal (parseInt k)) k && (parseInt k <? 4294967295)
  then Some (parseInt k) else None.

(** The properties that a plain object inherits from [Object.prototype]. *)
Definition PROTO : jsstring := js "__proto__".

Definition prototype_names : list jsstring :=
  [ js "constructor"; js "__defineGetter__"; js "__defineSetter__";
    js "hasOwnProperty"; js "__lookupGetter__"; js "__lookupSetter__";
    js "isPrototypeOf"; js "propertyIsEnumerable"; js "toString";
    js "valueOf"; PROTO; js "toLocaleString" ].

Definition inherited (k : jsstring) : bool := set_has k prototype_names.

(** What reading [o[k]] yields. *)
Inductive value :=
| Undefined
| Str (s : jsstring)
| Inherited.  (* a function or object found on the prototype *)

Definition truthy (v : value) : bool :=
  match v with
  | Undefined => false
  | Str s => negb (is_empty s)
  | Inherited => true
  end.

Fixpoint get_own (o : t) (k : jsstring) : option jsstring :=
  match o with
  | [] => None
  | (k', v) :: o' => if jseq k' k then Some v else get_own o' k
  end.

(** [o[k]] *)
Definition get (o : t) (k : jsstring) : value :=
  match get_own o k with
  | Some v => Str v
  | None => if inherited k then Inherited else Undefined
  end.

Definition keys (o : t) : list jsstring := map fst o.

Fixpoint update (o : t) (k v : jsstring) : t :=
  match o with
  | [] => []
  | (k', v') :: o' =>
      if jseq k' k then (k', v) :: o' else (k', v') :: update o' k v
  end.

(** A new array-index key takes its numeric place among the index keys. *)
Fixpoint insert_index (i : N) (k v : jsstring) (o : t) : t :=
  match o with
  | [] => [(k, v)]
  | (k', v') :: o' =>
      match array_index k' with
      | Some j =>
          if j <? i then (k', v') :: insert_index i k v o' else (k, v) :: o
      | None => (k, v) :: o
      end
  end.

(** [o[k] = v] for a string [v]: an own property keeps its place; a new
    one is created, except that assigning a string through the inherited
    [__proto__] accessor does nothing. *)
Definition set (o : t) (k v : jsstring) : t :=
  match get_own o k with
  | Some _ => update o k v
  | None =>
      if jseq k PROTO then o
      else match array_index k with
           | Some i => insert_index i k v o
           | None => o ++ [(k, v)]
           end
  end.

(** [delete o[k]] *)
Definition delete (o : t) (k : jsstring) : t :=
  filter (fun e => negb (jseq (fst e) k)) o.

(** [{ ...o }]: the own properties in enumeration order; nothing when [o]
    is [undefined]. *)
Definition spread (o : option t) : t :=
  match o with Some o => o | None => empty end.

(** The order invariant of the representation: array indices first, in
    strictly ascending order from [lo] on, and no array index after the
    first other key. *)
Definition no_index (o : t) : bool :=
  forallb (fun e => match array_index (fst e) with
                    | Some _ => false
                    | None => true
                    end) o.

Fixpoint ordered_from (lo : N) (o : t) : bool :=
  match o with
  | [] => true
  | (k, _) :: o' =>
      match array_index k with
      | Some i => (lo <=? i) && ordered_from (i + 1) o'
      | None => no_index o'
      end
  end.

Definition ordered (o : t) : bool := ordered_from 0 o.

End JSObject.

(** ** plugin.settings *)

Record Settings := {
  snippets : JSObject.t;
  icons : option JSObject.t;   (* [None]: the property is missing *)
  groups : option JSObject.t
}.

Definition DEFAULT_ICON : jsstring := js "stamp".

Definition DEFAULT_SETTINGS : Settings := {|
  snippets := [ (js "hello", js "_Hello World_");
                (js "greet", js "Hello {1} (from Insertive)") ];
  icons := Some [ (js "hello", js "stamp"); (js "greet", js "hand") ];
  groups := Some [ (js "hello", []); (js "greet", []) ]
|}.

(** The three maps are in enumeration order. *)
Definition settings_ordered (settings : Settings) : Prop :=
  JSObject.ordered (snippets settings) = true
  /\ JSObject.ordered (JSObject.spread (icons settings)) = true
  /\ JSObject.ordered (JSObject.spread (groups settings)) = true.

(** How a handler ends.  The handlers report through a [Notice] or a modal;
    the constructors name the error kinds of the design. *)
Inductive Outcome :=
| MissingInput                 (* Notice 'Please enter both a key and text value ...' *)
| InvalidKey (message : string)  (* Notice(validation.message) *)
| DuplicateKey                 (* the key is taken: ConfirmModal opened, or Notice '... already exists ...' *)
| Done.                        (* settings written; Notice 'Added snippet' / 'Updated snippet' *)

(** [EditSnippetModal.handleSave], with the modal's fields as arguments. *)
Definition handleSave (settings : Settings)
    (originalKey key value icon group : jsstring) : Outcome * Settings :=
  let commit :=
    let newSnippets := JSObject.spread (Some (snippets settings)) in
    let newIcons := JSObject.spread (icons settings) in
    let newGroups := JSObject.spread (groups settings) in
    (* Remove old key *)
    let newSnippets := JSObject.delete newSnippets originalKey in
    let newIcons := JSObject.delete newIcons originalKey in
    let newGroups := JSObject.delete newGroups originalKey in
    (* Add new key *)
    (Done,
     {| snippets := JSObject.set newSnippets key value;
        icons := Some (JSObject.set newIcons key icon);
        groups := Some (JSObject.set newGroups key group) |}) in
  if is_empty key || is_empty value then (MissingInput, settings)
  else if negb (jseq key originalKey) then
    let validation := validateKey key in
    if negb (isValid validation) then (InvalidKey (message validation), settings)
    else if JSObject.truthy (JSObject.get (snippets settings) key)
    then (DuplicateKey, settings)
    else commit
  else commit.

(** [InsertiveSettingTab.addNewSnippet] *)
Definition addNewSnippet (settings : Settings) (key value : jsstring) : Settings :=
  let snippets' := JSObject.set (snippets settings) key value in
  let icons0 := match icons settings with Some o => o | None => JSObject.empty end in
  let icons' := JSObject.set icons0 key DEFAULT_ICON in
  let groups0 := match groups settings with Some o => o | None => JSObject.empty end in
  let groups' := JSObject.set groups0 key [] in
  {| snippets := snippets'; icons := Some icons'; groups := Some groups' |}.

(** [InsertiveSettingTab.replaceSnippet], run when the user confirms the
    modal.  Keeps the icon and the group. *)
Definition replaceSnippet (settings : Settings) (key value : jsstring) : Settings :=
  {| snippets := JSObject.set (snippets settings) key value;
     icons := icons settings;
     groups := groups settings |}.

(** [InsertiveSettingTab.handleAddSnippet], with the form's fields as
    arguments. *)
Definition handleAddSnippet (settings : Settings) (key value : jsstring)
    : Outcome * Settings :=
  if is_empty key || is_empty value then (MissingInput, settings)
  else
    let validation := validateKey key in
    if negb (isValid validation) then (InvalidKey (message validation), settings)
    else if JSObject.truthy (JSObject.get (snippets settings) key)
    then (DuplicateKey, settings)
    else (Done, addNewSnippet settings key value).

(** [InsertiveSettingTab.handleDeleteSnippet] *)
Definition handleDeleteSnippet (settings : Settings) (key : jsstring) : Settings :=
  let snippets' := JSObject.delete (snippets settings) key in
  (* Also delete the icon setting *)
  let icons' :=
    match icons settings with
    | Some o =>
        if JSObject.truthy (JSObject.get o key)
        then Some (JSObject.delete o key) else Some o
    | None => None
    end in
  (* Also delete the group setting *)
  let groups' :=
    match groups settings with
    | Some o =>
        if JSObject.truthy (JSObject.get o key)
        then Some (JSObject.delete o key) else Some o
    | None => None
    end in
  {| snippets := snippets'; icons := icons'; groups := groups' |}.

(** ** The design's wording, for comparison with the code *)

(** A template contains a token: an opening brace, one or more decimal
    digits and a closing brace, somewhere in the text. *)
Definition contains_token (text : jsstring) : Prop :=
  exists pre ds post,
    ds <> [] /\ forallb is_digit ds = true
    /\ text = pre ++ LBRACE :: ds ++ RBRACE :: post.

(** [text] contains the literal [pat]. *)
Definition occurs (pat text : jsstring) : Prop :=
  exists pre post, text = pre ++ pat ++ post.

(** The replacement rules of the design: placeholder 2 takes every line from
    the second one on, joined by single spaces, when more than one line is
    selected. *)
Definition grouped_tail_replacement (k : N) (lines : list jsstring) : jsstring :=
  if k =? 1 then nth 0 lines []
  else if (k =? 2) && (1 <? length lines)%nat then join SPACE (skipn 1 lines)
  else if (1 <? k) && (k <=? N.of_nat (length lines)) then
    nth (N.to_nat (k - 1)) lines []
  else [].


(** The three rules of the validator in the order of the design, the second
    one read as "contains no whitespace". *)
Inductive KeyRule := RuleNonEmpty | RuleNoWhitespace | RuleCharset.

Definition first_failing_rule (key : jsstring) : option KeyRule :=
  if jseq (trim key) [] then Some RuleNonEmpty
  else if existsb is_whitespace key then Some RuleNoWhitespace
  else if negb (key_regex_test key) then Some RuleCharset
  else None.

Definition rule_message (r : KeyRule) : string :=
  match r with
  | RuleNonEmpty => MSG_EMPTY
  | RuleNoWhitespace => MSG_SPACES
  | RuleCharset => MSG_CHARS
  end.


Definition brace_free (s : jsstring) : Prop :=
  forallb (fun c => negb (c =? LBRACE)) s = true.

Definition TOKEN1 : jsstring := js "{1}".
Definition TOKEN2 : jsstring := js "{2}".

(** A selected line that [trim] leaves as it is and that [replace] inserts
    as it is: not empty, no whitespace at either end, no line feed and no
    dollar sign. *)
Definition plain_line (l : jsstring) : Prop :=
  l <> [] /\ trim l = l /\ includes LF l = false /\ includes DOLLAR l = false.

(** ** ContextMenuManager *)

(** How a piece of code ends that may throw.  [Unmodelled] stands for a
    run in which a member inherited from [Object.prototype] is used as a
    string, whose spelling the embedding does not fix. *)
Inductive JSResult (A : Type) :=
| Returns (a : A)
| ThrowsTypeError
| Unmodelled.

Arguments Returns {A} a.
Arguments ThrowsTypeError {A}.
Arguments Unmodelled {A}.

(** The object [grouped]: own properties that hold arrays of keys, in
    enumeration order. *)
Definition Grouped := list (jsstring * list jsstring).

Fixpoint grouped_get (g : Grouped) (name : jsstring) : option (list jsstring) :=
  match g with
  | [] => None
  | (n, l) :: g' => if jseq n name then Some l else grouped_get g' name
  end.

(** [grouped[name].push(key)] on an own array. *)
Fixpoint grouped_push (g : Grouped) (name key : jsstring) : Grouped :=
  match g with
  | [] => []
  | (n, l) :: g' =>
      if jseq n name then (n, l ++ [key]) :: g'
      else (n, l) :: grouped_push g' name key
  end.

Fixpoint grouped_insert_index (i : N) (name : jsstring) (g : Grouped) : Grouped :=
  match g with
  | [] => [(name, [])]
  | (n, l) :: g' =>
      match JSObject.array_index n with
      | Some j =>
          if j <? i then (n, l) :: grouped_insert_index i name g'
          else (name, []) :: g
      | None => (name, []) :: g
      end
  end.

(** [grouped[name] = []] for a name that is not an own property and not
    inherited. *)
Definition grouped_create (g : Grouped) (name : jsstring) : Grouped :=
  match JSObject.array_index name with
  | Some i => grouped_insert_index i name g
  | None => g ++ [(name, [])]
  end.

(** [this.plugin.settings.groups?.[key] || ''] *)
Definition group_of (settings : Settings) (key : jsstring) : option jsstring :=
  match groups settings with
  | None => Some []
  | Some o =>
      match JSObject.get o key with
      | JSObject.Str s => Some s
      | JSObject.Undefined => Some []
      | JSObject.Inherited => None
      end
  end.

(** One turn of the [forEach] of [organizeSnippetsByGroup].  An inherited
    member under the group's name is truthy, so no array is created, and it
    has no [push]. *)
Definition organize_step (settings : Settings) (acc : JSResult Grouped)
    (key : jsstring) : JSResult Grouped :=
  match acc with
  | Returns g =>
      match group_of settings key with
      | None => Unmodelled
      | Some group =>
          match grouped_get g group with
          | Some _ => Returns (grouped_push g group key)
          | None =>
              if JSObject.inherited group then ThrowsTypeError
              else Returns (grouped_push (grouped_create g group) group key)
          end
      end
  | ThrowsTypeError => ThrowsTypeError
  | Unmodelled => Unmodelled
  end.

Definition organizeSnippetsByGroup (settings : Settings)
    (snippetKeys : list jsstring) : JSResult Grouped :=
  fold_left (organize_step settings) snippetKeys (Returns []).

(** [a < b] on strings: by code units, a proper prefix first. *)
Fixpoint js_ltb (a b : jsstring) : bool :=
  match a, b with
  | _, [] => false
  | [], _ :: _ => true
  | x :: a', y :: b' => (x <? y) || ((x =? y) && js_ltb a' b')
  end.

(** [names.sort()] without a comparison function. *)
Fixpoint sort_insert (x : jsstring) (l : list jsstring) : list jsstring :=
  match l with
  | [] => [x]
  | y :: l' => if js_ltb y x then y :: sort_insert x l' else x :: l
  end.

Definition js_sort (l : list jsstring) : list jsstring :=
  fold_right sort_insert [] l.

(** [icons?.[key] || DEFAULT_ICON], the icon of a menu item. *)
Definition icon_of (settings : Settings) (key : jsstring) : JSObject.value :=
  match icons settings with
  | None => JSObject.Str DEFAULT_ICON
  | Some o =>
      match JSObject.get o key with
      | JSObject.Str s =>
          if is_empty s then JSObject.Str DEFAULT_ICON else JSObject.Str s
      | JSObject.Undefined => JSObject.Str DEFAULT_ICON
      | JSObject.Inherited => JSObject.Inherited
      end
  end.

Record MenuEntry := { entry_title : jsstring; entry_icon : JSObject.value }.

Inductive MenuItem :=
| SnippetItem (e : MenuEntry)      (* inserts the snippet of that key *)
| Separator
| Folder (title : jsstring) (entries : list MenuEntry)
| ManageSnippets.                  (* "Manage Snippets..." *)

Inductive ContextMenu :=
| DisabledInsertive                    (* no snippets: one disabled item *)
| InsertiveSubmenu (items : list MenuItem).

(** [addSnippetMenuItem] *)
Definition snippet_entry (settings : Settings) (key : jsstring) : MenuEntry :=
  {| entry_title := key; entry_icon := icon_of settings key |}.

Definition bucket (g : Grouped) (name : jsstring) : list jsstring :=
  match grouped_get g name with Some l => l | None => [] end.

(** The names of the folders:
    [Object.keys(groupedSnippets).filter(g => g !== '').sort()] *)
Definition folder_names (g : Grouped) : list jsstring :=
  js_sort (filter (fun n => negb (is_empty n)) (map fst g)).

Definition is_nil (l : list jsstring) : bool :=
  match l with [] => true | _ :: _ => false end.

(** The items of the submenu, from the grouped keys. *)
Definition submenu_items (settings : Settings) (g : Grouped) : list MenuItem :=
  let ungrouped := bucket g [] in
  let hasGroups := existsb (fun n => negb (is_empty n)) (map fst g) in
  map (fun k => SnippetItem (snippet_entry settings k)) ungrouped
  ++ (if negb (is_nil ungrouped) && hasGroups then [Separator] else [])
  ++ map (fun n => Folder n (map (snippet_entry settings) (bucket g n)))
       (folder_names g)
  ++ [Separator; ManageSnippets].

(** [addContextMenu]: what the menu is given. *)
Definition addContextMenu (settings : Settings) : JSResult ContextMenu :=
  let snippetKeys := JSObject.keys (snippets settings) in
  match snippetKeys with
  | [] => Returns DisabledInsertive
  | _ :: _ =>
      match organizeSnippetsByGroup settings snippetKeys with
      | Returns g => Returns (InsertiveSubmenu (submenu_items settings g))
      | ThrowsTypeError => ThrowsTypeError
      | Unmodelled => Unmodelled
      end
  end.

(** The group that [organizeSnippetsByGroup] files a key under, when it is a
    string. *)
Definition group_name (settings : Settings) (key : jsstring) : jsstring :=
  match group_of settings key with Some n => n | None => [] end.

(** What [grouped] holds after the keys [ks]: under every name the keys of
    that group, in their order, and no name without a key. *)
Definition grouped_for (settings : Settings) (ks : list jsstring) (g : Grouped)
    : Prop :=
  NoDup (map fst g)
  /\ forall n,
       grouped_get g n
       = match filter (fun k => jseq (group_name settings k) n) ks with
         | [] => None
         | l => Some l
         end.

(** The keys of the settings that are filed under a group, in the order of
    the settings. *)
Definition keys_in_group (settings : Settings) (name : jsstring)
    : list jsstring :=
  filter (fun k => jseq (group_name settings k) name)
    (JSObject.keys (snippets settings)).

(** ** InsertiveSettingTab: drag to reorder, and the rows *)

(** [keys.splice(i, 1)]: the array without its element at [i]. *)
Definition remove_at (i : nat) (l : list jsstring) : list jsstring :=
  firstn i l ++ skipn (S i) l.

(** [keys.splice(i, 0, x)]: [x] put in at [i], at the end when [i] is
    beyond it. *)
Definition insert_at (i : nat) (x : jsstring) (l : list jsstring)
    : list jsstring :=
  firstn i l ++ x :: skipn i l.

(** [keys.forEach(k => { fresh[k] = o[k]; })] from an empty object, for
    keys whose values are own strings of [o]; [None] when some [o[k]] is
    not an own property (what is stored then is no string). *)
Definition rebuild (o : JSObject.t) (keys : list jsstring) : option JSObject.t :=
  fold_left
    (fun acc k =>
       match acc, JSObject.get_own o k with
       | Some fresh, Some v => Some (JSObject.set fresh k v)
       | _, _ => None
       end)
    keys (Some JSObject.empty).

(** The [drop] listener of [enableDragToReorder], from the two indices that
    it reads off the rows.  Reading [icons[k]] or [groups[k]] throws when
    the map is missing. *)
Definition drop (settings : Settings) (fromIndex toIndex : nat)
    : JSResult Settings :=
  if (fromIndex =? toIndex)%nat then Returns settings
  else
    let keys := JSObject.keys (snippets settings) in
    match nth_error keys fromIndex with
    | None => Unmodelled
    | Some movedKey =>
        let keys' := insert_at toIndex movedKey (remove_at fromIndex keys) in
        match icons settings, groups settings with
        | Some ic, Some gr =>
            match rebuild (snippets settings) keys',
                  rebuild ic keys', rebuild gr keys' with
            | Some newSnippets, Some newIcons, Some newGroups =>
                Returns {| snippets := newSnippets;
                           icons := Some newIcons;
                           groups := Some newGroups |}
            | _, _, _ => Unmodelled
            end
        | _, _ => ThrowsTypeError
        end
    end.

(** Whether a key is an array index, and the numbers of the keys that
    are. *)
Definition is_index (k : jsstring) : bool :=
  match JSObject.array_index k with
  | Some _ => true
  | None => false
  end.

Definition not_index (k : jsstring) : bool := negb (is_index k).

Definition index_values (keys : list jsstring) : list N :=
  flat_map (fun k => match JSObject.array_index k with
                     | Some i => [i]
                     | None => []
                     end) keys.

(** ** InsertivePlugin.loadSettings *)

(** A property of the stored data: missing, [null], or an object of
    strings. *)
Inductive Field :=
| Missing
| Null
| Object (o : JSObject.t).

(** The stored data, as far as the plugin reads it; [snippets] is an object
    or missing. *)
Record StoredData := {
  data_snippets : option JSObject.t;
  data_icons : Field;
  data_groups : Field
}.

(** What [loadData] does: it rejects, resolves to [null], or resolves to
    the stored data. *)
Inductive Loaded :=
| LoadRejects
| NoData
| Data (d : StoredData).

(** [Object.keys(snippets).forEach(key => { fresh[key] = v; })] *)
Definition backfill (snippets : JSObject.t) (v : jsstring) : JSObject.t :=
  fold_left (fun fresh k => JSObject.set fresh k v)
    (JSObject.keys snippets) JSObject.empty.

(** [Object.assign({}, DEFAULT_SETTINGS, loadedData)], one property. *)
Definition assigned (default : option JSObject.t) (f : Field)
    : option JSObject.t :=
  match f with
  | Missing => default
  | Null => None
  | Object o => Some o
  end.

(** [loadSettings].  [saved1] and [saved2] tell whether the [saveData]
    after the first and after the second backfill resolves; a rejection
    lands in the [catch], which falls back to the defaults. *)
Definition loadSettings (loaded : Loaded) (saved1 saved2 : bool) : Settings :=
  match loaded with
  | LoadRejects => DEFAULT_SETTINGS
  | NoData => DEFAULT_SETTINGS
  | Data d =>
      let s := match data_snippets d with
               | Some o => o
               | None => snippets DEFAULT_SETTINGS
               end in
      let i := assigned (icons DEFAULT_SETTINGS) (data_icons d) in
      let g := assigned (groups DEFAULT_SETTINGS) (data_groups d) in
      match i with
      | Some ic =>
          match g with
          | Some gr => {| snippets := s; icons := Some ic; groups := Some gr |}
          | None =>
              if saved1
              then {| snippets := s; icons := Some ic;
                      groups := Some (backfill s []) |}
              else DEFAULT_SETTINGS
          end
      | None =>
          if saved1 then
            match g with
            | Some gr =>
                {| snippets := s; icons := Some (backfill s DEFAULT_ICON);
                   groups := Some gr |}
            | None =>
                if saved2
                then {| snippets := s; icons := Some (backfill s DEFAULT_ICON);
                        groups := Some (backfill s []) |}
                else DEFAULT_SETTINGS
            end
          else DEFAULT_SETTINGS
      end
  end.

(** ** Records of the settings *)

Definition has_own (o : JSObject.t) (k : jsstring) : bool :=
  match JSObject.get_own o k with Some _ => true | None => false end.

(** Every key of [snippets] has an entry in [icons] and one in [groups]. *)
Definition complete (settings : Settings) : Prop :=
  forall k,
    has_own (snippets settings) k = true ->
    has_own (JSObject.spread (icons settings)) k = true
    /\ has_own (JSObject.spread (groups settings)) k = true.

(** ** Templates as pieces

    A template in ordinary use: text without an opening brace, and tokens. *)

Inductive piece :=
| Text (s : jsstring)
| Tok (digits : jsstring).   (* the token [{digits}] *)

Definition token_text (digits : jsstring) : jsstring :=
  LBRACE :: digits ++ [RBRACE].

Fixpoint render (ps : list piece) : jsstring :=
  match ps with
  | [] => []
  | Text s :: ps' => s ++ render ps'
  | Tok ds :: ps' => token_text ds ++ render ps'
  end.

(** Text holds no opening brace; a token holds one or more digits, and its
    number is below 2^53, where a double is exact. *)
Definition piece_ok (p : piece) : Prop :=
  match p with
  | Text s => brace_free s
  | Tok ds => ds <> [] /\ forallb is_digit ds = true /\ parseInt ds < 2 ^ 53
  end.

Definition is_token (p : piece) : bool :=
  match p with Text _ => false | Tok _ => true end.

(** The [k]-th selected line, counting from 1; empty when there is none. *)
Definition line_for (k : N) (lines : list jsstring) : jsstring :=
  if (1 <=? k) && (k <=? N.of_nat (length lines))
  then nth (N.to_nat (k - 1)) lines []
  else [].

(** A token is written canonically when its digits are the decimal
    spelling of its number: no leading zero, except for [0] itself. *)
Definition canonical (digits : jsstring) : bool :=
  jseq (decimal (parseInt digits)) digits.

Definition substituted (lines : list jsstring) (p : piece) : piece :=
  match p with
  | Text s => Text s
  | Tok ds => if canonical ds then Text (line_for (parseInt ds) lines) else Tok ds
  end.

(** The tokens of the pieces, from left to right. *)
Definition piece_tokens (ps : list piece) : list jsstring :=
  flat_map (fun p => match p with
                     | Text _ => []
                     | Tok ds => [token_text ds]
                     end) ps.

(** One pass over the pieces: the tokens spelled [decimal n] become [r]. *)
Definition pass_piece (n : N) (r : jsstring) (p : piece) : piece :=
  match p with
  | Text s => Text s
  | Tok ds => if jseq (decimal n) ds then Text r else Tok ds
  end.






(** A string starts with something else than whitespace, or is empty. *)
Definition head_ok (s : jsstring) : Prop :=
  match s with
  | [] => True
  | c :: _ => is_whitespace c = false
  end.

(** The digit string as a decimal numeral of the library. *)
Fixpoint units_uint (s : jsstring) : Decimal.uint :=
  match s with
  | [] => Decimal.Nil
  | c :: s' =>
      let u := units_uint s' in
      if c =? 48 then Decimal.D0 u
      else if c =? 49 then Decimal.D1 u
      else if c =? 50 then Decimal.D2 u
      else if c =? 51 then Decimal.D3 u
      else if c =? 52 then Decimal.D4 u
      else if c =? 53 then Decimal.D5 u
      else if c =? 54 then Decimal.D6 u
      else if c =? 55 then Decimal.D7 u
      else if c =? 56 then Decimal.D8 u
      else Decimal.D9 u
  end.

(** * Properties *)

(** ** Strings *)

Lemma jseq_refl (a : jsstring) : jseq a a = true.
Proof.
  induction a as [|x a IH]; simpl; [reflexivity|].
  now rewrite N.eqb_refl, IH.
Qed.

Lemma jseq_eq (a b : jsstring) : jseq a b = true <-> a = b.
Proof.
  split.
  - revert b; induction a as [|x a IH]; intros [|y b] H; simpl in H;
      try discriminate; [reflexivity|].
    apply andb_true_iff in H as [Hx Hab].
    apply N.eqb_eq in Hx. apply IH in Hab. now subst.
  - intros ->. apply jseq_refl.
Qed.

Lemma jseq_neq (a b : jsstring) : jseq a b = false <-> a <> b.
Proof.
  split.
  - intros H E. apply jseq_eq in E. congruence.
  - intros H. destruct (jseq a b) eqn:E; [|reflexivity].
    apply jseq_eq in E. contradiction.
Qed.

Lemma key_char_not_whitespace (c : char16) :
  is_key_char c = true -> is_whitespace c = false.
Proof.
  unfold is_key_char, is_whitespace, is_digit, in_range, UNDERSCORE, HYPHEN.
  intros H.
  repeat (apply orb_true_iff in H as [H|H]);
    repeat match goal with
           | H : _ && _ = true |- _ => apply andb_true_iff in H as [? ?]
           | H : (_ <=? _) = true |- _ => apply N.leb_le in H
           | H : (_ =? _) = true |- _ => apply N.eqb_eq in H
           end;
    repeat (apply orb_false_iff; split);
    try (apply andb_false_iff);
    try (apply N.eqb_neq; lia);
    try (left; apply N.leb_gt; lia);
    try (right; apply N.leb_gt; lia).
Qed.

Lemma space_is_whitespace : is_whitespace SPACE = true.
Proof. reflexivity. Qed.

Lemma includes_space_whitespace (s : jsstring) :
  existsb is_whitespace s = false -> includes SPACE s = false.
Proof.
  unfold includes. induction s as [|c s IH]; cbn [existsb]; [reflexivity|].
  intros H. apply orb_false_iff in H as [Hc Hs].
  rewrite (IH Hs), orb_false_r.
  destruct (N.eqb_spec SPACE c) as [<-|]; [|reflexivity].
  rewrite space_is_whitespace in Hc. discriminate.
Qed.

Lemma key_chars_no_whitespace (s : jsstring) :
  forallb is_key_char s = true -> existsb is_whitespace s = false.
Proof.
  induction s as [|c s IH]; simpl; [reflexivity|].
  intros H. apply andb_true_iff in H as [Hc Hs].
  now rewrite (key_char_not_whitespace c Hc), (IH Hs).
Qed.

(** ** SnippetValidator *)

Lemma validateKey_blank (key : jsstring) :
  trim key = [] -> validateKey key = {| isValid := false; message := MSG_EMPTY |}.
Proof.
  intros H. unfold validateKey. rewrite H. simpl.
  now rewrite orb_true_r.
Qed.

Lemma validateKey_not_blank (key : jsstring) :
  trim key <> [] -> is_empty key || jseq (trim key) [] = false.
Proof.
  intros H. apply orb_false_iff. split.
  - destruct key; [now elim H|reflexivity].
  - now apply jseq_neq.
Qed.

(** C7, as the code has it.  A key is valid exactly when it is not blank,
    holds no whitespace and matches [^[A-Za-z0-9_-]+$].  The rules are tried
    in order and the first that fails gives the message: blank key, then a
    key that holds the space character U+0020, then a key outside the
    character set; whitespace other than U+0020 is caught by the third rule. *)
Theorem validateKey_rules (key : jsstring) :
  (isValid (validateKey key) = true <->
     trim key <> [] /\ existsb is_whitespace key = false
     /\ (key <> [] /\ Forall (fun c => is_key_char c = true) key))
  /\ validateKey key =
       (if jseq (trim key) [] then {| isValid := false; message := MSG_EMPTY |}
        else if includes SPACE key then {| isValid := false; message := MSG_SPACES |}
        else if key_regex_test key then {| isValid := true; message := MSG_NONE |}
        else {| isValid := false; message := MSG_CHARS |}).
Proof.
  assert (Hrules : validateKey key =
       (if jseq (trim key) [] then {| isValid := false; message := MSG_EMPTY |}
        else if includes SPACE key then {| isValid := false; message := MSG_SPACES |}
        else if key_regex_test key then {| isValid := true; message := MSG_NONE |}
        else {| isValid := false; message := MSG_CHARS |})).
  { destruct (jseq (trim key) []) eqn:Hblank.
    - apply validateKey_blank. now apply jseq_eq.
    - unfold validateKey. apply jseq_neq in Hblank.
      rewrite (validateKey_not_blank key Hblank).
      destruct (includes SPACE key); [reflexivity|].
      now destruct (key_regex_test key). }
  split; [|exact Hrules].
  rewrite Hrules. split.
  - destruct (jseq (trim key) []) eqn:Hblank; [discriminate|].
    destruct (includes SPACE key) eqn:Hsp; [discriminate|].
    destruct (key_regex_test key) eqn:Hre; [|discriminate].
    intros _. apply jseq_neq in Hblank.
    apply andb_true_iff in Hre as [_ Hch].
    repeat split.
    + exact Hblank.
    + now apply key_chars_no_whitespace.
    + intros ->. now elim Hblank.
    + apply Forall_forall. intros c Hc.
      now apply (proj1 (forallb_forall _ _) Hch).
  - intros (Hblank & Hws & Hne & Hch).
    apply jseq_neq in Hblank. rewrite Hblank.
    rewrite (includes_space_whitespace key Hws).
    assert (key_regex_test key = true) as ->; [|reflexivity].
    apply andb_true_iff. split.
    + destruct key; [now elim Hne|reflexivity].
    + apply forallb_forall. intros c Hc.
      now apply (proj1 (Forall_forall _ _) Hch).
Qed.

(** The rules at a valid key and at a key with a space. *)
Lemma validateKey_rules_witness :
  isValid (validateKey (js "email-intro_2")) = true
  /\ validateKey (js "a b")
     = {| isValid := false; message := MSG_SPACES |}.
Proof.
  split.
  - apply (proj1 (validateKey_rules (js "email-intro_2"))).
    repeat split; try discriminate. repeat constructor.
  - exact (proj2 (validateKey_rules (js "a b"))).
Defined.

(** C7, as stated, fails: in a key with a tab the rule "contains no
    whitespace" is the first that fails, and the message is the one of the
    character set, not the one about spaces. *)
Lemma validateKey_tab_reports_charset :
  first_failing_rule [97; TAB; 98] = Some RuleNoWhitespace
  /\ rule_message RuleNoWhitespace = MSG_SPACES
  /\ validateKey [97; TAB; 98] = {| isValid := false; message := MSG_CHARS |}.
Proof. repeat split; vm_compute; reflexivity. Qed.

(** ** Tokens *)

Lemma lbrace_not_digit : is_digit LBRACE = false.
Proof. reflexivity. Qed.

Lemma rbrace_not_digit : is_digit RBRACE = false.
Proof. reflexivity. Qed.

Lemma span_digits_spec (s : jsstring) :
  s = fst (span_digits s) ++ snd (span_digits s)
  /\ forallb is_digit (fst (span_digits s)) = true.
Proof.
  induction s as [|c s [IH1 IH2]]; cbn [span_digits]; [now split|].
  destruct (is_digit c) eqn:Hc; [|now split].
  destruct (span_digits s) as [ds r]. cbn [fst snd] in *.
  split.
  - cbn [app]. now rewrite <- IH1.
  - cbn [forallb]. now rewrite Hc, IH2.
Qed.

Lemma span_digits_app (ds rest : jsstring) :
  forallb is_digit ds = true ->
  match rest with [] => True | c :: _ => is_digit c = false end ->
  span_digits (ds ++ rest) = (ds, rest).
Proof.
  intros Hds Hrest. induction ds as [|d ds IH]; cbn [app].
  - destruct rest as [|c rest]; [reflexivity|].
    cbn [span_digits]. now rewrite Hrest.
  - cbn [forallb] in Hds. apply andb_true_iff in Hds as [Hd Hds].
    cbn [span_digits]. now rewrite Hd, (IH Hds).
Qed.

Lemma match_token_here (ds post : jsstring) :
  ds <> [] -> forallb is_digit ds = true ->
  match_token (LBRACE :: ds ++ RBRACE :: post) = Some (LBRACE :: ds ++ [RBRACE]).
Proof.
  intros Hne Hds. unfold match_token. rewrite N.eqb_refl.
  rewrite (span_digits_app ds (RBRACE :: post) Hds rbrace_not_digit).
  destruct ds as [|d ds]; [now elim Hne|].
  now rewrite N.eqb_refl.
Qed.

Lemma match_token_some (s tok : jsstring) :
  match_token s = Some tok ->
  exists ds post,
    ds <> [] /\ forallb is_digit ds = true
    /\ tok = LBRACE :: ds ++ [RBRACE] /\ s = tok ++ post.
Proof.
  destruct s as [|c s]; [discriminate|]. unfold match_token.
  destruct (N.eqb_spec c LBRACE) as [->|]; [|discriminate].
  destruct (span_digits_spec s) as [Hs Hds].
  destruct (span_digits s) as [[|d ds] [|c' r]]; try discriminate.
  destruct (N.eqb_spec c' RBRACE) as [->|]; [|discriminate].
  intros [= <-]. cbn [fst snd] in *.
  exists (d :: ds), r. repeat split; [discriminate|exact Hds|].
  rewrite Hs. cbn [app]. now rewrite <- app_assoc.
Qed.

Lemma match_token_not_brace (c : char16) (s : jsstring) :
  (c =? LBRACE) = false -> match_token (c :: s) = None.
Proof. intros H. unfold match_token. now rewrite H. Qed.

(** [hasPlaceholders] is the regular expression test: it answers whether
    the text contains a token. *)
Lemma hasPlaceholders_contains (text : jsstring) :
  hasPlaceholders text = true <-> contains_token text.
Proof.
  split.
  - induction text as [|c text IH]; [discriminate|].
    cbn [hasPlaceholders].
    destruct (match_token (c :: text)) as [tok|] eqn:Htok.
    + intros _. apply match_token_some in Htok as (ds & post & Hne & Hds & -> & Hs).
      exists [], ds, post. repeat split; try assumption.
      rewrite Hs. cbn [app]. now rewrite <- app_assoc.
    + intros H. destruct (IH H) as (pre & ds & post & Hne & Hds & ->).
      now exists (c :: pre), ds, post.
  - intros (pre & ds & post & Hne & Hds & ->).
    induction pre as [|c pre IH]; cbn [app hasPlaceholders].
    + now rewrite (match_token_here ds post Hne Hds).
    + now destruct (match_token _).
Qed.



(** ** [new Set] *)

Lemma set_has_In (x : jsstring) (s : list jsstring) :
  set_has x s = true <-> In x s.
Proof.
  unfold set_has. rewrite existsb_exists. split.
  - intros (y & Hy & E). apply jseq_eq in E. now subst.
  - intros H. exists x. split; [exact H|apply jseq_refl].
Qed.

Lemma new_Set_acc (l acc : list jsstring) :
  let r := fold_left (fun s x => if set_has x s then s else s ++ [x]) l acc in
  (NoDup acc -> NoDup r) /\ (forall x, In x r <-> In x acc \/ In x l).
Proof.
  revert acc. induction l as [|y l IH]; intros acc; cbn [fold_left].
  - split; [easy|]. intros x. cbn [In]. tauto.
  - destruct (set_has y acc) eqn:Hy.
    + destruct (IH acc) as [IH1 IH2]. split; [exact IH1|].
      intros x. rewrite IH2. cbn [In]. apply set_has_In in Hy.
      split; [tauto|]. intros [H|[<-|H]]; tauto.
    + destruct (IH (acc ++ [y])) as [IH1 IH2]. split.
      * intros Hnd. apply IH1.
        assert (~ In y acc) as Hn.
        { intros Hin. apply set_has_In in Hin. congruence. }
        apply NoDup_app; [exact Hnd|repeat constructor; easy|].
        intros z Hz [<-|[]]. contradiction.
      * intros x. rewrite IH2, in_app_iff. cbn [In]. tauto.
Qed.

Lemma extractPlaceholders_NoDup (text : jsstring) :
  NoDup (extractPlaceholders text).
Proof. apply (new_Set_acc (match_all 0 text) []). constructor. Qed.

Lemma extractPlaceholders_In (text p : jsstring) :
  In p (extractPlaceholders text) <-> In p (match_all 0 text).
Proof.
  unfold extractPlaceholders, new_Set.
  rewrite (proj2 (new_Set_acc (match_all 0 text) [])). cbn [In]. tauto.
Qed.

(** ** Replacement *)

(** A replacement text without a dollar sign is inserted as it is. *)
Lemma expand_no_dollar (rep matched before after : jsstring) :
  includes DOLLAR rep = false -> expand rep matched before after = rep.
Proof.
  unfold includes. induction rep as [|c rep IH]; [reflexivity|].
  cbn [existsb expand]. intros H. apply orb_false_iff in H as [Hc Hrep].
  rewrite N.eqb_sym in Hc. rewrite Hc. now rewrite (IH Hrep).
Qed.

Lemma starts_with_not_head (p c : char16) (pat s : jsstring) :
  (c =? p) = false -> starts_with (p :: pat) (c :: s) = false.
Proof. intros H. cbn [starts_with]. now rewrite N.eqb_sym, H. Qed.

Lemma replace_from_brace_free (d : char16) (ds rep before s rest : jsstring) :
  brace_free s ->
  replace_from (LBRACE :: d :: ds) rep 0 before (s ++ rest)
  = s ++ replace_from (LBRACE :: d :: ds) rep 0 (before ++ s) rest.
Proof.
  unfold brace_free. revert before.
  induction s as [|c s IH]; intros before Hs; cbn [app].
  - now rewrite app_nil_r.
  - cbn [forallb] in Hs. apply andb_true_iff in Hs as [Hc Hs].
    apply negb_true_iff in Hc.
    cbn [replace_from]. rewrite (starts_with_not_head _ _ _ _ Hc).
    rewrite (IH (before ++ [c]) Hs). now rewrite <- app_assoc.
Qed.

Lemma replace_from_brace_free_end (d : char16) (ds rep before s : jsstring) :
  brace_free s -> replace_from (LBRACE :: d :: ds) rep 0 before s = s.
Proof.
  intros Hs.
  pose proof (replace_from_brace_free d ds rep before s [] Hs) as E.
  cbn [replace_from] in E. now rewrite !app_nil_r in E.
Qed.



Lemma match_all_brace_free (s rest : jsstring) :
  brace_free s -> match_all 0 (s ++ rest) = match_all 0 rest.
Proof.
  unfold brace_free. induction s as [|c s IH]; intros Hs; [reflexivity|].
  cbn [forallb] in Hs. apply andb_true_iff in Hs as [Hc Hs].
  apply negb_true_iff in Hc.
  cbn [app match_all]. rewrite (match_token_not_brace c _ Hc). now apply IH.
Qed.





(** The third branch of the chain that chooses [replacement] is never
    taken: whenever its condition holds, so does the condition of the
    second branch, and placeholder 2 receives the second line only. *)
Lemma replacement_for_no_grouping (paramNum : N) (lines : list jsstring) :
  replacement_for paramNum lines =
    if paramNum =? 1 then nth 0 lines []
    else if (1 <? paramNum) && (paramNum <=? N.of_nat (length lines))
    then nth (N.to_nat (paramNum - 1)) lines []
    else [].
Proof.
  unfold replacement_for.
  destruct (N.eqb_spec paramNum 1) as [->|H1].
  - now destruct lines.
  - destruct ((1 <? paramNum) && (paramNum <=? N.of_nat (length lines))) eqn:H2;
      [reflexivity|].
    destruct (N.eqb_spec paramNum 2) as [->|H3]; [|reflexivity].
    destruct (Nat.ltb_spec 1 (length lines)) as [Hlen|Hlen]; [|reflexivity].
    apply andb_false_iff in H2 as [H2|H2]; [discriminate|].
    apply N.leb_gt in H2. lia.
Qed.

(** The equations of a global replacement: text in which the pattern does
    not start is copied, a match is replaced by the expansion, and the search
    goes on behind the match. *)
Lemma replace_from_skip (pat rep t before rest : jsstring) :
  replace_from pat rep (length t) before (t ++ rest)
  = replace_from pat rep 0 (before ++ t) rest.
Proof.
  revert before. induction t as [|c t IH]; intros before.
  - now rewrite app_nil_r.
  - cbn [length app replace_from]. rewrite IH. now rewrite <- app_assoc.
Qed.

Lemma starts_with_app (pat rest : jsstring) :
  starts_with pat (pat ++ rest) = true.
Proof.
  induction pat as [|p pat IH]; [reflexivity|].
  cbn [app starts_with]. now rewrite N.eqb_refl, IH.
Qed.

Lemma skipn_length_app (pat rest : jsstring) :
  skipn (length pat) (pat ++ rest) = rest.
Proof. induction pat as [|p pat IH]; [reflexivity|exact IH]. Qed.

Lemma replace_from_match (p : char16) (pat rep before rest : jsstring) :
  replace_from (p :: pat) rep 0 before ((p :: pat) ++ rest)
  = expand rep (p :: pat) before rest
    ++ replace_from (p :: pat) rep 0 (before ++ p :: pat) rest.
Proof.
  change ((p :: pat) ++ rest) with (p :: (pat ++ rest)) at 1.
  cbn [replace_from].
  change (p :: (pat ++ rest)) with ((p :: pat) ++ rest).
  rewrite starts_with_app, skipn_length_app.
  cbn [length Nat.sub]. rewrite Nat.sub_0_r, replace_from_skip.
  now rewrite <- app_assoc.
Qed.

Lemma replace_from_other_token (rep before rest : jsstring) :
  replace_from TOKEN1 rep 0 before (TOKEN2 ++ rest)
  = TOKEN2 ++ replace_from TOKEN1 rep 0 (before ++ TOKEN2) rest.
Proof.
  change TOKEN1 with [LBRACE; 49; RBRACE].
  change TOKEN2 with [LBRACE; 50; RBRACE].
  cbn [app replace_from starts_with].
  rewrite N.eqb_refl.
  replace (49 =? 50) with false by reflexivity.
  replace (LBRACE =? 50) with false by reflexivity.
  replace (LBRACE =? RBRACE) with false by reflexivity.
  cbn [andb]. now rewrite <- !app_assoc.
Qed.

(** ** Selected lines *)

Lemma split_no_sep (sep : char16) (s : jsstring) :
  includes sep s = false -> split sep s = [s].
Proof.
  unfold includes. induction s as [|c s IH]; [reflexivity|].
  cbn [existsb split]. intros H. apply orb_false_iff in H as [Hc Hs].
  rewrite N.eqb_sym in Hc. now rewrite Hc, (IH Hs).
Qed.

Lemma split_app (sep : char16) (a b : jsstring) :
  includes sep a = false -> split sep (a ++ sep :: b) = a :: split sep b.
Proof.
  unfold includes. induction a as [|c a IH]; cbn [app split existsb].
  - intros _. now rewrite N.eqb_refl.
  - intros H. apply orb_false_iff in H as [Hc Ha].
    rewrite N.eqb_sym in Hc. now rewrite Hc, (IH Ha).
Qed.

Lemma selected_lines_token2 (l : jsstring) :
  plain_line l -> selected_lines (TOKEN2 ++ LF :: l) = [TOKEN2; l].
Proof.
  intros (Hne & Htrim & Hlf & _). unfold selected_lines.
  rewrite (split_app LF TOKEN2 l eq_refl), (split_no_sep LF l Hlf).
  cbn [map]. rewrite Htrim.
  replace (trim TOKEN2) with TOKEN2 by reflexivity.
  cbn [filter]. destruct l as [|c l]; [now elim Hne|reflexivity].
Qed.

(** ** SnippetProcessor.processTemplate *)

Lemma substitute_token1 (lines : list jsstring) (text : jsstring) :
  substitute lines text TOKEN1
  = replace_global TOKEN1 (replacement_for 1 lines) text.
Proof. reflexivity. Qed.

Lemma substitute_token2 (lines : list jsstring) (text : jsstring) :
  substitute lines text TOKEN2
  = replace_global TOKEN2 (replacement_for 2 lines) text.
Proof. reflexivity. Qed.

Lemma replace_token1_by_token2 (s0 s1 s2 : jsstring) :
  brace_free s0 -> brace_free s1 -> brace_free s2 ->
  replace_global TOKEN1 TOKEN2 (s0 ++ TOKEN1 ++ s1 ++ TOKEN2 ++ s2)
  = s0 ++ TOKEN2 ++ s1 ++ TOKEN2 ++ s2.
Proof.
  intros H0 H1 H2. unfold replace_global.
  change TOKEN1 with [LBRACE; 49; RBRACE].
  rewrite (replace_from_brace_free 49 [RBRACE] TOKEN2 [] s0 _ H0).
  rewrite replace_from_match, (expand_no_dollar TOKEN2 _ _ _ eq_refl).
  rewrite (replace_from_brace_free 49 [RBRACE] TOKEN2 _ s1 _ H1).
  change [LBRACE; 49; RBRACE] with TOKEN1.
  rewrite replace_from_other_token.
  change TOKEN1 with [LBRACE; 49; RBRACE].
  now rewrite (replace_from_brace_free_end 49 [RBRACE] TOKEN2 _ s2 H2).
Qed.

Lemma replace_token2_by_line (s0 s1 s2 l : jsstring) :
  brace_free s0 -> brace_free s1 -> brace_free s2 ->
  includes DOLLAR l = false ->
  replace_global TOKEN2 l (s0 ++ TOKEN2 ++ s1 ++ TOKEN2 ++ s2)
  = s0 ++ l ++ s1 ++ l ++ s2.
Proof.
  intros H0 H1 H2 Hd. unfold replace_global.
  change TOKEN2 with [LBRACE; 50; RBRACE].
  rewrite (replace_from_brace_free 50 [RBRACE] l [] s0 _ H0).
  rewrite replace_from_match, (expand_no_dollar l _ _ _ Hd).
  rewrite (replace_from_brace_free 50 [RBRACE] l _ s1 _ H1).
  rewrite replace_from_match, (expand_no_dollar l _ _ _ Hd).
  now rewrite (replace_from_brace_free_end 50 [RBRACE] l _ s2 H2).
Qed.

(** What the second pass does to the text that the first one put in: with
    the text of the second token as the first selected line, both places end
    up holding the second line. *)
Lemma processTemplate_resubstitutes (s0 s1 s2 l : jsstring) :
  brace_free s0 -> brace_free s1 -> brace_free s2 -> plain_line l ->
  processTemplate (s0 ++ TOKEN1 ++ s1 ++ TOKEN2 ++ s2)
    (Some (TOKEN2 ++ LF :: l))
  = s0 ++ l ++ s1 ++ l ++ s2.
Proof.
  intros H0 H1 H2 Hl.
  assert (Htok : hasPlaceholders (s0 ++ TOKEN1 ++ s1 ++ TOKEN2 ++ s2) = true).
  { apply hasPlaceholders_contains.
    exists s0, [49], (s1 ++ TOKEN2 ++ s2). repeat split. discriminate. }
  assert (Hps : extractPlaceholders (s0 ++ TOKEN1 ++ s1 ++ TOKEN2 ++ s2)
                = [TOKEN1; TOKEN2]).
  { unfold extractPlaceholders. rewrite (match_all_brace_free s0 _ H0).
    change (match_all 0 (TOKEN1 ++ s1 ++ TOKEN2 ++ s2))
      with (TOKEN1 :: match_all 0 (s1 ++ TOKEN2 ++ s2)).
    rewrite (match_all_brace_free s1 _ H1).
    change (match_all 0 (TOKEN2 ++ s2)) with (TOKEN2 :: match_all 0 s2).
    pose proof (match_all_brace_free s2 [] H2) as E.
    rewrite app_nil_r in E. rewrite E. reflexivity. }
  destruct Hl as (Hne & Htrim & Hlf & Hd).
  unfold processTemplate.
  rewrite Htok, Hps, (selected_lines_token2 l (conj Hne (conj Htrim (conj Hlf Hd)))).
  change (is_empty (TOKEN2 ++ LF :: l)) with false.
  cbn [orb negb fold_left].
  rewrite substitute_token1, substitute_token2.
  change (replacement_for 1 [TOKEN2; l]) with TOKEN2.
  change (replacement_for 2 [TOKEN2; l]) with l.
  rewrite (replace_token1_by_token2 s0 s1 s2 H0 H1 H2).
  apply (replace_token2_by_line s0 s1 s2 l H0 H1 H2 Hd).
Qed.

(** C1.  The documented example of the grouped replacement: the code
    returns the second selected line for placeholder 2 and drops the third,
    where its own documentation (and the grouped tail rule) promises
    "> Hello\n> world test". *)
Theorem processTemplate_grouped_example :
  processTemplate (js "> {1}" ++ [LF] ++ js "> {2}")
    (Some (js "Hello" ++ [LF] ++ js "world" ++ [LF] ++ js "test"))
  = js "> Hello" ++ [LF] ++ js "> world"
  /\ replacement_for 2 [js "Hello"; js "world"; js "test"] = js "world"
  /\ grouped_tail_replacement 2 [js "Hello"; js "world"; js "test"]
     = js "world test".
Proof. repeat split; vm_compute; reflexivity. Qed.

(** C8.  A template without a token, or any template with a selection that
    is empty or absent, is returned unchanged. *)
Theorem processTemplate_identity (template : jsstring)
    (selection : option jsstring) :
  selection = None \/ selection = Some [] \/ ~ contains_token template ->
  processTemplate template selection = template.
Proof.
  intros H. unfold processTemplate.
  destruct selection as [sel|]; [|reflexivity].
  destruct H as [H|[H|H]]; [discriminate| |].
  - injection H as ->. reflexivity.
  - destruct (hasPlaceholders template) eqn:Hp.
    + apply hasPlaceholders_contains in Hp. contradiction.
    + now rewrite orb_true_r.
Qed.

Lemma processTemplate_identity_witness :
  processTemplate (js "plain {x} text {12") (Some (js "selected"))
  = js "plain {x} text {12".
Proof.
  apply processTemplate_identity. right. right.
  intros H. apply hasPlaceholders_contains in H. vm_compute in H. discriminate H.
Defined.

Lemma match_all_occurs (text p : jsstring) (skip : nat) :
  In p (match_all skip text) -> occurs p text.
Proof.
  revert skip. induction text as [|c text IH]; intros skip; [intros []|].
  assert (Hstep : forall n, In p (match_all n text) -> occurs p (c :: text)).
  { intros n H. destruct (IH n H) as (pre & post & ->).
    now exists (c :: pre), post. }
  cbn [match_all]. destruct skip as [|n]; [|apply Hstep].
  destruct (match_token (c :: text)) as [tok|] eqn:Htok; [|apply Hstep].
  intros [<-|H]; [|now apply Hstep in H].
  apply match_token_some in Htok as (ds & post & _ & _ & _ & Hs).
  now exists [], post.
Qed.


(** C9.  The selected text is handed to [replace] as a replacement
    pattern: a selection with dollar signs does not arrive as it was
    selected. *)
Theorem processTemplate_dollar_patterns :
  replacement_for 1 (selected_lines (js "$$x^2$$")) = js "$$x^2$$"
  /\ processTemplate (js "**{1}**") (Some (js "$$x^2$$")) = js "**$x^2$**"
  /\ processTemplate (js "a{1}b") (Some (js "[$&|$`|$']")) = js "a[{1}|a|b]b".
Proof. repeat split; vm_compute; reflexivity. Qed.



(** ** Objects *)

Lemma get_own_delete_same (o : JSObject.t) (k : jsstring) :
  JSObject.get_own (JSObject.delete o k) k = None.
Proof.
  unfold JSObject.delete. induction o as [|[k' v] o IH]; [reflexivity|].
  cbn [filter fst]. destruct (jseq k' k) eqn:E; cbn [negb]; [exact IH|].
  cbn [JSObject.get_own]. now rewrite E.
Qed.

Lemma get_own_delete_other (o : JSObject.t) (k k' : jsstring) :
  k' <> k ->
  JSObject.get_own (JSObject.delete o k) k' = JSObject.get_own o k'.
Proof.
  intros Hne. unfold JSObject.delete.
  induction o as [|[k0 v] o IH]; [reflexivity|].
  cbn [filter fst JSObject.get_own].
  destruct (jseq k0 k) eqn:E; cbn [negb].
  - apply jseq_eq in E. subst k0.
    assert (jseq k k' = false) as -> by (apply jseq_neq; congruence).
    exact IH.
  - cbn [JSObject.get_own]. now rewrite IH.
Qed.

Lemma get_own_app_new (o : JSObject.t) (k v : jsstring) :
  JSObject.get_own o k = None ->
  JSObject.get_own (o ++ [(k, v)]) k = Some v.
Proof.
  induction o as [|[k' v'] o IH]; cbn [app JSObject.get_own].
  - now rewrite jseq_refl.
  - destruct (jseq k' k); [discriminate|exact IH].
Qed.

Lemma get_own_app_other (o : JSObject.t) (k k' v : jsstring) :
  k' <> k ->
  JSObject.get_own (o ++ [(k, v)]) k' = JSObject.get_own o k'.
Proof.
  intros Hne. induction o as [|[k0 v0] o IH]; cbn [app JSObject.get_own].
  - now assert (jseq k k' = false) as -> by (apply jseq_neq; congruence).
  - now rewrite IH.
Qed.

Lemma get_own_update (o : JSObject.t) (k v : jsstring) :
  JSObject.get_own o k <> None ->
  JSObject.get_own (JSObject.update o k v) k = Some v.
Proof.
  induction o as [|[k' v'] o IH]; cbn [JSObject.get_own JSObject.update];
    [congruence|].
  destruct (jseq k' k) eqn:E; cbn [JSObject.get_own]; rewrite E;
    [reflexivity|exact IH].
Qed.

Lemma keys_update (o : JSObject.t) (k v : jsstring) :
  JSObject.keys (JSObject.update o k v) = JSObject.keys o.
Proof.
  unfold JSObject.keys. induction o as [|[k' v'] o IH]; [reflexivity|].
  cbn [JSObject.update]. destruct (jseq k' k); cbn [map fst]; [reflexivity|].
  now rewrite IH.
Qed.

Lemma keys_delete (o : JSObject.t) (k : jsstring) :
  JSObject.keys (JSObject.delete o k)
  = filter (fun k' => negb (jseq k' k)) (JSObject.keys o).
Proof.
  unfold JSObject.keys, JSObject.delete.
  induction o as [|[k' v] o IH]; [reflexivity|].
  cbn [filter map fst]. destruct (jseq k' k); cbn [negb map fst]; now rewrite IH.
Qed.

(** Creating a property whose key is not an array index appends it. *)
Lemma set_new_plain (o : JSObject.t) (k v : jsstring) :
  JSObject.get_own o k = None ->
  jseq k JSObject.PROTO = false ->
  JSObject.array_index k = None ->
  JSObject.set o k v = o ++ [(k, v)].
Proof. intros H1 H2 H3. unfold JSObject.set. now rewrite H1, H2, H3. Qed.

Lemma get_own_set_plain (o : JSObject.t) (k v : jsstring) :
  jseq k JSObject.PROTO = false ->
  JSObject.array_index k = None ->
  JSObject.get_own (JSObject.set o k v) k = Some v.
Proof.
  intros H2 H3. unfold JSObject.set.
  destruct (JSObject.get_own o k) eqn:H1.
  - apply get_own_update. congruence.
  - rewrite H2, H3. now apply get_own_app_new.
Qed.

(** *** The enumeration order is kept by every write *)

Lemma array_index_decimal (k : jsstring) (i : N) :
  JSObject.array_index k = Some i -> k = decimal i.
Proof.
  unfold JSObject.array_index.
  destruct (negb (is_empty k) && forallb is_digit k
            && jseq (decimal (parseInt k)) k && (parseInt k <? 4294967295))
    eqn:E; [|discriminate].
  intros [= <-].
  apply andb_true_iff in E as [E _]. apply andb_true_iff in E as [_ E].
  apply jseq_eq in E. congruence.
Qed.

Lemma array_index_inj (k k' : jsstring) (i : N) :
  JSObject.array_index k = Some i -> JSObject.array_index k' = Some i -> k = k'.
Proof.
  intros H H'. apply array_index_decimal in H, H'. congruence.
Qed.

Lemma no_index_ordered (lo : N) (o : JSObject.t) :
  JSObject.no_index o = true -> JSObject.ordered_from lo o = true.
Proof.
  unfold JSObject.no_index. destruct o as [|[k v] o]; [reflexivity|].
  cbn [forallb fst JSObject.ordered_from].
  destruct (JSObject.array_index k); [discriminate|]. now rewrite andb_true_l.
Qed.

Lemma ordered_from_weaken (lo lo' : N) (o : JSObject.t) :
  lo' <= lo ->
  JSObject.ordered_from lo o = true -> JSObject.ordered_from lo' o = true.
Proof.
  intros Hle. destruct o as [|[k v] o]; [reflexivity|].
  cbn [JSObject.ordered_from]. destruct (JSObject.array_index k) as [i|]; [|easy].
  intros H. apply andb_true_iff in H as [Hi Ho]. apply N.leb_le in Hi.
  rewrite Ho, andb_true_r. apply N.leb_le. lia.
Qed.

Lemma no_index_delete (o : JSObject.t) (k : jsstring) :
  JSObject.no_index o = true -> JSObject.no_index (JSObject.delete o k) = true.
Proof.
  unfold JSObject.no_index, JSObject.delete.
  induction o as [|e o IH]; [reflexivity|].
  cbn [forallb filter]. intros H. apply andb_true_iff in H as [He Ho].
  destruct (negb (jseq (fst e) k)); [|now apply IH].
  cbn [forallb]. now rewrite He, (IH Ho).
Qed.

Lemma ordered_from_delete (lo : N) (o : JSObject.t) (k : jsstring) :
  JSObject.ordered_from lo o = true ->
  JSObject.ordered_from lo (JSObject.delete o k) = true.
Proof.
  revert lo. induction o as [|[k' v'] o IH]; intros lo; [reflexivity|].
  unfold JSObject.delete. cbn [filter fst JSObject.ordered_from].
  fold (JSObject.delete o k).
  destruct (JSObject.array_index k') as [i|] eqn:Hi.
  - intros H. apply andb_true_iff in H as [Hlo Ho].
    destruct (negb (jseq k' k)).
    + cbn [JSObject.ordered_from]. now rewrite Hi, Hlo, (IH _ Ho).
    + apply (ordered_from_weaken (i + 1)); [|now apply IH].
      apply N.leb_le in Hlo. lia.
  - intros H. destruct (negb (jseq k' k)).
    + cbn [JSObject.ordered_from]. rewrite Hi. now apply no_index_delete.
    + apply no_index_ordered. now apply no_index_delete.
Qed.

Lemma no_index_update (o : JSObject.t) (k v : jsstring) :
  JSObject.no_index (JSObject.update o k v) = JSObject.no_index o.
Proof.
  unfold JSObject.no_index. induction o as [|[k' v'] o IH]; [reflexivity|].
  cbn [JSObject.update]. destruct (jseq k' k); cbn [forallb fst];
    [reflexivity|now rewrite IH].
Qed.

Lemma ordered_from_update (lo : N) (o : JSObject.t) (k v : jsstring) :
  JSObject.ordered_from lo (JSObject.update o k v) = JSObject.ordered_from lo o.
Proof.
  revert lo. induction o as [|[k' v'] o IH]; intros lo; [reflexivity|].
  cbn [JSObject.update]. destruct (jseq k' k); cbn [JSObject.ordered_from];
    [reflexivity|].
  destruct (JSObject.array_index k'); [now rewrite IH|apply no_index_update].
Qed.

Lemma no_index_app (o : JSObject.t) (k v : jsstring) :
  JSObject.array_index k = None ->
  JSObject.no_index o = true -> JSObject.no_index (o ++ [(k, v)]) = true.
Proof.
  intros Hk. unfold JSObject.no_index. rewrite forallb_app. intros ->.
  cbn [forallb fst]. now rewrite Hk.
Qed.

Lemma ordered_from_app (lo : N) (o : JSObject.t) (k v : jsstring) :
  JSObject.array_index k = None ->
  JSObject.ordered_from lo o = true ->
  JSObject.ordered_from lo (o ++ [(k, v)]) = true.
Proof.
  intros Hk. revert lo. induction o as [|[k' v'] o IH]; intros lo.
  - cbn [app JSObject.ordered_from]. now rewrite Hk.
  - cbn [app JSObject.ordered_from].
    destruct (JSObject.array_index k') as [i|].
    + intros H. apply andb_true_iff in H as [Hlo Ho].
      now rewrite Hlo, (IH _ Ho).
    + now apply no_index_app.
Qed.

Lemma ordered_from_insert (lo i : N) (o : JSObject.t) (k v : jsstring) :
  JSObject.array_index k = Some i ->
  JSObject.get_own o k = None ->
  lo <= i ->
  JSObject.ordered_from lo o = true ->
  JSObject.ordered_from lo (JSObject.insert_index i k v o) = true.
Proof.
  intros Hk. revert lo. induction o as [|[k' v'] o IH]; intros lo Hown Hlo.
  - intros _. cbn [JSObject.insert_index JSObject.ordered_from].
    rewrite Hk. apply andb_true_iff. split; [now apply N.leb_le|reflexivity].
  - cbn [JSObject.get_own] in Hown.
    destruct (jseq k' k) eqn:Hkk; [discriminate|].
    cbn [JSObject.insert_index JSObject.ordered_from].
    destruct (JSObject.array_index k') as [j|] eqn:Hj.
    + intros H. apply andb_true_iff in H as [Hloj Ho]. apply N.leb_le in Hloj.
      destruct (N.ltb_spec j i) as [Hlt|Hge].
      * cbn [JSObject.ordered_from]. rewrite Hj.
        apply andb_true_iff. split; [now apply N.leb_le|].
        apply IH; [exact Hown|lia|exact Ho].
      * assert (j <> i) as Hne.
        { intros ->. apply jseq_neq in Hkk. apply Hkk.
          now apply (array_index_inj k' k i). }
        cbn [JSObject.ordered_from]. rewrite Hk, Hj, Ho.
        repeat (apply andb_true_iff; split); try reflexivity;
          apply N.leb_le; lia.
    + intros H. cbn [JSObject.ordered_from]. rewrite Hk, Hj, H.
      apply andb_true_iff. split; [now apply N.leb_le|reflexivity].
Qed.

(** Assignment and deletion keep the properties in enumeration order. *)
Lemma ordered_set (o : JSObject.t) (k v : jsstring) :
  JSObject.ordered o = true -> JSObject.ordered (JSObject.set o k v) = true.
Proof.
  unfold JSObject.ordered, JSObject.set. intros H.
  destruct (JSObject.get_own o k) eqn:Hown.
  - now rewrite ordered_from_update.
  - destruct (jseq k JSObject.PROTO); [exact H|].
    destruct (JSObject.array_index k) as [i|] eqn:Hk.
    + apply (ordered_from_insert 0 i o k v Hk Hown); [lia|exact H].
    + now apply ordered_from_app.
Qed.

Lemma ordered_delete (o : JSObject.t) (k : jsstring) :
  JSObject.ordered o = true -> JSObject.ordered (JSObject.delete o k) = true.
Proof. apply ordered_from_delete. Qed.

Lemma not_inherited_not_proto (k : jsstring) :
  JSObject.inherited k = false -> jseq k JSObject.PROTO = false.
Proof.
  unfold JSObject.inherited, JSObject.prototype_names, set_has.
  cbn [existsb]. intros H.
  repeat (apply orb_false_iff in H as [? H]); assumption.
Qed.

Lemma get_undefined (o : JSObject.t) (k : jsstring) :
  JSObject.get o k = JSObject.Undefined ->
  JSObject.get_own o k = None /\ JSObject.inherited k = false.
Proof.
  unfold JSObject.get. destruct (JSObject.get_own o k); [discriminate|].
  destruct (JSObject.inherited k); [discriminate|]. now split.
Qed.

Lemma validateKey_valid_nonempty (key : jsstring) :
  isValid (validateKey key) = true -> is_empty key = false.
Proof. destruct key; [discriminate|reflexivity]. Qed.

(** ** The handlers *)

(** Whatever ends otherwise than in [Done] has written nothing. *)
Lemma handleAddSnippet_atomic (settings : Settings) (key value : jsstring) :
  fst (handleAddSnippet settings key value) <> Done ->
  snd (handleAddSnippet settings key value) = settings.
Proof.
  unfold handleAddSnippet.
  destruct (is_empty key || is_empty value); [reflexivity|].
  destruct (negb (isValid (validateKey key))); [reflexivity|].
  destruct (JSObject.truthy _); [reflexivity|].
  cbn [fst]. congruence.
Qed.

Lemma handleSave_atomic (settings : Settings)
    (originalKey key value icon group : jsstring) :
  fst (handleSave settings originalKey key value icon group) <> Done ->
  snd (handleSave settings originalKey key value icon group) = settings.
Proof.
  unfold handleSave.
  destruct (is_empty key || is_empty value); [reflexivity|].
  destruct (negb (jseq key originalKey)); [|cbn [fst]; congruence].
  destruct (negb (isValid (validateKey key))); [reflexivity|].
  destruct (JSObject.truthy _); [reflexivity|].
  cbn [fst]. congruence.
Qed.

Lemma handleAddSnippet_ordered (settings : Settings) (key value : jsstring) :
  settings_ordered settings ->
  settings_ordered (snd (handleAddSnippet settings key value)).
Proof.
  intros H. unfold handleAddSnippet.
  destruct (is_empty key || is_empty value); [exact H|].
  destruct (negb (isValid (validateKey key))); [exact H|].
  destruct (JSObject.truthy _); [exact H|].
  destruct H as (Hs & Hi & Hg). unfold settings_ordered, addNewSnippet.
  cbn [snd snippets icons groups JSObject.spread].
  repeat split; apply ordered_set; assumption.
Qed.

Lemma handleSave_ordered (settings : Settings)
    (originalKey key value icon group : jsstring) :
  settings_ordered settings ->
  settings_ordered
    (snd (handleSave settings originalKey key value icon group)).
Proof.
  intros H.
  assert (Hcommit : settings_ordered
    {| snippets := JSObject.set
                     (JSObject.delete (snippets settings) originalKey) key value;
       icons := Some (JSObject.set
                        (JSObject.delete (JSObject.spread (icons settings))
                           originalKey) key icon);
       groups := Some (JSObject.set
                         (JSObject.delete (JSObject.spread (groups settings))
                            originalKey) key group) |}).
  { destruct H as (Hs & Hi & Hg). unfold settings_ordered.
    cbn [snippets icons groups JSObject.spread].
    repeat split; apply ordered_set, ordered_delete; assumption. }
  unfold handleSave.
  destruct (is_empty key || is_empty value); [exact H|].
  destruct (negb (jseq key originalKey)); [|exact Hcommit].
  destruct (negb (isValid (validateKey key))); [exact H|].
  destruct (JSObject.truthy _); [exact H|exact Hcommit].
Qed.

Lemma handleDeleteSnippet_ordered (settings : Settings) (key : jsstring) :
  settings_ordered settings ->
  settings_ordered (handleDeleteSnippet settings key).
Proof.
  intros (Hs & Hi & Hg). unfold settings_ordered, handleDeleteSnippet.
  cbn [snippets icons groups]. repeat split.
  - now apply ordered_delete.
  - destruct (icons settings) as [o|]; [|reflexivity].
    destruct (JSObject.truthy _); cbn [JSObject.spread] in *;
      [now apply ordered_delete|assumption].
  - destruct (groups settings) as [o|]; [|reflexivity].
    destruct (JSObject.truthy _); cbn [JSObject.spread] in *;
      [now apply ordered_delete|assumption].
Qed.

Lemma DEFAULT_SETTINGS_ordered : settings_ordered DEFAULT_SETTINGS.
Proof. repeat split. Qed.

(** The overwrite that follows a confirmed duplicate writes the text in
    place: the order of the keys stays as it was. *)
Lemma replaceSnippet_keeps_order (settings : Settings) (key value text : jsstring) :
  JSObject.get_own (snippets settings) key = Some text ->
  JSObject.keys (snippets (replaceSnippet settings key value))
  = JSObject.keys (snippets settings).
Proof.
  intros H. unfold replaceSnippet, JSObject.set. cbn [snippets].
  rewrite H. apply keys_update.
Qed.

(** A group (or icon) entry that holds the empty string survives the
    deletion of its key: the guard tests the value, not the presence. *)
Lemma handleDeleteSnippet_keeps_empty_group (settings : Settings)
    (key : jsstring) (gr : JSObject.t) :
  groups settings = Some gr ->
  JSObject.get_own gr key = Some [] ->
  groups (handleDeleteSnippet settings key) = Some gr.
Proof.
  intros Hg Hk. unfold handleDeleteSnippet. cbn [groups]. rewrite Hg.
  unfold JSObject.get. now rewrite Hk.
Qed.

(** C3.  The code moves the record.  The first of the two default
    snippets, saved under its own key with a new text, is the second
    afterwards: [handleSave] removes the key and creates it again although
    the key did not change.  The overwrite of the add form,
    [replaceSnippet], writes the same text in place. *)
Theorem handleSave_same_key_moves_record :
  JSObject.keys (snippets DEFAULT_SETTINGS) = [js "hello"; js "greet"]
  /\ handleSave DEFAULT_SETTINGS (js "hello") (js "hello")
       (js "Hi") (js "stamp") []
     = (Done,
        {| snippets := [ (js "greet", js "Hello {1} (from Insertive)");
                         (js "hello", js "Hi") ];
           icons := Some [ (js "greet", js "hand"); (js "hello", js "stamp") ];
           groups := Some [ (js "greet", []); (js "hello", []) ] |})
  /\ JSObject.keys
       (snippets (snd (handleSave DEFAULT_SETTINGS (js "hello") (js "hello")
                         (js "Hi") (js "stamp") [])))
     = [js "greet"; js "hello"]
  /\ snippets (replaceSnippet DEFAULT_SETTINGS (js "hello") (js "Hi"))
     = [ (js "hello", js "Hi");
         (js "greet", js "Hello {1} (from Insertive)") ].
Proof. repeat split; vm_compute; reflexivity. Qed.

(** C4.  Deleting a default snippet leaves its entry in [groups]: the
    group is the empty string, which the guard before the [delete] takes for
    a missing entry. *)
Theorem handleDeleteSnippet_leaves_group :
  JSObject.keys (snippets (handleDeleteSnippet DEFAULT_SETTINGS (js "hello")))
  = [js "greet"]
  /\ icons (handleDeleteSnippet DEFAULT_SETTINGS (js "hello"))
     = Some [ (js "greet", js "hand") ]
  /\ groups (handleDeleteSnippet DEFAULT_SETTINGS (js "hello"))
     = Some [ (js "hello", []); (js "greet", []) ].
Proof. repeat split; vm_compute; reflexivity. Qed.

(** C5, as the code has it.  Adding a valid key that the snippets object
    does not answer to, with a text, creates the record with the default
    icon and no group; the new key comes last in the order unless it is an
    array index, and the records that were there are untouched. *)
Theorem handleAddSnippet_appends (settings : Settings) (key value : jsstring) :
  isValid (validateKey key) = true ->
  is_empty value = false ->
  JSObject.get (snippets settings) key = JSObject.Undefined ->
  JSObject.array_index key = None ->
  handleAddSnippet settings key value
  = (Done,
     {| snippets := snippets settings ++ [(key, value)];
        icons := Some (JSObject.set (JSObject.spread (icons settings)) key
                         DEFAULT_ICON);
        groups := Some (JSObject.set (JSObject.spread (groups settings)) key []) |})
  /\ JSObject.keys (snippets (snd (handleAddSnippet settings key value)))
     = JSObject.keys (snippets settings) ++ [key]
  /\ JSObject.get_own
       (JSObject.set (JSObject.spread (icons settings)) key DEFAULT_ICON) key
     = Some DEFAULT_ICON
  /\ JSObject.get_own
       (JSObject.set (JSObject.spread (groups settings)) key []) key
     = Some [].
Proof.
  intros Hvalid Hv Hget Hidx.
  destruct (get_undefined _ _ Hget) as [Hown Hinh].
  pose proof (not_inherited_not_proto key Hinh) as Hproto.
  assert (E : handleAddSnippet settings key value
    = (Done,
       {| snippets := snippets settings ++ [(key, value)];
          icons := Some (JSObject.set (JSObject.spread (icons settings)) key
                           DEFAULT_ICON);
          groups := Some (JSObject.set (JSObject.spread (groups settings)) key []) |})).
  { unfold handleAddSnippet.
    rewrite (validateKey_valid_nonempty key Hvalid), Hv, Hvalid, Hget.
    cbn [orb negb JSObject.truthy]. unfold addNewSnippet.
    rewrite (set_new_plain _ _ _ Hown Hproto Hidx).
    now destruct (icons settings), (groups settings). }
  rewrite E. cbn [snd snippets]. repeat split.
  - unfold JSObject.keys. now rewrite map_app.
  - now apply get_own_set_plain.
  - now apply get_own_set_plain.
Qed.

Lemma handleAddSnippet_appends_witness :
  handleAddSnippet DEFAULT_SETTINGS (js "email-intro") (js "Dear {1},")
  = (Done,
     {| snippets := [ (js "hello", js "_Hello World_");
                      (js "greet", js "Hello {1} (from Insertive)");
                      (js "email-intro", js "Dear {1},") ];
        icons := Some [ (js "hello", js "stamp"); (js "greet", js "hand");
                        (js "email-intro", js "stamp") ];
        groups := Some [ (js "hello", []); (js "greet", []);
                         (js "email-intro", []) ] |}).
Proof.
  exact (proj1 (handleAddSnippet_appends DEFAULT_SETTINGS (js "email-intro")
                  (js "Dear {1},") eq_refl eq_refl eq_refl eq_refl)).
Defined.

(** C5, as stated, fails: the key "1" is valid and new, and after the add it
    is the first key of the order, not the last. *)
Lemma handleAddSnippet_index_key_first :
  isValid (validateKey (js "1")) = true
  /\ JSObject.get (snippets DEFAULT_SETTINGS) (js "1") = JSObject.Undefined
  /\ fst (handleAddSnippet DEFAULT_SETTINGS (js "1") (js "one")) = Done
  /\ JSObject.keys
       (snippets (snd (handleAddSnippet DEFAULT_SETTINGS (js "1") (js "one"))))
     = [js "1"; js "hello"; js "greet"].
Proof. repeat split; vm_compute; reflexivity. Qed.

(** C6, as the code has it.  With a key and a text given, a key that the
    validator rejects ends in [InvalidKey] with the validator's message, and
    a valid key that is present with a text ends in [DuplicateKey]; without a
    key or without a text the add ends in [MissingInput].  None of these
    changes the settings. *)
Theorem handleAddSnippet_failures (settings : Settings)
    (key value text : jsstring) :
  (is_empty key || is_empty value = true ->
     handleAddSnippet settings key value = (MissingInput, settings))
  /\ (is_empty key = false -> is_empty value = false ->
      isValid (validateKey key) = false ->
      handleAddSnippet settings key value
      = (InvalidKey (message (validateKey key)), settings))
  /\ (is_empty value = false ->
      isValid (validateKey key) = true ->
      JSObject.get_own (snippets settings) key = Some text ->
      is_empty text = false ->
      handleAddSnippet settings key value = (DuplicateKey, settings))
  /\ (fst (handleAddSnippet settings key value) <> Done ->
      snd (handleAddSnippet settings key value) = settings).
Proof.
  repeat split.
  - intros H. unfold handleAddSnippet. now rewrite H.
  - intros Hk Hv Hinv. unfold handleAddSnippet. now rewrite Hk, Hv, Hinv.
  - intros Hv Hvalid Hown Htext. unfold handleAddSnippet.
    rewrite (validateKey_valid_nonempty key Hvalid), Hv, Hvalid.
    unfold JSObject.get. rewrite Hown. cbn [orb negb JSObject.truthy].
    now rewrite Htext.
  - apply handleAddSnippet_atomic.
Qed.

Lemma handleAddSnippet_failures_witness :
  handleAddSnippet DEFAULT_SETTINGS (js "a b") (js "text")
  = (InvalidKey MSG_SPACES, DEFAULT_SETTINGS)
  /\ handleAddSnippet DEFAULT_SETTINGS (js "hello") (js "text")
     = (DuplicateKey, DEFAULT_SETTINGS).
Proof.
  split.
  - exact (proj1 (proj2 (handleAddSnippet_failures DEFAULT_SETTINGS (js "a b")
                           (js "text") []))
             eq_refl eq_refl eq_refl).
  - exact (proj1 (proj2 (proj2 (handleAddSnippet_failures DEFAULT_SETTINGS
                                  (js "hello") (js "text") (js "_Hello World_"))))
             eq_refl eq_refl eq_refl eq_refl).
Defined.

(** C6, as stated, fails: for a key that is present, an add without text
    ends in [MissingInput], not in [DuplicateKey]; and a key that is present
    with an empty text is taken for a new one and written over. *)
Lemma handleAddSnippet_taken_key_not_duplicate :
  handleAddSnippet DEFAULT_SETTINGS (js "hello") []
  = (MissingInput, DEFAULT_SETTINGS)
  /\ handleAddSnippet
       {| snippets := [ (js "draft", []) ];
          icons := Some [ (js "draft", js "hand") ];
          groups := Some [ (js "draft", js "Work") ] |}
       (js "draft") (js "text")
     = (Done,
        {| snippets := [ (js "draft", js "text") ];
           icons := Some [ (js "draft", js "stamp") ];
           groups := Some [ (js "draft", []) ] |}).
Proof. split; vm_compute; reflexivity. Qed.

(** ** Numbers and their decimal spelling *)

Lemma uint_units_digits (u : Decimal.uint) :
  forallb is_digit (uint_units u) = true.
Proof. induction u; cbn [uint_units forallb]; [reflexivity|..]; now rewrite IHu. Qed.

Lemma units_uint_units (u : Decimal.uint) : units_uint (uint_units u) = u.
Proof. induction u; cbn [uint_units units_uint]; [reflexivity|..]; now rewrite IHu. Qed.

Lemma digit_cases (c : char16) :
  is_digit c = true ->
  c = 48 \/ c = 49 \/ c = 50 \/ c = 51 \/ c = 52 \/ c = 53 \/ c = 54
  \/ c = 55 \/ c = 56 \/ c = 57.
Proof.
  unfold is_digit, in_range. intros H.
  apply andb_true_iff in H as [H1 H2].
  apply N.leb_le in H1, H2. lia.
Qed.

Lemma uint_units_uint (ds : jsstring) :
  forallb is_digit ds = true -> uint_units (units_uint ds) = ds.
Proof.
  induction ds as [|c ds IH]; [reflexivity|].
  cbn [forallb]. intros H. apply andb_true_iff in H as [Hc Hds].
  cbn [units_uint].
  destruct (digit_cases c Hc) as [->|[->|[->|[->|[->|[->|[->|[->|[->| ->]]]]]]]]];
    cbn [N.eqb Pos.eqb uint_units]; now rewrite (IH Hds).
Qed.

Lemma span_digits_all (ds : jsstring) :
  forallb is_digit ds = true -> span_digits ds = (ds, []).
Proof.
  intros H. pose proof (span_digits_app ds [] H I) as E.
  now rewrite app_nil_r in E.
Qed.

Lemma parse_units_acc (u : Decimal.uint) (acc : N) :
  fold_left (fun a c => 10 * a + (c - 48)) (uint_units u) acc
  = DecimalPos.Unsigned.of_lu (Decimal.rev u)
    + acc * 10 ^ DecimalPos.Unsigned.usize u.
Proof.
  revert acc.
  induction u; intros acc; cbn [uint_units fold_left DecimalPos.Unsigned.usize];
    [cbn; lia|..];
    rewrite IHu;
    set (r := DecimalPos.Unsigned.of_lu (Decimal.rev u));
    unfold Decimal.rev; cbn [Decimal.revapp];
    rewrite DecimalPos.Unsigned.of_lu_revapp;
    fold (Decimal.rev u); fold r;
    cbn [DecimalPos.Unsigned.of_lu];
    rewrite N.pow_succ_r';
    generalize (10 ^ DecimalPos.Unsigned.usize u); intros q;
    cbn [N.sub Pos.sub Pos.sub_mask Pos.pred_double Pos.double_mask
         Pos.succ_double_mask Pos.double_pred_mask];
    ring.
Qed.

Lemma parseInt_units (u : Decimal.uint) : parseInt (uint_units u) = N.of_uint u.
Proof.
  unfold parseInt. rewrite (span_digits_all _ (uint_units_digits u)).
  cbn [fst]. rewrite parse_units_acc.
  unfold N.of_uint. rewrite DecimalPos.Unsigned.of_uint_alt. lia.
Qed.

(** Printing a number and reading it back gives the number. *)
Lemma parseInt_decimal (n : N) : parseInt (decimal n) = n.
Proof.
  unfold decimal. rewrite parseInt_units. apply DecimalN.Unsigned.of_to.
Qed.

Lemma decimal_nonempty (n : N) : exists d ds, decimal n = d :: ds.
Proof.
  unfold decimal. destruct (uint_units (N.to_uint n)) as [|d ds] eqn:E.
  - exfalso. pose proof (units_uint_units (N.to_uint n)) as H.
    rewrite E in H. cbn [units_uint] in H.
    destruct n as [|q]; [discriminate|].
    apply (DecimalPos.Unsigned.to_uint_nonnil q). now symmetry.
  - now exists d, ds.
Qed.

Lemma decimal_digits (n : N) : forallb is_digit (decimal n) = true.
Proof. apply uint_units_digits. Qed.

Lemma parseInt_digits (ds : jsstring) :
  forallb is_digit ds = true -> parseInt ds = N.of_uint (units_uint ds).
Proof.
  intros H. rewrite <- (uint_units_uint ds H) at 1. apply parseInt_units.
Qed.

(** Reading a digit string and printing the number drops the leading
    zeros. *)
Lemma decimal_parseInt (ds : jsstring) :
  forallb is_digit ds = true ->
  decimal (parseInt ds) = uint_units (Decimal.unorm (units_uint ds)).
Proof.
  intros H. rewrite (parseInt_digits ds H). unfold decimal.
  now rewrite DecimalN.Unsigned.to_of.
Qed.

Lemma canonical_decimal (n : N) : canonical (decimal n) = true.
Proof. unfold canonical. rewrite parseInt_decimal. apply jseq_refl. Qed.

Lemma canonical_parse (ds : jsstring) (n : N) :
  decimal n = ds -> parseInt ds = n.
Proof. intros <-. apply parseInt_decimal. Qed.

Lemma units_uint_cons_nonnil (c : char16) (s : jsstring) :
  units_uint (c :: s) <> Decimal.Nil.
Proof.
  cbn [units_uint].
  repeat match goal with |- context [if ?b then _ else _] => destruct b end;
    discriminate.
Qed.

(** A digit string is canonical exactly when it has no leading zero, the
    single digit [0] apart. *)
Lemma canonical_leading_zero (c : char16) (ds : jsstring) :
  forallb is_digit (c :: ds) = true ->
  canonical (c :: ds) = negb ((c =? 48) && negb (is_empty ds)).
Proof.
  intros H. unfold canonical. rewrite (decimal_parseInt _ H).
  pose proof H as H'. cbn [forallb] in H'.
  apply andb_true_iff in H' as [Hc Hds].
  destruct (N.eqb_spec c 48) as [->|Hne].
  - destruct ds as [|d ds]; [reflexivity|]. cbn [is_empty negb andb].
    apply jseq_neq. intros E.
    rewrite <- (uint_units_uint (48 :: d :: ds) H) in E at 2.
    apply (f_equal units_uint) in E. rewrite !units_uint_units in E.
    change (units_uint (48 :: d :: ds))
      with (Decimal.D0 (units_uint (d :: ds))) in E.
    rewrite DecimalFacts.unorm_D0 in E. unfold Decimal.unorm in E.
    destruct (Decimal.nzhead (units_uint (d :: ds))) eqn:Hnz;
      try (now apply (DecimalFacts.nzhead_nonzero
                        (units_uint (d :: ds)) (units_uint (d :: ds)));
           rewrite Hnz).
    injection E as E. symmetry in E.
    now apply (units_uint_cons_nonnil d ds).
  - cbn [andb negb]. apply jseq_eq.
    rewrite <- (uint_units_uint (c :: ds) H) at 2. f_equal.
    cbn [units_uint].
    destruct (digit_cases c Hc) as [->|[->|[->|[->|[->|[->|[->|[->|[->| ->]]]]]]]]];
      try (now elim Hne); reflexivity.
Qed.

(** ** The guard and the list of placeholders agree *)

Lemma match_all_nonempty_has (text : jsstring) (skip : nat) :
  match_all skip text <> [] -> hasPlaceholders text = true.
Proof.
  revert skip. induction text as [|c text IH]; intros skip; [now intros []|].
  cbn [match_all hasPlaceholders]. destruct skip as [|n].
  - destruct (match_token (c :: text)); [reflexivity|apply IH].
  - intros H. destruct (match_token (c :: text)); [reflexivity|].
    now apply (IH n).
Qed.

Lemma has_match_all_nonempty (text : jsstring) :
  hasPlaceholders text = true -> match_all 0 text <> [].
Proof.
  induction text as [|c text IH]; [discriminate|].
  cbn [match_all hasPlaceholders].
  destruct (match_token (c :: text)); [discriminate|exact IH].
Qed.

(** X1.  [extractPlaceholders] returns the empty array exactly for the
    texts that [hasPlaceholders] rejects: when the guard of
    [processTemplate] lets a template through, the loop has a token to work
    on. *)
Theorem extractPlaceholders_empty_iff (text : jsstring) :
  (extractPlaceholders text = [] <-> hasPlaceholders text = false)
  /\ (forall p, In p (extractPlaceholders text) ->
        match_token p = Some p /\ occurs p text).
Proof.
  split.
  - split.
    + intros E. destruct (hasPlaceholders text) eqn:H; [|reflexivity].
      apply has_match_all_nonempty in H.
      destruct (match_all 0 text) as [|p l] eqn:Hm; [now elim H|].
      assert (In p (extractPlaceholders text)) as Hin.
      { apply extractPlaceholders_In. rewrite Hm. now left. }
      rewrite E in Hin. destruct Hin.
    + intros H. destruct (extractPlaceholders text) as [|p l] eqn:E;
        [reflexivity|].
      assert (In p (match_all 0 text)) as Hin.
      { apply extractPlaceholders_In. rewrite E. now left. }
      assert (match_all 0 text <> []) as Hne by (intros Hnil; now rewrite Hnil in Hin).
      apply match_all_nonempty_has in Hne. congruence.
  - intros p Hp. apply extractPlaceholders_In in Hp. split.
    + clear -Hp. revert Hp. generalize 0%nat as skip.
      induction text as [|c text IH]; intros skip; [intros []|].
      cbn [match_all]. destruct skip as [|n]; [|apply IH].
      destruct (match_token (c :: text)) as [tok|] eqn:Htok; [|apply IH].
      intros [<-|H]; [|now apply IH in H].
      apply match_token_some in Htok as (ds & post & Hne & Hds & -> & _).
      pose proof (match_token_here ds [] Hne Hds) as E.
      exact E.
    + now apply match_all_occurs in Hp.
Qed.

(** ** Selected lines *)

Lemma trimStart_head_ok (s : jsstring) : head_ok (trimStart s).
Proof.
  induction s as [|c s IH]; [exact I|]. cbn [trimStart].
  destruct (is_whitespace c) eqn:E; [exact IH|exact E].
Qed.

Lemma trimStart_fixed (s : jsstring) : head_ok s -> trimStart s = s.
Proof. destruct s as [|c s]; [reflexivity|]. cbn. now intros ->. Qed.

Lemma trimStart_keeps_last (x : jsstring) (c : char16) :
  is_whitespace c = false -> exists y, trimStart (x ++ [c]) = y ++ [c].
Proof.
  intros Hc. induction x as [|a x IH]; cbn [app trimStart].
  - rewrite Hc. now exists [].
  - destruct (is_whitespace a); [exact IH|now exists (a :: x)].
Qed.

Lemma trim_head_ok (s : jsstring) : head_ok (trim s) /\ head_ok (rev (trim s)).
Proof.
  unfold trim, trimEnd. split.
  - pose proof (trimStart_head_ok s) as H.
    destruct (trimStart s) as [|c t]; [exact I|]. cbn [head_ok] in H.
    cbn [rev]. destruct (trimStart_keeps_last (rev t) c H) as [y ->].
    rewrite rev_app_distr. exact H.
  - rewrite rev_involutive. apply trimStart_head_ok.
Qed.

Lemma trim_fixed (s : jsstring) :
  head_ok s -> head_ok (rev s) -> trim s = s.
Proof.
  intros H1 H2. unfold trim, trimEnd.
  rewrite (trimStart_fixed s H1), (trimStart_fixed (rev s) H2).
  apply rev_involutive.
Qed.

Lemma trim_idempotent (s : jsstring) : trim (trim s) = trim s.
Proof. destruct (trim_head_ok s). now apply trim_fixed. Qed.

Lemma forallb_trimStart (Q : char16 -> bool) (s : jsstring) :
  forallb Q s = true -> forallb Q (trimStart s) = true.
Proof.
  induction s as [|c s IH]; [reflexivity|]. cbn [trimStart]. intros H.
  destruct (is_whitespace c); [|exact H].
  cbn [forallb] in H. apply andb_true_iff in H as [_ H]. now apply IH.
Qed.

Lemma forallb_rev (Q : char16 -> bool) (s : jsstring) :
  forallb Q s = true -> forallb Q (rev s) = true.
Proof.
  intros H. apply forallb_forall. intros c Hc. apply in_rev in Hc.
  now apply (proj1 (forallb_forall Q s) H).
Qed.

Lemma forallb_trim (Q : char16 -> bool) (s : jsstring) :
  forallb Q s = true -> forallb Q (trim s) = true.
Proof.
  intros H. unfold trim, trimEnd.
  now apply forallb_rev, forallb_trimStart, forallb_rev, forallb_trimStart.
Qed.

Lemma split_parts (Q : char16 -> bool) (sep : char16) (s : jsstring) :
  forallb Q s = true ->
  Forall (fun part => forallb Q part = true /\ includes sep part = false)
    (split sep s).
Proof.
  unfold includes. induction s as [|c s IH]; intros H.
  - repeat constructor.
  - cbn [forallb] in H. apply andb_true_iff in H as [Hc Hs].
    specialize (IH Hs). cbn [split].
    destruct (N.eqb_spec c sep) as [E|E].
    + constructor; [now split|exact IH].
    + destruct (split sep s) as [|l ls]; [repeat constructor|].
      * cbn [forallb]. now rewrite Hc.
      * cbn [existsb]. rewrite orb_false_r. apply N.eqb_neq. congruence.
      * inversion IH as [|? ? [Hl1 Hl2] Hls]; subst.
        constructor; [|exact Hls]. split.
        -- cbn [forallb]. now rewrite Hc, Hl1.
        -- cbn [existsb]. rewrite Hl2, orb_false_r.
           apply N.eqb_neq. congruence.
Qed.

Lemma includes_forallb (c : char16) (s : jsstring) :
  includes c s = false <-> forallb (fun x => negb (c =? x)) s = true.
Proof.
  unfold includes. induction s as [|x s IH]; cbn [existsb forallb]; [easy|].
  rewrite orb_false_iff, andb_true_iff, negb_true_iff. tauto.
Qed.

Lemma selected_lines_spec (selectedText : jsstring) (Q : char16 -> bool) :
  Forall (fun line =>
            line <> [] /\ trim line = line /\ includes LF line = false
            /\ (forallb Q selectedText = true -> forallb Q line = true))
    (selected_lines selectedText).
Proof.
  unfold selected_lines. apply Forall_forall. intros line Hin.
  apply filter_In in Hin as [Hin Hlen].
  apply in_map_iff in Hin as (part & <- & Hpart).
  repeat split.
  - intros E. rewrite E in Hlen. discriminate.
  - apply trim_idempotent.
  - pose proof (split_parts (fun _ => true) LF selectedText) as Hs.
    assert (forallb (fun _ : char16 => true) selectedText = true) as Ht
      by (now apply forallb_forall).
    specialize (Hs Ht). rewrite Forall_forall in Hs.
    destruct (Hs part Hpart) as [_ Hlf].
    apply includes_forallb. apply forallb_trim. now apply includes_forallb.
  - intros HQ. apply forallb_trim.
    pose proof (split_parts Q LF selectedText HQ) as Hs.
    rewrite Forall_forall in Hs. now destruct (Hs part Hpart).
Qed.

(** X2.  Every line handed to the substitution is a line of the
    selection with the whitespace at both ends removed: it is not empty, it
    neither starts nor ends with whitespace (trimming it again changes
    nothing), it holds no line feed, and every code unit of it is one of the
    selection. *)
Theorem selected_lines_trimmed (selectedText : jsstring) (Q : char16 -> bool) :
  Forall (fun line =>
            line <> [] /\ trim line = line /\ includes LF line = false
            /\ (forallb Q selectedText = true -> forallb Q line = true))
    (selected_lines selectedText).
Proof. apply selected_lines_spec. Qed.

(** ** Substitution on templates in ordinary use *)

Lemma token_text_app (ds rest : jsstring) :
  token_text ds ++ rest = LBRACE :: ds ++ RBRACE :: rest.
Proof. unfold token_text. cbn [app]. now rewrite <- app_assoc. Qed.

Lemma match_all_skip (t rest : jsstring) :
  match_all (length t) (t ++ rest) = match_all 0 rest.
Proof. induction t as [|c t IH]; [reflexivity|exact IH]. Qed.

Lemma match_all_token (ds rest : jsstring) :
  ds <> [] -> forallb is_digit ds = true ->
  match_all 0 (token_text ds ++ rest) = token_text ds :: match_all 0 rest.
Proof.
  intros Hne Hds. rewrite token_text_app. cbn [match_all].
  rewrite (match_token_here ds rest Hne Hds). f_equal.
  cbn [length Nat.sub]. rewrite Nat.sub_0_r.
  change (ds ++ RBRACE :: rest) with (ds ++ [RBRACE] ++ rest).
  rewrite app_assoc. apply match_all_skip.
Qed.

Lemma match_all_render (ps : list piece) :
  Forall piece_ok ps -> match_all 0 (render ps) = piece_tokens ps.
Proof.
  induction ps as [|[s|ds] ps IH]; intros H; [reflexivity|..];
    inversion H as [|? ? Hp Hps]; subst; cbn [render piece_tokens flat_map app].
  - rewrite (match_all_brace_free s _ Hp). now apply IH.
  - destruct Hp as (Hne & Hds & _).
    rewrite (match_all_token ds _ Hne Hds). f_equal. now apply IH.
Qed.

Lemma starts_with_digits (ds1 ds2 rest : jsstring) :
  forallb is_digit ds1 = true -> forallb is_digit ds2 = true ->
  starts_with (ds1 ++ [RBRACE]) (ds2 ++ RBRACE :: rest) = jseq ds1 ds2.
Proof.
  revert ds2. induction ds1 as [|d1 ds1 IH]; intros [|d2 ds2] H1 H2;
    cbn [app starts_with jseq forallb] in *.
  - now rewrite N.eqb_refl.
  - apply andb_true_iff in H2 as [H2 _].
    destruct (N.eqb_spec RBRACE d2) as [<-|]; [|reflexivity].
    rewrite rbrace_not_digit in H2. discriminate.
  - apply andb_true_iff in H1 as [H1 _].
    destruct (N.eqb_spec d1 RBRACE) as [->|]; [|reflexivity].
    rewrite rbrace_not_digit in H1. discriminate.
  - apply andb_true_iff in H1 as [_ H1]. apply andb_true_iff in H2 as [_ H2].
    now rewrite (IH ds2 H1 H2).
Qed.

Lemma digits_brace_free (ds : jsstring) :
  forallb is_digit ds = true -> brace_free (ds ++ [RBRACE]).
Proof.
  unfold brace_free. intros H. rewrite forallb_app. apply andb_true_iff. split.
  - apply forallb_forall. intros c Hc.
    pose proof (proj1 (forallb_forall _ _) H c Hc) as Hd.
    destruct (N.eqb_spec c LBRACE) as [->|]; [|reflexivity].
    rewrite lbrace_not_digit in Hd. discriminate.
  - reflexivity.
Qed.

Lemma replace_render (n : N) (r : jsstring) (ps : list piece) (before : jsstring) :
  Forall piece_ok ps ->
  includes DOLLAR r = false ->
  replace_from (placeholder_pattern n) r 0 before (render ps)
  = render (map (pass_piece n r) ps).
Proof.
  intros Hok Hr. unfold placeholder_pattern.
  destruct (decimal_nonempty n) as (d & dn & Hdec).
  pose proof (decimal_digits n) as Hdig. rewrite Hdec in *.
  revert before.
  induction ps as [|[s|ds] ps IH]; intros before; [reflexivity|..];
    inversion Hok as [|? ? Hp Hps]; subst; cbn [render map pass_piece].
  - change (LBRACE :: (d :: dn) ++ [RBRACE])
      with (LBRACE :: d :: (dn ++ [RBRACE])).
    rewrite (replace_from_brace_free d (dn ++ [RBRACE]) r before s _ Hp).
    cbn [render]. f_equal. now apply IH.
  - destruct Hp as (Hne & Hds & _). rewrite Hdec.
    destruct (jseq (d :: dn) ds) eqn:E.
    + apply jseq_eq in E. subst ds. cbn [render].
      change (token_text (d :: dn)) with (LBRACE :: (d :: dn) ++ [RBRACE]).
      rewrite replace_from_match, (expand_no_dollar r _ _ _ Hr).
      f_equal. now apply IH.
    + cbn [render]. rewrite !token_text_app.
      cbn [replace_from starts_with]. rewrite N.eqb_refl. cbn [andb].
      rewrite (starts_with_digits (d :: dn) ds _ Hdig Hds), E.
      f_equal.
      change (ds ++ RBRACE :: render ps) with (ds ++ [RBRACE] ++ render ps).
      change (ds ++ RBRACE :: render (map (pass_piece n r) ps))
        with (ds ++ [RBRACE] ++ render (map (pass_piece n r) ps)).
      rewrite !app_assoc.
      change (LBRACE :: (d :: dn) ++ [RBRACE])
        with (LBRACE :: d :: (dn ++ [RBRACE])).
      rewrite (replace_from_brace_free d (dn ++ [RBRACE]) r _ _ _
                 (digits_brace_free ds Hds)).
      f_equal. now apply IH.
Qed.

Lemma pass_piece_ok (n : N) (r : jsstring) (ps : list piece) :
  brace_free r -> Forall piece_ok ps -> Forall piece_ok (map (pass_piece n r) ps).
Proof.
  intros Hr H. induction H as [|[s|ds] ps Hp Hps IH]; cbn [map pass_piece];
    constructor; try assumption.
  destruct (jseq (decimal n) ds); [exact Hr|exact Hp].
Qed.

Lemma strip_braces_token (ds : jsstring) :
  forallb is_digit ds = true -> strip_braces (token_text ds) = ds.
Proof.
  intros H. unfold strip_braces, token_text. cbn [filter].
  rewrite N.eqb_refl. cbn [orb negb]. rewrite filter_app. cbn [filter].
  rewrite N.eqb_refl, orb_true_r. cbn [negb]. rewrite app_nil_r.
  induction ds as [|c ds IH]; [reflexivity|].
  cbn [forallb] in H. apply andb_true_iff in H as [Hc Hds].
  cbn [filter].
  destruct (N.eqb_spec c LBRACE) as [->|];
    [rewrite lbrace_not_digit in Hc; discriminate|].
  destruct (N.eqb_spec c RBRACE) as [->|];
    [rewrite rbrace_not_digit in Hc; discriminate|].
  cbn [orb negb]. now rewrite (IH Hds).
Qed.

Lemma replacement_for_line_for (k : N) (lines : list jsstring) :
  replacement_for k lines = line_for k lines.
Proof.
  rewrite replacement_for_no_grouping. unfold line_for.
  destruct (N.eqb_spec k 1) as [->|Hk].
  - destruct lines as [|l lines]; [reflexivity|].
    cbn [andb N.leb N.compare Pos.compare Pos.compare_cont].
    replace (1 <=? N.of_nat (length (l :: lines))) with true; [reflexivity|].
    symmetry. apply N.leb_le. cbn [length]. lia.
  - replace (1 <=? k) with (1 <? k); [reflexivity|].
    destruct (N.ltb_spec 1 k), (N.leb_spec 1 k); try reflexivity; lia.
Qed.

Lemma line_for_Forall (P : jsstring -> Prop) (k : N) (lines : list jsstring) :
  P [] -> Forall P lines -> P (line_for k lines).
Proof.
  intros H0 H. unfold line_for.
  destruct ((1 <=? k) && (k <=? N.of_nat (length lines))); [|exact H0].
  destruct (nth_in_or_default (N.to_nat (k - 1)) lines []) as [Hin| ->];
    [|exact H0].
  now apply (proj1 (Forall_forall P lines) H).
Qed.

(** The passes of the loop, on pieces. *)
Lemma fold_substitute_render (lines : list jsstring) (dss : list jsstring)
    (ps : list piece) :
  Forall (fun l => brace_free l /\ includes DOLLAR l = false) lines ->
  Forall (fun ds => forallb is_digit ds = true) dss ->
  Forall piece_ok ps ->
  fold_left (substitute lines) (map token_text dss) (render ps)
  = render
      (fold_left
         (fun qs ds =>
            map (pass_piece (parseInt ds) (line_for (parseInt ds) lines)) qs)
         dss ps).
Proof.
  intros Hlines Hdss. revert ps.
  induction Hdss as [|ds dss Hds Hdss IH]; intros ps Hps; [reflexivity|].
  cbn [map fold_left].
  assert (Hline : brace_free (line_for (parseInt ds) lines)
                  /\ includes DOLLAR (line_for (parseInt ds) lines) = false).
  { apply line_for_Forall; [now split|exact Hlines]. }
  destruct Hline as [Hbf Hdol].
  replace (substitute lines (render ps) (token_text ds))
    with (render (map (pass_piece (parseInt ds) (line_for (parseInt ds) lines)) ps)).
  - apply IH. now apply pass_piece_ok.
  - unfold substitute, replace_global. rewrite (strip_braces_token ds Hds).
    rewrite replacement_for_line_for. symmetry.
    now apply replace_render.
Qed.

Lemma fold_map_pieces (lines : list jsstring) (dss : list jsstring)
    (ps : list piece) :
  fold_left
    (fun qs ds =>
       map (pass_piece (parseInt ds) (line_for (parseInt ds) lines)) qs) dss ps
  = map (fun p =>
           fold_left
             (fun q ds =>
                pass_piece (parseInt ds) (line_for (parseInt ds) lines) q)
             dss p) ps.
Proof.
  revert ps. induction dss as [|ds dss IH]; intros ps; cbn [fold_left].
  - now rewrite map_id.
  - rewrite IH, map_map. reflexivity.
Qed.

Lemma fold_pass_text (lines : list jsstring) (dss : list jsstring) (s : jsstring) :
  fold_left
    (fun q ds => pass_piece (parseInt ds) (line_for (parseInt ds) lines) q)
    dss (Text s)
  = Text s.
Proof. induction dss as [|ds dss IH]; [reflexivity|exact IH]. Qed.

Lemma fold_pass_token (lines : list jsstring) (dss : list jsstring) (ds : jsstring) :
  fold_left
    (fun q d => pass_piece (parseInt d) (line_for (parseInt d) lines) q)
    dss (Tok ds)
  = if existsb (fun d => jseq (decimal (parseInt d)) ds) dss
    then Text (line_for (parseInt ds) lines) else Tok ds.
Proof.
  induction dss as [|d dss IH]; [reflexivity|].
  cbn [fold_left existsb pass_piece].
  destruct (jseq (decimal (parseInt d)) ds) eqn:E; cbn [orb]; [|exact IH].
  apply jseq_eq in E. rewrite (canonical_parse ds (parseInt d) E).
  apply fold_pass_text.
Qed.

Lemma fold_pass_substituted (lines : list jsstring) (dss : list jsstring)
    (ds : jsstring) :
  In ds dss ->
  fold_left
    (fun q d => pass_piece (parseInt d) (line_for (parseInt d) lines) q)
    dss (Tok ds)
  = substituted lines (Tok ds).
Proof.
  intros Hin. rewrite fold_pass_token. cbn [substituted]. unfold canonical.
  destruct (jseq (decimal (parseInt ds)) ds) eqn:Hc.
  - assert (existsb (fun d => jseq (decimal (parseInt d)) ds) dss = true) as ->;
      [|reflexivity].
    apply existsb_exists. now exists ds.
  - destruct (existsb (fun d => jseq (decimal (parseInt d)) ds) dss) eqn:E;
      [|reflexivity].
    apply existsb_exists in E as (d & _ & Hd). apply jseq_eq in Hd.
    rewrite <- Hd in Hc at 2. rewrite <- Hd in Hc.
    rewrite parseInt_decimal, jseq_refl in Hc. discriminate.
Qed.

Lemma piece_tokens_In (ps : list piece) (p : jsstring) :
  In p (piece_tokens ps) <-> exists ds, In (Tok ds) ps /\ p = token_text ds.
Proof.
  unfold piece_tokens. rewrite in_flat_map. split.
  - intros ([s|ds] & Hin & Hp); [destruct Hp|].
    destruct Hp as [<-|[]]. now exists ds.
  - intros (ds & Hin & ->). exists (Tok ds). split; [exact Hin|now left].
Qed.

Lemma selection_lines_plain (sel : jsstring) :
  includes LBRACE sel = false -> includes DOLLAR sel = false ->
  Forall (fun l => brace_free l /\ includes DOLLAR l = false)
    (selected_lines sel).
Proof.
  intros Hb Hd.
  assert (HQ : forallb (fun c => negb (LBRACE =? c) && negb (DOLLAR =? c)) sel
               = true).
  { apply includes_forallb in Hb, Hd. apply forallb_forall. intros c Hc.
    now rewrite (proj1 (forallb_forall _ _) Hb c Hc),
                (proj1 (forallb_forall _ _) Hd c Hc). }
  pose proof (selected_lines_spec sel
                (fun c => negb (LBRACE =? c) && negb (DOLLAR =? c))) as H.
  rewrite Forall_forall in H.
  apply Forall_forall. intros l Hl. destruct (H l Hl) as (_ & _ & _ & Hq).
  specialize (Hq HQ). split.
  - unfold brace_free. apply forallb_forall. intros c Hc.
    pose proof (proj1 (forallb_forall _ _) Hq c Hc) as E.
    apply andb_true_iff in E as [E _]. now rewrite N.eqb_sym.
  - apply includes_forallb. apply forallb_forall. intros c Hc.
    pose proof (proj1 (forallb_forall _ _) Hq c Hc) as E.
    now apply andb_true_iff in E as [_ E].
Qed.

(** X3.  Substitution in ordinary use.  The template is text without an
    opening brace around tokens, and the selection holds neither an opening
    brace nor a dollar sign.  Then every token written canonically is
    replaced by the selected line of its number (counted from 1, after
    trimming and dropping blank lines), or by nothing when there is no such
    line; a token with a leading zero stays where it is; the text around the
    tokens is untouched. *)
Theorem processTemplate_ordinary (ps : list piece) (sel : jsstring) :
  Forall piece_ok ps ->
  existsb is_token ps = true ->
  is_empty sel = false ->
  includes LBRACE sel = false ->
  includes DOLLAR sel = false ->
  processTemplate (render ps) (Some sel)
  = render (map (substituted (selected_lines sel)) ps).
Proof.
  intros Hok Htok Hsel Hb Hd.
  pose proof (match_all_render ps Hok) as Hm.
  assert (Hhas : hasPlaceholders (render ps) = true).
  { apply (match_all_nonempty_has _ 0). rewrite Hm.
    apply existsb_exists in Htok as ([s|ds] & Hin & Hp); [discriminate|].
    intros E.
    assert (In (token_text ds) (piece_tokens ps)) as Hi
      by (apply piece_tokens_In; now exists ds).
    rewrite E in Hi. destruct Hi. }
  unfold processTemplate. rewrite Hsel, Hhas. cbn [orb negb].
  set (lines := selected_lines sel).
  set (phs := extractPlaceholders (render ps)).
  assert (Hphs : forall p, In p phs ->
            exists ds, In (Tok ds) ps /\ p = token_text ds).
  { intros p Hp. apply extractPlaceholders_In in Hp. rewrite Hm in Hp.
    now apply piece_tokens_In. }
  assert (Hdig : forall ds, In (Tok ds) ps -> forallb is_digit ds = true).
  { intros ds Hin. now destruct (proj1 (Forall_forall _ _) Hok _ Hin) as (_ & H & _). }
  assert (Hmap : phs = map token_text (map strip_braces phs)).
  { rewrite map_map. rewrite <- (map_id phs) at 1. apply map_ext_in.
    intros p Hp. destruct (Hphs p Hp) as (ds & Hin & ->).
    now rewrite (strip_braces_token ds (Hdig ds Hin)). }
  rewrite Hmap.
  rewrite (fold_substitute_render lines (map strip_braces phs) ps).
  - rewrite fold_map_pieces. f_equal. apply map_ext_in. intros [s|ds] Hin.
    + apply fold_pass_text.
    + apply fold_pass_substituted. apply in_map_iff.
      exists (token_text ds). split.
      * apply strip_braces_token. now apply Hdig.
      * apply extractPlaceholders_In. rewrite Hm.
        apply piece_tokens_In. now exists ds.
  - now apply selection_lines_plain.
  - apply Forall_forall. intros d Hd'. apply in_map_iff in Hd' as (p & <- & Hp).
    destruct (Hphs p Hp) as (ds & Hin & ->).
    rewrite (strip_braces_token ds (Hdig ds Hin)). now apply Hdig.
  - exact Hok.
Qed.

Lemma processTemplate_ordinary_witness :
  processTemplate
    (render [Text (js "- "); Tok (js "1"); Text (js "; "); Tok (js "2");
             Text (js "; "); Tok (js "02"); Text (js "; "); Tok (js "3");
             Text (js ".")])
    (Some (js "  one " ++ [LF; LF] ++ js "two"))
  = js "- one; two; {02}; .".
Proof.
  apply (processTemplate_ordinary
           [Text (js "- "); Tok (js "1"); Text (js "; "); Tok (js "2");
            Text (js "; "); Tok (js "02"); Text (js "; "); Tok (js "3");
            Text (js ".")]
           (js "  one " ++ [LF; LF] ++ js "two"));
    try reflexivity.
  repeat constructor; try discriminate; vm_compute; reflexivity.
Defined.

(** ** The passes of the loop, token by token *)


Lemma filter_filter (p q : jsstring -> bool) (l : list jsstring) :
  filter p (filter q l) = filter (fun y => q y && p y) l.
Proof.
  induction l as [|x l IH]; [reflexivity|]. cbn [filter].
  destruct (q x); cbn [andb filter]; [|exact IH].
  destruct (p x); now rewrite IH.
Qed.
























(** ** More on objects *)

Lemma delete_absent (o : JSObject.t) (k : jsstring) :
  JSObject.get_own o k = None -> JSObject.delete o k = o.
Proof.
  unfold JSObject.delete. induction o as [|[k' v] o IH]; [reflexivity|].
  cbn [JSObject.get_own filter fst].
  destruct (jseq k' k); [discriminate|]. intros H. cbn [negb].
  now rewrite (IH H).
Qed.

Lemma delete_app_new (o : JSObject.t) (k v : jsstring) :
  JSObject.delete (o ++ [(k, v)]) k = JSObject.delete o k.
Proof.
  unfold JSObject.delete. rewrite filter_app. cbn [filter fst].
  rewrite jseq_refl. cbn [negb]. apply app_nil_r.
Qed.

Lemma get_own_update_other (o : JSObject.t) (k k' v : jsstring) :
  k' <> k ->
  JSObject.get_own (JSObject.update o k v) k' = JSObject.get_own o k'.
Proof.
  intros Hne. induction o as [|[k0 v0] o IH]; [reflexivity|].
  cbn [JSObject.update]. destruct (jseq k0 k) eqn:E;
    cbn [JSObject.get_own]; [|now rewrite IH].
  apply jseq_eq in E. subst k0.
  now assert (jseq k k' = false) as -> by (apply jseq_neq; congruence).
Qed.

Lemma get_own_insert_same (i : N) (o : JSObject.t) (k v : jsstring) :
  JSObject.get_own o k = None ->
  JSObject.get_own (JSObject.insert_index i k v o) k = Some v.
Proof.
  induction o as [|[k' v'] o IH]; cbn [JSObject.insert_index JSObject.get_own].
  - now rewrite jseq_refl.
  - destruct (jseq k' k) eqn:E; [discriminate|]. intros H.
    destruct (JSObject.array_index k') as [j|];
      [destruct (j <? i)|]; cbn [JSObject.get_own];
      rewrite ?E, ?jseq_refl; auto.
Qed.

Lemma get_own_insert_other (i : N) (o : JSObject.t) (k k' v : jsstring) :
  k' <> k ->
  JSObject.get_own (JSObject.insert_index i k v o) k' = JSObject.get_own o k'.
Proof.
  intros Hne.
  assert (jseq k k' = false) as Hk by (apply jseq_neq; congruence).
  induction o as [|[k0 v0] o IH]; cbn [JSObject.insert_index JSObject.get_own].
  - now rewrite Hk.
  - destruct (JSObject.array_index k0) as [j|];
      [destruct (j <? i)|]; cbn [JSObject.get_own]; rewrite ?Hk, ?IH;
      reflexivity.
Qed.

Lemma get_own_set_same (o : JSObject.t) (k v : jsstring) :
  JSObject.get_own o k <> None \/ jseq k JSObject.PROTO = false ->
  JSObject.get_own (JSObject.set o k v) k = Some v.
Proof.
  intros H. unfold JSObject.set.
  destruct (JSObject.get_own o k) eqn:Hown.
  - apply get_own_update. congruence.
  - destruct H as [H|H]; [congruence|]. rewrite H.
    destruct (JSObject.array_index k).
    + now apply get_own_insert_same.
    + now apply get_own_app_new.
Qed.

Lemma get_own_set_other (o : JSObject.t) (k k' v : jsstring) :
  k' <> k ->
  JSObject.get_own (JSObject.set o k v) k' = JSObject.get_own o k'.
Proof.
  intros Hne. unfold JSObject.set.
  destruct (JSObject.get_own o k).
  - now apply get_own_update_other.
  - destruct (jseq k JSObject.PROTO); [reflexivity|].
    destruct (JSObject.array_index k).
    + now apply get_own_insert_other.
    + now apply get_own_app_other.
Qed.

Lemma has_own_set (o : JSObject.t) (k k' v : jsstring) :
  has_own (JSObject.set o k v) k'
  = has_own o k' || (jseq k' k && negb (jseq k JSObject.PROTO)).
Proof.
  unfold has_own. destruct (jseq k' k) eqn:E.
  - apply jseq_eq in E. subst k'. cbn [andb].
    destruct (JSObject.get_own o k) eqn:Hown.
    + rewrite get_own_set_same by (left; congruence). reflexivity.
    + destruct (jseq k JSObject.PROTO) eqn:Hp.
      * unfold JSObject.set. now rewrite Hown, Hp, Hown.
      * rewrite get_own_set_same by now right. reflexivity.
  - apply jseq_neq in E. rewrite (get_own_set_other o k k' v E).
    cbn [andb]. now rewrite orb_false_r.
Qed.

Lemma has_own_delete (o : JSObject.t) (k k' : jsstring) :
  has_own (JSObject.delete o k) k' = has_own o k' && negb (jseq k' k).
Proof.
  unfold has_own. destruct (jseq k' k) eqn:E.
  - apply jseq_eq in E. subst k'. rewrite get_own_delete_same.
    now rewrite andb_false_r.
  - apply jseq_neq in E. rewrite (get_own_delete_other o k k' E).
    now rewrite andb_true_r.
Qed.

(** ** Adding, renaming and deleting *)

Lemma prototype_names_valid :
  forallb (fun k => isValid (validateKey k)) JSObject.prototype_names = true.
Proof. vm_compute. reflexivity. Qed.

(** X4.  A key that was just added is taken: adding it again, with
    whatever text, ends in [DuplicateKey] and changes nothing. *)
Theorem handleAddSnippet_then_duplicate (settings settings' : Settings)
    (key value value' : jsstring) :
  handleAddSnippet settings key value = (Done, settings') ->
  is_empty value' = false ->
  handleAddSnippet settings' key value' = (DuplicateKey, settings').
Proof.
  unfold handleAddSnippet at 1.
  destruct (is_empty key || is_empty value) eqn:Hkv; [discriminate|].
  destruct (negb (isValid (validateKey key))) eqn:Hvalid; [discriminate|].
  destruct (JSObject.truthy (JSObject.get (snippets settings) key)) eqn:Ht;
    [discriminate|].
  intros [= <-] Hv'. apply orb_false_iff in Hkv as [Hk Hv].
  unfold handleAddSnippet. rewrite Hk, Hv', Hvalid. cbn [orb].
  unfold addNewSnippet at 1. cbn [snippets]. unfold JSObject.get at 1.
  rewrite get_own_set_same.
  - cbn [JSObject.truthy]. now rewrite Hv.
  - unfold JSObject.get in Ht.
    destruct (JSObject.get_own (snippets settings) key); [left; congruence|].
    right. destruct (JSObject.inherited key) eqn:Hi; [discriminate|].
    now apply not_inherited_not_proto.
Qed.

Lemma handleAddSnippet_then_duplicate_witness :
  handleAddSnippet
    (snd (handleAddSnippet DEFAULT_SETTINGS (js "42") (js "answer")))
    (js "42") (js "again")
  = (DuplicateKey, snd (handleAddSnippet DEFAULT_SETTINGS (js "42") (js "answer"))).
Proof.
  apply (handleAddSnippet_then_duplicate DEFAULT_SETTINGS _ (js "42")
           (js "answer") (js "again")); reflexivity.
Defined.

(** X5.  A key that names a member of [Object.prototype] ("constructor",
    "toString", "__proto__", ...) passes the validator but cannot be added:
    the lookup that tests for a duplicate finds the inherited member, and the
    add ends in [DuplicateKey] although no such snippet exists. *)
Theorem handleAddSnippet_prototype_name (settings : Settings)
    (key value : jsstring) :
  In key JSObject.prototype_names ->
  JSObject.get_own (snippets settings) key = None ->
  is_empty value = false ->
  isValid (validateKey key) = true
  /\ handleAddSnippet settings key value = (DuplicateKey, settings).
Proof.
  intros Hin Hown Hv.
  assert (Hvalid : isValid (validateKey key) = true).
  { exact (proj1 (forallb_forall _ _) prototype_names_valid key Hin). }
  split; [exact Hvalid|].
  unfold handleAddSnippet.
  rewrite (validateKey_valid_nonempty key Hvalid), Hv, Hvalid. cbn [orb negb].
  unfold JSObject.get. rewrite Hown.
  assert (JSObject.inherited key = true) as ->; [|reflexivity].
  now apply set_has_In.
Qed.

Lemma handleAddSnippet_prototype_name_witness :
  isValid (validateKey (js "constructor")) = true
  /\ handleAddSnippet DEFAULT_SETTINGS (js "constructor") (js "text")
     = (DuplicateKey, DEFAULT_SETTINGS).
Proof.
  apply (handleAddSnippet_prototype_name DEFAULT_SETTINGS (js "constructor")
           (js "text")); [now left|reflexivity|reflexivity].
Defined.

Lemma get_own_delete_none (o : JSObject.t) (k k' : jsstring) :
  JSObject.get_own o k' = None ->
  JSObject.get_own (JSObject.delete o k) k' = None.
Proof.
  intros H. destruct (jseq k' k) eqn:E.
  - apply jseq_eq in E. subst. apply get_own_delete_same.
  - apply jseq_neq in E. now rewrite get_own_delete_other.
Qed.

(** X6.  A rename.  Saving under a new key that is valid, not an array
    index and not answered to by [snippets] removes the old key from the
    three maps and creates the new one with the given text, icon and group;
    the new key comes last, and the records under other keys are not
    touched. *)
Theorem handleSave_rename (settings : Settings)
    (originalKey key value icon group : jsstring) :
  key <> originalKey ->
  isValid (validateKey key) = true ->
  is_empty value = false ->
  JSObject.get (snippets settings) key = JSObject.Undefined ->
  JSObject.array_index key = None ->
  exists icons' groups',
    handleSave settings originalKey key value icon group
    = (Done,
       {| snippets := JSObject.delete (snippets settings) originalKey
                      ++ [(key, value)];
          icons := Some icons'; groups := Some groups' |})
    /\ JSObject.get_own icons' key = Some icon
    /\ JSObject.get_own groups' key = Some group
    /\ JSObject.get_own icons' originalKey = None
    /\ JSObject.get_own groups' originalKey = None
    /\ (forall k, k <> key -> k <> originalKey ->
          JSObject.get_own
            (JSObject.delete (snippets settings) originalKey ++ [(key, value)]) k
          = JSObject.get_own (snippets settings) k
          /\ JSObject.get_own icons' k
             = JSObject.get_own (JSObject.spread (icons settings)) k
          /\ JSObject.get_own groups' k
             = JSObject.get_own (JSObject.spread (groups settings)) k).
Proof.
  intros Hne Hvalid Hv Hget Hidx.
  destruct (get_undefined _ _ Hget) as [Hown Hinh].
  pose proof (not_inherited_not_proto key Hinh) as Hproto.
  exists (JSObject.set (JSObject.delete (JSObject.spread (icons settings))
                          originalKey) key icon),
         (JSObject.set (JSObject.delete (JSObject.spread (groups settings))
                          originalKey) key group).
  assert (Hko : originalKey <> key) by congruence.
  repeat split.
  - unfold handleSave.
    rewrite (validateKey_valid_nonempty key Hvalid), Hv, Hvalid, Hget.
    assert (jseq key originalKey = false) as -> by now apply jseq_neq.
    cbn [orb negb JSObject.truthy JSObject.spread].
    now rewrite (set_new_plain _ _ _
                   (get_own_delete_none _ originalKey key Hown) Hproto Hidx).
  - apply get_own_set_same. now right.
  - apply get_own_set_same. now right.
  - rewrite get_own_set_other by exact Hko. apply get_own_delete_same.
  - rewrite get_own_set_other by exact Hko. apply get_own_delete_same.
  - rewrite get_own_app_other by assumption. now apply get_own_delete_other.
  - rewrite get_own_set_other by assumption. now apply get_own_delete_other.
  - rewrite get_own_set_other by assumption. now apply get_own_delete_other.
Qed.

Lemma handleSave_rename_witness :
  exists icons' groups',
    handleSave DEFAULT_SETTINGS (js "hello") (js "hi") (js "Hi!") (js "star")
      (js "Greetings")
    = (Done,
       {| snippets := [ (js "greet", js "Hello {1} (from Insertive)");
                        (js "hi", js "Hi!") ];
          icons := Some icons'; groups := Some groups' |})
    /\ JSObject.get_own icons' (js "hi") = Some (js "star")
    /\ JSObject.get_own groups' (js "hi") = Some (js "Greetings")
    /\ JSObject.get_own icons' (js "hello") = None
    /\ JSObject.get_own groups' (js "hello") = None.
Proof.
  destruct (handleSave_rename DEFAULT_SETTINGS (js "hello") (js "hi") (js "Hi!")
              (js "star") (js "Greetings"))
    as (i & g & H1 & H2 & H3 & H4 & H5 & _);
    try reflexivity; try discriminate.
  exists i, g. repeat split; assumption.
Defined.

(** X7.  A save that is refused writes nothing.  Without a key or without
    a text it ends in [MissingInput]; a changed key that the validator
    rejects ends in [InvalidKey] with the validator's message; a changed key
    that already holds a text ends in [DuplicateKey], so a rename never
    overwrites another snippet's text.  Whatever ends otherwise than in
    [Done] leaves the settings as they were. *)
Theorem handleSave_refusals (settings : Settings)
    (originalKey key value icon group text : jsstring) :
  (is_empty key || is_empty value = true ->
     handleSave settings originalKey key value icon group
     = (MissingInput, settings))
  /\ (is_empty key = false -> is_empty value = false -> key <> originalKey ->
      isValid (validateKey key) = false ->
      handleSave settings originalKey key value icon group
      = (InvalidKey (message (validateKey key)), settings))
  /\ (is_empty value = false -> key <> originalKey ->
      isValid (validateKey key) = true ->
      JSObject.get_own (snippets settings) key = Some text ->
      is_empty text = false ->
      handleSave settings originalKey key value icon group
      = (DuplicateKey, settings))
  /\ (fst (handleSave settings originalKey key value icon group) <> Done ->
      snd (handleSave settings originalKey key value icon group) = settings).
Proof.
  repeat split.
  - intros H. unfold handleSave. now rewrite H.
  - intros Hk Hv Hne Hinv. unfold handleSave. rewrite Hk, Hv, Hinv.
    now assert (jseq key originalKey = false) as -> by now apply jseq_neq.
  - intros Hv Hne Hvalid Hown Htext. unfold handleSave.
    rewrite (validateKey_valid_nonempty key Hvalid), Hv, Hvalid.
    assert (jseq key originalKey = false) as -> by now apply jseq_neq.
    unfold JSObject.get. rewrite Hown. cbn [orb negb JSObject.truthy].
    now rewrite Htext.
  - apply handleSave_atomic.
Qed.

Lemma handleSave_refusals_witness :
  handleSave DEFAULT_SETTINGS (js "hello") (js "greet") (js "Hi") (js "star") []
  = (DuplicateKey, DEFAULT_SETTINGS)
  /\ handleSave DEFAULT_SETTINGS (js "hello") (js "say hi") (js "Hi") (js "star") []
     = (InvalidKey MSG_SPACES, DEFAULT_SETTINGS).
Proof.
  split.
  - apply (proj1 (proj2 (proj2 (handleSave_refusals DEFAULT_SETTINGS (js "hello")
                                  (js "greet") (js "Hi") (js "star") []
                                  (js "Hello {1} (from Insertive)")))));
      try reflexivity; discriminate.
  - apply (proj1 (proj2 (handleSave_refusals DEFAULT_SETTINGS (js "hello")
                           (js "say hi") (js "Hi") (js "star") [] [])));
      try reflexivity; discriminate.
Defined.

Lemma delete_guarded_other (o : option JSObject.t) (key k : jsstring) :
  k <> key ->
  JSObject.get_own
    (JSObject.spread
       match o with
       | Some o' =>
           if JSObject.truthy (JSObject.get o' key)
           then Some (JSObject.delete o' key) else Some o'
       | None => None
       end) k
  = JSObject.get_own (JSObject.spread o) k.
Proof.
  intros Hne. destruct o as [o'|]; [|reflexivity].
  destruct (JSObject.truthy _); cbn [JSObject.spread]; [|reflexivity].
  now apply get_own_delete_other.
Qed.

Lemma delete_guarded_text (o : option JSObject.t) (key v : jsstring) :
  JSObject.get_own (JSObject.spread o) key = Some v ->
  is_empty v = false ->
  JSObject.get_own
    (JSObject.spread
       match o with
       | Some o' =>
           if JSObject.truthy (JSObject.get o' key)
           then Some (JSObject.delete o' key) else Some o'
       | None => None
       end) key
  = None.
Proof.
  destruct o as [o'|]; cbn [JSObject.spread]; [|discriminate].
  intros Hown Hv. unfold JSObject.get. rewrite Hown.
  cbn [JSObject.truthy]. rewrite Hv. cbn [negb JSObject.spread].
  apply get_own_delete_same.
Qed.

(** X8.  Deleting a snippet removes its text, keeps the other keys in
    their order and leaves the text, icon and group of every other key as
    they were; an icon or a group that is not the empty string goes with
    it. *)
Theorem handleDeleteSnippet_removes (settings : Settings) (key : jsstring) :
  JSObject.get_own (snippets (handleDeleteSnippet settings key)) key = None
  /\ JSObject.keys (snippets (handleDeleteSnippet settings key))
     = filter (fun k => negb (jseq k key)) (JSObject.keys (snippets settings))
  /\ (forall k, k <> key ->
        JSObject.get_own (snippets (handleDeleteSnippet settings key)) k
        = JSObject.get_own (snippets settings) k
        /\ JSObject.get_own
             (JSObject.spread (icons (handleDeleteSnippet settings key))) k
           = JSObject.get_own (JSObject.spread (icons settings)) k
        /\ JSObject.get_own
             (JSObject.spread (groups (handleDeleteSnippet settings key))) k
           = JSObject.get_own (JSObject.spread (groups settings)) k)
  /\ (forall v,
        JSObject.get_own (JSObject.spread (icons settings)) key = Some v ->
        is_empty v = false ->
        JSObject.get_own
          (JSObject.spread (icons (handleDeleteSnippet settings key))) key
        = None)
  /\ (forall v,
        JSObject.get_own (JSObject.spread (groups settings)) key = Some v ->
        is_empty v = false ->
        JSObject.get_own
          (JSObject.spread (groups (handleDeleteSnippet settings key))) key
        = None).
Proof.
  unfold handleDeleteSnippet. cbn [snippets icons groups]. repeat split.
  - apply get_own_delete_same.
  - apply keys_delete.
  - now apply get_own_delete_other.
  - now apply delete_guarded_other.
  - now apply delete_guarded_other.
  - apply delete_guarded_text.
  - apply delete_guarded_text.
Qed.

Lemma handleDeleteSnippet_removes_witness :
  JSObject.keys (snippets (handleDeleteSnippet DEFAULT_SETTINGS (js "greet")))
  = [js "hello"]
  /\ JSObject.get_own
       (JSObject.spread (icons (handleDeleteSnippet DEFAULT_SETTINGS (js "greet"))))
       (js "greet")
     = None.
Proof.
  split.
  - exact (proj1 (proj2 (handleDeleteSnippet_removes DEFAULT_SETTINGS (js "greet")))).
  - exact (proj1 (proj2 (proj2 (proj2
             (handleDeleteSnippet_removes DEFAULT_SETTINGS (js "greet")))))
             (js "hand") eq_refl eq_refl).
Defined.

(** X9.  Deleting a key that none of the three maps holds changes
    nothing. *)
Theorem handleDeleteSnippet_absent (settings : Settings) (key : jsstring) :
  JSObject.get_own (snippets settings) key = None ->
  JSObject.get_own (JSObject.spread (icons settings)) key = None ->
  JSObject.get_own (JSObject.spread (groups settings)) key = None ->
  handleDeleteSnippet settings key = settings.
Proof.
  destruct settings as [s i g]. cbn [snippets icons groups].
  intros Hs Hi Hg. unfold handleDeleteSnippet. cbn [snippets icons groups].
  rewrite (delete_absent s key Hs). f_equal.
  - destruct i as [o|]; [|reflexivity]. cbn [JSObject.spread] in Hi.
    destruct (JSObject.truthy _); [|reflexivity].
    now rewrite (delete_absent o key Hi).
  - destruct g as [o|]; [|reflexivity]. cbn [JSObject.spread] in Hg.
    destruct (JSObject.truthy _); [|reflexivity].
    now rewrite (delete_absent o key Hg).
Qed.

Lemma handleDeleteSnippet_absent_witness :
  handleDeleteSnippet DEFAULT_SETTINGS (js "toString") = DEFAULT_SETTINGS.
Proof.
  apply (handleDeleteSnippet_absent DEFAULT_SETTINGS (js "toString"));
    reflexivity.
Defined.

(** X10.  Adding a snippet and deleting it again.  For a new key that is
    not an array index, the snippets and the icons are back as they were,
    in content and in order; the groups keep an entry for the key, holding
    the empty string. *)
Theorem handleAddSnippet_then_delete (settings : Settings)
    (key value : jsstring) (ic gr : JSObject.t) :
  icons settings = Some ic ->
  groups settings = Some gr ->
  isValid (validateKey key) = true ->
  is_empty value = false ->
  JSObject.get (snippets settings) key = JSObject.Undefined ->
  JSObject.get_own ic key = None ->
  JSObject.get_own gr key = None ->
  JSObject.array_index key = None ->
  fst (handleAddSnippet settings key value) = Done
  /\ handleDeleteSnippet (snd (handleAddSnippet settings key value)) key
     = {| snippets := snippets settings;
          icons := Some ic;
          groups := Some (gr ++ [(key, [])]) |}.
Proof.
  intros Hi Hg Hvalid Hv Hget Hic Hgr Hidx.
  destruct (get_undefined _ _ Hget) as [Hown Hinh].
  pose proof (not_inherited_not_proto key Hinh) as Hproto.
  unfold handleAddSnippet.
  rewrite (validateKey_valid_nonempty key Hvalid), Hv, Hvalid, Hget.
  cbn [orb negb JSObject.truthy fst snd]. split; [reflexivity|].
  unfold addNewSnippet, handleDeleteSnippet. rewrite Hi, Hg.
  cbn [snippets icons groups].
  rewrite !set_new_plain by assumption.
  rewrite delete_app_new, (delete_absent _ _ Hown). f_equal.
  - unfold JSObject.get. rewrite (get_own_app_new ic key DEFAULT_ICON Hic).
    cbn [JSObject.truthy]. replace (is_empty DEFAULT_ICON) with false by reflexivity.
    cbn [negb]. now rewrite delete_app_new, (delete_absent _ _ Hic).
  - unfold JSObject.get. now rewrite (get_own_app_new gr key [] Hgr).
Qed.

Lemma handleAddSnippet_then_delete_witness :
  handleDeleteSnippet
    (snd (handleAddSnippet DEFAULT_SETTINGS (js "note") (js "N.B. {1}")))
    (js "note")
  = {| snippets := snippets DEFAULT_SETTINGS;
       icons := icons DEFAULT_SETTINGS;
       groups := Some [ (js "hello", []); (js "greet", []); (js "note", []) ] |}.
Proof.
  exact (proj2 (handleAddSnippet_then_delete DEFAULT_SETTINGS (js "note")
                  (js "N.B. {1}") _ _ eq_refl eq_refl eq_refl eq_refl eq_refl
                  eq_refl eq_refl eq_refl)).
Defined.

(** X11.  Adding, saving and deleting keep the records complete: when
    every key of [snippets] has an entry in [icons] and in [groups] before,
    it has one afterwards. *)
Theorem handlers_keep_complete (settings : Settings)
    (originalKey key value icon group : jsstring) :
  complete settings ->
  complete (snd (handleAddSnippet settings key value))
  /\ complete (snd (handleSave settings originalKey key value icon group))
  /\ complete (handleDeleteSnippet settings key).
Proof.
  intros Hc. split; [|split].
  - unfold handleAddSnippet.
    destruct (is_empty key || is_empty value); [exact Hc|].
    destruct (negb (isValid (validateKey key))); [exact Hc|].
    destruct (JSObject.truthy _); [exact Hc|].
    intros k. unfold addNewSnippet.
    cbn [snd snippets icons groups JSObject.spread].
    fold (JSObject.spread (icons settings)).
    fold (JSObject.spread (groups settings)).
    rewrite !has_own_set. intros H.
    apply orb_true_iff in H as [H|H].
    + destruct (Hc k H) as [-> ->]. now split.
    + rewrite H, !orb_true_r. now split.
  - assert (Hcommit : complete
      {| snippets := JSObject.set
                       (JSObject.delete (snippets settings) originalKey) key value;
         icons := Some (JSObject.set
                          (JSObject.delete (JSObject.spread (icons settings))
                             originalKey) key icon);
         groups := Some (JSObject.set
                           (JSObject.delete (JSObject.spread (groups settings))
                              originalKey) key group) |}).
    { intros k. cbn [snippets icons groups JSObject.spread].
      rewrite !has_own_set, !has_own_delete. intros H.
      apply orb_true_iff in H as [H|H].
      - apply andb_true_iff in H as [H Hk]. destruct (Hc k H) as [-> ->].
        rewrite Hk. now split.
      - rewrite H, !orb_true_r. now split. }
    unfold handleSave.
    destruct (is_empty key || is_empty value); [exact Hc|].
    destruct (negb (jseq key originalKey)); [|exact Hcommit].
    destruct (negb (isValid (validateKey key))); [exact Hc|].
    destruct (JSObject.truthy _); [exact Hc|exact Hcommit].
  - intros k. unfold handleDeleteSnippet. cbn [snippets icons groups].
    rewrite has_own_delete. intros H. apply andb_true_iff in H as [H Hk].
    destruct (Hc k H) as [Hi Hg].
    apply negb_true_iff, jseq_neq in Hk.
    unfold has_own in *. rewrite !delete_guarded_other by exact Hk.
    now split.
Qed.

Lemma DEFAULT_SETTINGS_complete : complete DEFAULT_SETTINGS.
Proof.
  intros k. unfold has_own. cbn [DEFAULT_SETTINGS snippets icons groups
    JSObject.spread JSObject.get_own].
  destruct (jseq (js "hello") k); [now split|].
  destruct (jseq (js "greet") k); [now split|discriminate].
Qed.

Lemma handlers_keep_complete_witness :
  has_own
    (JSObject.spread
       (icons (snd (handleAddSnippet DEFAULT_SETTINGS (js "note") (js "N.B.")))))
    (js "note") = true
  /\ has_own
       (JSObject.spread
          (groups (snd (handleSave DEFAULT_SETTINGS (js "hello") (js "hi")
                          (js "Hi") (js "star") []))))
       (js "hi") = true.
Proof.
  split.
  - exact (proj1 (proj1 (handlers_keep_complete DEFAULT_SETTINGS (js "hello")
                           (js "note") (js "N.B.") (js "star") []
                           DEFAULT_SETTINGS_complete) (js "note") eq_refl)).
  - exact (proj2 (proj1 (proj2 (handlers_keep_complete DEFAULT_SETTINGS
                                  (js "hello") (js "hi") (js "Hi") (js "star")
                                  [] DEFAULT_SETTINGS_complete))
                    (js "hi") eq_refl)).
Defined.

(** X12.  The confirmed overwrite.  [replaceSnippet] on a key that
    [snippets] holds replaces its text and nothing else: the order of the
    keys, the other texts, the icons and the groups stay as they were. *)
Theorem replaceSnippet_only_text (settings : Settings)
    (key value text : jsstring) :
  JSObject.get_own (snippets settings) key = Some text ->
  JSObject.keys (snippets (replaceSnippet settings key value))
  = JSObject.keys (snippets settings)
  /\ JSObject.get_own (snippets (replaceSnippet settings key value)) key
     = Some value
  /\ (forall k, k <> key ->
        JSObject.get_own (snippets (replaceSnippet settings key value)) k
        = JSObject.get_own (snippets settings) k)
  /\ icons (replaceSnippet settings key value) = icons settings
  /\ groups (replaceSnippet settings key value) = groups settings.
Proof.
  intros H. unfold replaceSnippet. cbn [snippets icons groups]. repeat split.
  - unfold JSObject.set. rewrite H. apply keys_update.
  - apply get_own_set_same. left. congruence.
  - intros k Hk. now apply get_own_set_other.
Qed.

Lemma replaceSnippet_only_text_witness :
  JSObject.keys (snippets (replaceSnippet DEFAULT_SETTINGS (js "hello") (js "Hi")))
  = [js "hello"; js "greet"]
  /\ JSObject.get_own
       (snippets (replaceSnippet DEFAULT_SETTINGS (js "hello") (js "Hi")))
       (js "hello")
     = Some (js "Hi").
Proof.
  destruct (replaceSnippet_only_text DEFAULT_SETTINGS (js "hello") (js "Hi")
              (js "_Hello World_") eq_refl) as (H1 & H2 & _).
  split; [exact H1|exact H2].
Defined.

(** ** ContextMenuManager: grouping *)

Lemma grouped_get_In (g : Grouped) (n : jsstring) :
  grouped_get g n <> None <-> In n (map fst g).
Proof.
  induction g as [|[n' l] g IH]; cbn [grouped_get map fst In]; [easy|].
  destruct (jseq n' n) eqn:E.
  - apply jseq_eq in E. split; [now left|discriminate].
  - apply jseq_neq in E. rewrite IH. split; [now right|].
    intros [H|H]; [contradiction|exact H].
Qed.

Lemma grouped_push_names (g : Grouped) (n k : jsstring) :
  map fst (grouped_push g n k) = map fst g.
Proof.
  induction g as [|[n' l] g IH]; [reflexivity|]. cbn [grouped_push].
  destruct (jseq n' n); cbn [map fst]; [reflexivity|now rewrite IH].
Qed.

Lemma grouped_get_push_same (g : Grouped) (n k : jsstring) (l : list jsstring) :
  grouped_get g n = Some l ->
  grouped_get (grouped_push g n k) n = Some (l ++ [k]).
Proof.
  induction g as [|[n' l'] g IH]; cbn [grouped_get grouped_push]; [discriminate|].
  destruct (jseq n' n) eqn:E; cbn [grouped_get]; rewrite E.
  - now intros [= ->].
  - exact IH.
Qed.

Lemma grouped_get_push_other (g : Grouped) (n n' k : jsstring) :
  n' <> n -> grouped_get (grouped_push g n k) n' = grouped_get g n'.
Proof.
  intros Hne. induction g as [|[n0 l] g IH]; [reflexivity|].
  cbn [grouped_push]. destruct (jseq n0 n) eqn:E; cbn [grouped_get];
    [|now rewrite IH].
  apply jseq_eq in E. subst n0.
  now assert (jseq n n' = false) as -> by (apply jseq_neq; congruence).
Qed.

Lemma grouped_insert_names (i : N) (n : jsstring) (g : Grouped) :
  Permutation (map fst (grouped_insert_index i n g)) (n :: map fst g).
Proof.
  induction g as [|[n' l] g IH]; cbn [grouped_insert_index]; [reflexivity|].
  destruct (JSObject.array_index n') as [j|]; [destruct (j <? i)|];
    cbn [map fst]; try reflexivity.
  rewrite IH. apply perm_swap.
Qed.

Lemma grouped_create_names (g : Grouped) (n : jsstring) :
  Permutation (map fst (grouped_create g n)) (n :: map fst g).
Proof.
  unfold grouped_create. destruct (JSObject.array_index n).
  - apply grouped_insert_names.
  - rewrite map_app. cbn [map fst]. symmetry. apply Permutation_cons_append.
Qed.

Lemma grouped_get_insert_same (i : N) (n : jsstring) (g : Grouped) :
  grouped_get g n = None -> grouped_get (grouped_insert_index i n g) n = Some [].
Proof.
  induction g as [|[n' l] g IH]; cbn [grouped_insert_index grouped_get].
  - now rewrite jseq_refl.
  - destruct (jseq n' n) eqn:E; [discriminate|]. intros H.
    destruct (JSObject.array_index n') as [j|]; [destruct (j <? i)|];
      cbn [grouped_get]; rewrite ?E, ?jseq_refl; auto.
Qed.

Lemma grouped_get_insert_other (i : N) (n n' : jsstring) (g : Grouped) :
  n' <> n -> grouped_get (grouped_insert_index i n g) n' = grouped_get g n'.
Proof.
  intros Hne.
  assert (jseq n n' = false) as Hn by (apply jseq_neq; congruence).
  induction g as [|[n0 l] g IH]; cbn [grouped_insert_index grouped_get].
  - now rewrite Hn.
  - destruct (JSObject.array_index n0) as [j|]; [destruct (j <? i)|];
      cbn [grouped_get]; rewrite ?Hn, ?IH; reflexivity.
Qed.

Lemma grouped_get_app (g : Grouped) (n n' : jsstring) :
  grouped_get (g ++ [(n, [])]) n'
  = match grouped_get g n' with
    | Some l => Some l
    | None => if jseq n n' then Some [] else None
    end.
Proof.
  induction g as [|[n0 l] g IH]; cbn [app grouped_get]; [reflexivity|].
  now destruct (jseq n0 n').
Qed.

Lemma grouped_get_create_same (g : Grouped) (n : jsstring) :
  grouped_get g n = None -> grouped_get (grouped_create g n) n = Some [].
Proof.
  intros H. unfold grouped_create. destruct (JSObject.array_index n).
  - now apply grouped_get_insert_same.
  - now rewrite grouped_get_app, H, jseq_refl.
Qed.

Lemma grouped_get_create_other (g : Grouped) (n n' : jsstring) :
  n' <> n -> grouped_get (grouped_create g n) n' = grouped_get g n'.
Proof.
  intros Hne. unfold grouped_create. destruct (JSObject.array_index n).
  - now apply grouped_get_insert_other.
  - rewrite grouped_get_app.
    assert (jseq n n' = false) as -> by (apply jseq_neq; congruence).
    now destruct (grouped_get g n').
Qed.

Lemma organize_step_ok (settings : Settings) (ks : list jsstring)
    (g : Grouped) (k n : jsstring) :
  grouped_for settings ks g ->
  group_of settings k = Some n ->
  JSObject.inherited n = false ->
  exists g',
    organize_step settings (Returns g) k = Returns g'
    /\ grouped_for settings (ks ++ [k]) g'.
Proof.
  intros [Hnd Hget] Hk Hinh. unfold organize_step. rewrite Hk.
  assert (Hgn : group_name settings k = n) by (unfold group_name; now rewrite Hk).
  destruct (grouped_get g n) as [l|] eqn:Hn.
  - exists (grouped_push g n k). split; [reflexivity|]. split.
    + now rewrite grouped_push_names.
    + intros n'. rewrite filter_app. cbn [filter]. rewrite Hgn.
      destruct (jseq n n') eqn:E.
      * apply jseq_eq in E. subst n'.
        rewrite (grouped_get_push_same g n k l Hn).
        rewrite Hget in Hn.
        destruct (filter _ ks) as [|x xs]; [discriminate|].
        injection Hn as <-. reflexivity.
      * apply jseq_neq in E.
        rewrite grouped_get_push_other by congruence.
        rewrite app_nil_r. apply Hget.
  - rewrite Hinh. exists (grouped_push (grouped_create g n) n k).
    split; [reflexivity|]. split.
    + rewrite grouped_push_names.
      apply (Permutation_NoDup (l := n :: map fst g)).
      * symmetry. apply grouped_create_names.
      * constructor; [|exact Hnd]. intros Hin.
        apply grouped_get_In in Hin. congruence.
    + intros n'. rewrite filter_app. cbn [filter]. rewrite Hgn.
      destruct (jseq n n') eqn:E.
      * apply jseq_eq in E. subst n'.
        rewrite (grouped_get_push_same _ n k [] (grouped_get_create_same g n Hn)).
        rewrite Hget in Hn.
        destruct (filter _ ks) as [|x xs]; [reflexivity|discriminate].
      * apply jseq_neq in E.
        rewrite grouped_get_push_other by congruence.
        rewrite grouped_get_create_other by congruence.
        rewrite app_nil_r. apply Hget.
Qed.

Lemma organize_fold_ok (settings : Settings) (rest done : list jsstring)
    (g : Grouped) :
  grouped_for settings done g ->
  (forall k, In k rest ->
     exists n, group_of settings k = Some n /\ JSObject.inherited n = false) ->
  exists g',
    fold_left (organize_step settings) rest (Returns g) = Returns g'
    /\ grouped_for settings (done ++ rest) g'.
Proof.
  revert done g. induction rest as [|k rest IH]; intros done g Hg Hall.
  - exists g. rewrite app_nil_r. now split.
  - destruct (Hall k (or_introl eq_refl)) as (n & Hn & Hi).
    destruct (organize_step_ok settings done g k n Hg Hn Hi) as (g1 & E1 & Hg1).
    destruct (IH (done ++ [k]) g1 Hg1) as (g' & E' & Hg').
    { intros k' Hk'. apply Hall. now right. }
    exists g'. cbn [fold_left]. rewrite E1. split; [exact E'|].
    now rewrite <- app_assoc in Hg'.
Qed.

Lemma organize_ok (settings : Settings) (ks : list jsstring) :
  (forall k, In k ks ->
     exists n, group_of settings k = Some n /\ JSObject.inherited n = false) ->
  exists g,
    organizeSnippetsByGroup settings ks = Returns g
    /\ grouped_for settings ks g.
Proof.
  intros Hall.
  destruct (organize_fold_ok settings ks [] [] (conj (NoDup_nil _) (fun _ => eq_refl))
              Hall) as (g & E & Hg).
  now exists g.
Qed.

Lemma grouped_for_bucket (settings : Settings) (ks : list jsstring)
    (g : Grouped) (n : jsstring) :
  grouped_for settings ks g ->
  bucket g n = filter (fun k => jseq (group_name settings k) n) ks.
Proof.
  intros [_ H]. unfold bucket. rewrite H. now destruct (filter _ ks).
Qed.

Lemma grouped_for_names (settings : Settings) (ks : list jsstring)
    (g : Grouped) (n : jsstring) :
  grouped_for settings ks g ->
  (In n (map fst g) <-> exists k, In k ks /\ group_name settings k = n).
Proof.
  intros [_ H]. rewrite <- grouped_get_In, H. split.
  - destruct (filter _ ks) as [|k l] eqn:E; [congruence|]. intros _.
    assert (In k (filter (fun k => jseq (group_name settings k) n) ks)) as Hin
      by (rewrite E; now left).
    apply filter_In in Hin as [Hin Hk]. apply jseq_eq in Hk. now exists k.
  - intros (k & Hin & Hk).
    assert (In k (filter (fun k => jseq (group_name settings k) n) ks)) as Hf.
    { apply filter_In. split; [exact Hin|]. now apply jseq_eq. }
    destruct (filter _ ks); [destruct Hf|discriminate].
Qed.

(** X13.  Grouping the keys.  When every key has a group that is a string
    and no group is named like a member of [Object.prototype],
    [organizeSnippetsByGroup] returns an object that holds, under each group
    name (the empty name for the ungrouped), exactly the keys of that group
    in the order of the settings; its names are the groups that occur, each
    once. *)
Theorem organizeSnippetsByGroup_buckets (settings : Settings)
    (snippetKeys : list jsstring) :
  (forall k, In k snippetKeys ->
     exists n, group_of settings k = Some n /\ JSObject.inherited n = false) ->
  exists g,
    organizeSnippetsByGroup settings snippetKeys = Returns g
    /\ NoDup (map fst g)
    /\ (forall n,
          bucket g n
          = filter (fun k => jseq (group_name settings k) n) snippetKeys)
    /\ (forall n,
          In n (map fst g)
          <-> exists k, In k snippetKeys /\ group_name settings k = n).
Proof.
  intros Hall. destruct (organize_ok settings snippetKeys Hall) as (g & E & Hg).
  exists g. split; [exact E|]. split; [exact (proj1 Hg)|]. split.
  - intros n. now apply grouped_for_bucket.
  - intros n. now apply grouped_for_names.
Qed.

Lemma organizeSnippetsByGroup_buckets_witness :
  exists g,
    organizeSnippetsByGroup
      {| snippets := [ (js "a", js "A"); (js "b", js "B"); (js "c", js "C") ];
         icons := None;
         groups := Some [ (js "a", []); (js "b", js "G"); (js "c", []) ] |}
      [js "a"; js "b"; js "c"]
    = Returns g
    /\ bucket g [] = [js "a"; js "c"]
    /\ bucket g (js "G") = [js "b"].
Proof.
  destruct (organizeSnippetsByGroup_buckets
              {| snippets := [ (js "a", js "A"); (js "b", js "B"); (js "c", js "C") ];
                 icons := None;
                 groups := Some [ (js "a", []); (js "b", js "G"); (js "c", []) ] |}
              [js "a"; js "b"; js "c"]) as (g & E & _ & Hb & _).
  - intros k [<-|[<-|[<-|[]]]];
      [exists []|exists (js "G")|exists []]; split; reflexivity.
  - exists g. split; [exact E|]. split; rewrite Hb; reflexivity.
Defined.

Lemma organize_throws_absorbs (settings : Settings) (rest : list jsstring) :
  fold_left (organize_step settings) rest ThrowsTypeError = ThrowsTypeError.
Proof. induction rest as [|k rest IH]; [reflexivity|exact IH]. Qed.

Lemma organize_fold_throws (settings : Settings) (rest : list jsstring)
    (g : Grouped) :
  (forall n, In n (map fst g) -> JSObject.inherited n = false) ->
  (forall k, In k rest -> group_of settings k <> None) ->
  (exists k, In k rest /\ JSObject.inherited (group_name settings k) = true) ->
  fold_left (organize_step settings) rest (Returns g) = ThrowsTypeError.
Proof.
  revert g. induction rest as [|k rest IH]; intros g Hg Hall (k0 & Hin & Hk0);
    [destruct Hin|].
  cbn [fold_left]. unfold organize_step at 2.
  destruct (group_of settings k) as [n|] eqn:Hn;
    [|now elim (Hall k (or_introl eq_refl))].
  assert (Hgn : group_name settings k = n) by (unfold group_name; now rewrite Hn).
  destruct (JSObject.inherited n) eqn:Hi.
  - destruct (grouped_get g n) eqn:Hget.
    + assert (In n (map fst g)) as Hin' by (apply grouped_get_In; congruence).
      rewrite (Hg n Hin') in Hi. discriminate.
    + apply organize_throws_absorbs.
  - assert (Hrest : exists k1, In k1 rest
                      /\ JSObject.inherited (group_name settings k1) = true).
    { destruct Hin as [<-|Hin]; [congruence|]. now exists k0. }
    assert (Hall' : forall k1, In k1 rest -> group_of settings k1 <> None).
    { intros k1 H1. apply Hall. now right. }
    destruct (grouped_get g n) eqn:Hget.
    + apply IH; try assumption. intros n'. rewrite grouped_push_names. apply Hg.
    + apply IH; try assumption. intros n'. rewrite grouped_push_names.
      intros Hin'.
      apply (Permutation_in _ (grouped_create_names g n)) in Hin'.
      destruct Hin' as [<-|Hin']; [exact Hi|now apply Hg].
Qed.

(** X14.  A group named like a member of [Object.prototype] breaks the
    context menu: when the groups of all keys are strings and one of them is
    such a name ("constructor", "toString", "__proto__", ...),
    [organizeSnippetsByGroup] throws a TypeError, and so does
    [addContextMenu]. *)
Theorem organizeSnippetsByGroup_throws (settings : Settings) :
  (forall k, In k (JSObject.keys (snippets settings)) ->
     group_of settings k <> None) ->
  (exists k, In k (JSObject.keys (snippets settings))
             /\ In (group_name settings k) JSObject.prototype_names) ->
  organizeSnippetsByGroup settings (JSObject.keys (snippets settings))
  = ThrowsTypeError
  /\ addContextMenu settings = ThrowsTypeError.
Proof.
  intros Hall (k & Hin & Hk).
  assert (E : organizeSnippetsByGroup settings (JSObject.keys (snippets settings))
              = ThrowsTypeError).
  { apply organize_fold_throws; [intros n []|exact Hall|].
    exists k. split; [exact Hin|]. now apply set_has_In. }
  split; [exact E|]. unfold addContextMenu. rewrite E.
  destruct (JSObject.keys (snippets settings)); [destruct Hin|reflexivity].
Qed.

Lemma organizeSnippetsByGroup_throws_witness :
  addContextMenu
    {| snippets := [ (js "a", js "A"); (js "b", js "B") ];
       icons := Some [ (js "a", js "stamp"); (js "b", js "stamp") ];
       groups := Some [ (js "a", []); (js "b", js "constructor") ] |}
  = ThrowsTypeError.
Proof.
  apply (organizeSnippetsByGroup_throws
           {| snippets := [ (js "a", js "A"); (js "b", js "B") ];
              icons := Some [ (js "a", js "stamp"); (js "b", js "stamp") ];
              groups := Some [ (js "a", []); (js "b", js "constructor") ] |}).
  - intros k [<-|[<-|[]]]; discriminate.
  - exists (js "b"). split; [right; now left|now left].
Defined.

(** ** ContextMenuManager: the menu *)

Lemma js_ltb_irrefl (a : jsstring) : js_ltb a a = false.
Proof.
  induction a as [|x a IH]; [reflexivity|]. cbn [js_ltb].
  now rewrite N.ltb_irrefl, N.eqb_refl, IH.
Qed.

Lemma js_ltb_asym (a b : jsstring) : js_ltb a b = true -> js_ltb b a = false.
Proof.
  revert b. induction a as [|x a IH]; intros [|y b]; cbn [js_ltb];
    try easy.
  intros H. apply orb_true_iff in H as [H|H].
  - apply N.ltb_lt in H.
    assert ((y <? x) = false) as -> by (apply N.ltb_ge; lia).
    assert ((y =? x) = false) as -> by (apply N.eqb_neq; lia). reflexivity.
  - apply andb_true_iff in H as [Hxy H]. apply N.eqb_eq in Hxy. subst y.
    now rewrite N.ltb_irrefl, N.eqb_refl, (IH b H).
Qed.

Lemma js_ltb_total (a b : jsstring) :
  js_ltb a b = false -> js_ltb b a = false -> a = b.
Proof.
  revert b. induction a as [|x a IH]; intros [|y b]; cbn [js_ltb];
    try easy.
  intros H1 H2.
  apply orb_false_iff in H1 as [H1 H1'], H2 as [H2 H2'].
  apply N.ltb_ge in H1, H2. assert (x = y) by lia. subst y.
  rewrite N.eqb_refl in H1', H2'. cbn [andb] in H1', H2'.
  now rewrite (IH b H1' H2').
Qed.

Lemma sort_insert_perm (x : jsstring) (l : list jsstring) :
  Permutation (sort_insert x l) (x :: l).
Proof.
  induction l as [|y l IH]; cbn [sort_insert]; [reflexivity|].
  destruct (js_ltb y x); [|reflexivity].
  rewrite IH. apply perm_swap.
Qed.

Lemma js_sort_perm (l : list jsstring) : Permutation (js_sort l) l.
Proof.
  induction l as [|x l IH]; [reflexivity|]. cbn [js_sort fold_right].
  fold (js_sort l). rewrite sort_insert_perm. now constructor.
Qed.

Lemma sort_insert_sorted (x : jsstring) (l : list jsstring) :
  Sorted (fun a b => js_ltb b a = false) l ->
  Sorted (fun a b => js_ltb b a = false) (sort_insert x l).
Proof.
  induction l as [|y l IH]; intros H; cbn [sort_insert].
  - repeat constructor.
  - inversion H as [|? ? Hs Hhd]; subst.
    destruct (js_ltb y x) eqn:E.
    + constructor; [now apply IH|].
      destruct l as [|z l]; cbn [sort_insert].
      * constructor. now apply js_ltb_asym.
      * inversion Hhd; subst.
        destruct (js_ltb z x); constructor;
          [assumption|now apply js_ltb_asym].
    + constructor; [exact H|]. now constructor.
Qed.

Lemma js_sort_sorted (l : list jsstring) :
  Sorted (fun a b => js_ltb b a = false) (js_sort l).
Proof.
  induction l as [|x l IH]; [constructor|]. now apply sort_insert_sorted.
Qed.

Lemma sorted_strict (l : list jsstring) :
  Sorted (fun a b => js_ltb b a = false) l -> NoDup l ->
  Sorted (fun a b => js_ltb a b = true) l.
Proof.
  induction 1 as [|a l Hs IH Hhd]; intros Hnd; [constructor|].
  inversion Hnd as [|? ? Hnotin Hnd']; subst.
  constructor; [now apply IH|].
  destruct Hhd as [|b l Hab]; constructor.
  destruct (js_ltb a b) eqn:E; [reflexivity|].
  elim Hnotin. left. symmetry. now apply js_ltb_total.
Qed.

Lemma filter_other_group (f : jsstring -> jsstring) (n n' : jsstring)
    (ks : list jsstring) :
  n' <> n ->
  filter (fun k => jseq (f k) n') (filter (fun k => negb (jseq (f k) n)) ks)
  = filter (fun k => jseq (f k) n') ks.
Proof.
  intros Hne. induction ks as [|k ks IH]; [reflexivity|]. cbn [filter].
  destruct (jseq (f k) n) eqn:E; cbn [negb filter]; [|now rewrite IH].
  apply jseq_eq in E. rewrite E.
  now assert (jseq n n' = false) as -> by (apply jseq_neq; congruence).
Qed.

Lemma filter_split_perm (p : jsstring -> bool) (ks : list jsstring) :
  Permutation (filter p ks ++ filter (fun k => negb (p k)) ks) ks.
Proof.
  induction ks as [|k ks IH]; [reflexivity|]. cbn [filter].
  destruct (p k); cbn [negb app].
  - now constructor.
  - symmetry. apply Permutation_cons_app. now symmetry.
Qed.

(** Filing every key under its group loses and repeats nothing. *)
Lemma groups_partition (f : jsstring -> jsstring) (names ks : list jsstring) :
  NoDup names ->
  (forall k, In k ks -> In (f k) names) ->
  Permutation (flat_map (fun n => filter (fun k => jseq (f k) n) ks) names) ks.
Proof.
  revert ks. induction names as [|n names IH]; intros ks Hnd Hall.
  - destruct ks as [|k ks]; [reflexivity|]. destruct (Hall k (or_introl eq_refl)).
  - inversion Hnd as [|? ? Hnotin Hnd']; subst. cbn [flat_map].
    rewrite <- (filter_split_perm (fun k => jseq (f k) n) ks) at 2.
    apply Permutation_app_head.
    rewrite <- (IH (filter (fun k => negb (jseq (f k) n)) ks) Hnd').
    + clear -Hnotin. induction names as [|n' names IH]; [reflexivity|].
      cbn [flat_map]. rewrite filter_other_group.
      * rewrite IH; [reflexivity|]. intros H. apply Hnotin. now right.
      * intros ->. apply Hnotin. now left.
    + intros k Hk. apply filter_In in Hk as [Hk Hn].
      apply negb_true_iff, jseq_neq in Hn.
      destruct (Hall k Hk) as [E|H]; [congruence|exact H].
Qed.

Lemma folder_names_spec (g : Grouped) :
  NoDup (map fst g) ->
  NoDup (folder_names g)
  /\ (forall n, In n (folder_names g) <-> In n (map fst g) /\ n <> []).
Proof.
  intros Hnd. unfold folder_names. split.
  - apply (Permutation_NoDup (l := filter (fun n => negb (is_empty n)) (map fst g))).
    + symmetry. apply js_sort_perm.
    + now apply NoDup_filter.
  - intros n. split.
    + intros H. apply (Permutation_in _ (js_sort_perm _)) in H.
      apply filter_In in H as [H1 H2]. split; [exact H1|].
      intros ->. discriminate.
    + intros [H1 H2]. apply (Permutation_in _ (Permutation_sym (js_sort_perm _))).
      apply filter_In. split; [exact H1|]. now destruct n.
Qed.

Lemma addContextMenu_nonempty (settings : Settings) :
  JSObject.keys (snippets settings) <> [] ->
  addContextMenu settings
  = match organizeSnippetsByGroup settings (JSObject.keys (snippets settings)) with
    | Returns g => Returns (InsertiveSubmenu (submenu_items settings g))
    | ThrowsTypeError => ThrowsTypeError
    | Unmodelled => Unmodelled
    end.
Proof.
  intros H. unfold addContextMenu.
  destruct (JSObject.keys (snippets settings)); [now elim H|reflexivity].
Qed.

Lemma is_nil_sort_insert (x : jsstring) (l : list jsstring) :
  is_nil (sort_insert x l) = false.
Proof. destruct l as [|y l]; cbn [sort_insert]; [|destruct (js_ltb y x)]; reflexivity. Qed.

Lemma folder_names_nil (g : Grouped) :
  existsb (fun n => negb (is_empty n)) (map fst g) = negb (is_nil (folder_names g)).
Proof.
  unfold folder_names. induction (map fst g) as [|n l IH]; [reflexivity|].
  cbn [existsb filter]. destruct (negb (is_empty n)); cbn [orb]; [|exact IH].
  cbn [js_sort fold_right]. now rewrite is_nil_sort_insert.
Qed.

(** X15.  The context menu.  With no snippets the menu gets one disabled
    item.  Otherwise, when every key has a group that is a string and no
    group is named like a member of [Object.prototype], the submenu is, from
    top to bottom: an item for every ungrouped key, in the order of the
    settings; a separator when there are both ungrouped keys and folders;
    one folder per group that occurs, the folders in ascending order of
    their names and each holding exactly the keys of its group in the order
    of the settings; a separator and the "Manage Snippets..." item.  Every
    snippet key is listed exactly once. *)
Theorem addContextMenu_entries (settings : Settings) :
  (forall k, In k (JSObject.keys (snippets settings)) ->
     exists n, group_of settings k = Some n /\ JSObject.inherited n = false) ->
  (JSObject.keys (snippets settings) = [] ->
   addContextMenu settings = Returns DisabledInsertive)
  /\ (JSObject.keys (snippets settings) <> [] ->
      exists names,
        addContextMenu settings
        = Returns
            (InsertiveSubmenu
               (map (fun k => SnippetItem (snippet_entry settings k))
                  (keys_in_group settings [])
                ++ (if is_nil (keys_in_group settings []) || is_nil names
                    then [] else [Separator])
                ++ map (fun n => Folder n (map (snippet_entry settings)
                                             (keys_in_group settings n)))
                     names
                ++ [Separator; ManageSnippets]))
        /\ Sorted (fun a b => js_ltb a b = true) names
        /\ (forall n, In n names
                      <-> n <> []
                          /\ exists k, In k (JSObject.keys (snippets settings))
                                       /\ group_name settings k = n)
        /\ Permutation
             (keys_in_group settings []
              ++ flat_map (keys_in_group settings) names)
             (JSObject.keys (snippets settings))).
Proof.
  intros Hall. split.
  { intros Hnil. unfold addContextMenu. now rewrite Hnil. }
  intros Hne.
  destruct (organize_ok settings _ Hall) as (g & E & Hg).
  destruct (folder_names_spec g (proj1 Hg)) as [Hnd Hnames].
  exists (folder_names g). split; [|split; [|split]].
  - rewrite (addContextMenu_nonempty settings Hne), E.
    unfold submenu_items, keys_in_group.
    rewrite (grouped_for_bucket settings _ g [] Hg), folder_names_nil.
    assert (Hfolders :
      map (fun n => Folder n (map (snippet_entry settings) (bucket g n)))
        (folder_names g)
      = map (fun n => Folder n
                        (map (snippet_entry settings)
                           (filter (fun k => jseq (group_name settings k) n)
                              (JSObject.keys (snippets settings)))))
          (folder_names g)).
    { apply map_ext. intros n.
      now rewrite (grouped_for_bucket settings _ g n Hg). }
    rewrite Hfolders.
    now destruct (is_nil (filter _ _)), (is_nil (folder_names g)).
  - apply sorted_strict; [apply js_sort_sorted|exact Hnd].
  - intros n. rewrite Hnames, (grouped_for_names settings _ g n Hg). tauto.
  - apply (groups_partition (group_name settings) ([] :: folder_names g)).
    + constructor; [|exact Hnd]. intros H. apply Hnames in H. now destruct H.
    + intros k Hk. destruct (group_name settings k) as [|c n] eqn:En;
        [now left|right].
      apply Hnames. split; [|discriminate].
      apply (grouped_for_names settings _ g _ Hg). now exists k.
Qed.

Lemma addContextMenu_entries_witness :
  exists names,
    addContextMenu
      {| snippets := [ (js "a", js "A"); (js "b", js "B"); (js "c", js "C");
                       (js "d", js "D") ];
         icons := None;
         groups := Some [ (js "a", js "Zeta"); (js "b", []); (js "c", js "Alpha");
                          (js "d", js "Zeta") ] |}
    = Returns
        (InsertiveSubmenu
           ([ SnippetItem {| entry_title := js "b";
                             entry_icon := JSObject.Str DEFAULT_ICON |} ]
            ++ (if is_nil names then [] else [Separator])
            ++ map (fun n => Folder n
                      (map (snippet_entry
      {| snippets := [ (js "a", js "A"); (js "b", js "B"); (js "c", js "C");
                       (js "d", js "D") ];
         icons := None;
         groups := Some [ (js "a", js "Zeta"); (js "b", []); (js "c", js "Alpha");
                          (js "d", js "Zeta") ] |})
                         (keys_in_group
      {| snippets := [ (js "a", js "A"); (js "b", js "B"); (js "c", js "C");
                       (js "d", js "D") ];
         icons := None;
         groups := Some [ (js "a", js "Zeta"); (js "b", []); (js "c", js "Alpha");
                          (js "d", js "Zeta") ] |} n)))
                 names
            ++ [Separator; ManageSnippets]))
    /\ In (js "Alpha") names /\ In (js "Zeta") names
    /\ Sorted (fun a b => js_ltb a b = true) names.
Proof.
  destruct (addContextMenu_entries
      {| snippets := [ (js "a", js "A"); (js "b", js "B"); (js "c", js "C");
                       (js "d", js "D") ];
         icons := None;
         groups := Some [ (js "a", js "Zeta"); (js "b", []); (js "c", js "Alpha");
                          (js "d", js "Zeta") ] |})
    as [_ H].
  - intros k [<-|[<-|[<-|[<-|[]]]]];
      [exists (js "Zeta")|exists []|exists (js "Alpha")|exists (js "Zeta")];
      split; reflexivity.
  - destruct H as (names & E & Hs & Hn & _); [discriminate|].
    exists names. split; [exact E|split; [|split]].
    + apply Hn. split; [discriminate|]. exists (js "c"). split; [|reflexivity].
      cbn. tauto.
    + apply Hn. split; [discriminate|]. exists (js "a"). split; [|reflexivity].
      cbn. tauto.
    + exact Hs.
Defined.

(** ** Drag to reorder *)

Lemma rebuild_fold (o : JSObject.t) (ks : list jsstring) (acc : JSObject.t) :
  NoDup ks ->
  (forall k, In k ks ->
     JSObject.get_own acc k = None /\ JSObject.array_index k = None
     /\ jseq k JSObject.PROTO = false /\ JSObject.get_own o k <> None) ->
  exists vs,
    fold_left
      (fun a k =>
         match a, JSObject.get_own o k with
         | Some fresh, Some v => Some (JSObject.set fresh k v)
         | _, _ => None
         end) ks (Some acc)
    = Some (acc ++ vs)
    /\ map fst vs = ks
    /\ (forall k v, In (k, v) vs -> JSObject.get_own o k = Some v).
Proof.
  revert acc. induction ks as [|k ks IH]; intros acc Hnd Hall.
  - exists []. rewrite app_nil_r. repeat split. intros k v [].
  - inversion Hnd as [|? ? Hnotin Hnd']; subst.
    destruct (Hall k (or_introl eq_refl)) as (Hacc & Hidx & Hproto & Hown).
    destruct (JSObject.get_own o k) as [v|] eqn:Hv; [|congruence].
    cbn [fold_left]. rewrite Hv.
    rewrite (set_new_plain acc k v Hacc Hproto Hidx).
    destruct (IH (acc ++ [(k, v)]) Hnd') as (vs & E & Hkeys & Hvals).
    { intros k' Hk'. destruct (Hall k' (or_intror Hk')) as (H1 & H2 & H3 & H4).
      repeat split; try assumption.
      rewrite get_own_app_other; [exact H1|]. intros ->. contradiction. }
    exists ((k, v) :: vs). rewrite E, <- app_assoc. repeat split.
    + cbn [map fst]. now rewrite Hkeys.
    + intros k' v' [[= <- <-]|Hin]; [exact Hv|now apply Hvals].
Qed.

Lemma get_own_assoc (vs : JSObject.t) (k v : jsstring) :
  NoDup (map fst vs) -> In (k, v) vs -> JSObject.get_own vs k = Some v.
Proof.
  induction vs as [|[k' v'] vs IH]; intros Hnd Hin; [destruct Hin|].
  inversion Hnd as [|? ? Hnotin Hnd']; subst. cbn [JSObject.get_own].
  destruct Hin as [[= -> ->]|Hin].
  - now rewrite jseq_refl.
  - destruct (jseq k' k) eqn:E; [|now apply IH].
    apply jseq_eq in E. subst k'. elim Hnotin.
    apply in_map_iff. now exists (k, v).
Qed.

Lemma rebuild_plain (o : JSObject.t) (ks : list jsstring) :
  NoDup ks ->
  (forall k, In k ks ->
     JSObject.array_index k = None /\ jseq k JSObject.PROTO = false
     /\ JSObject.get_own o k <> None) ->
  exists fresh,
    rebuild o ks = Some fresh
    /\ JSObject.keys fresh = ks
    /\ (forall k, In k ks -> JSObject.get_own fresh k = JSObject.get_own o k).
Proof.
  intros Hnd Hall.
  destruct (rebuild_fold o ks [] Hnd) as (vs & E & Hkeys & Hvals).
  { intros k Hk. destruct (Hall k Hk) as (H1 & H2 & H3). now repeat split. }
  exists vs. split; [exact E|]. split; [exact Hkeys|].
  intros k Hk. rewrite <- Hkeys in Hk, Hnd.
  apply in_map_iff in Hk as ([k' v] & <- & Hin). cbn [fst].
  rewrite (get_own_assoc vs k' v Hnd Hin). symmetry. now apply Hvals.
Qed.

Lemma remove_at_perm (i : nat) (x : jsstring) (l : list jsstring) :
  nth_error l i = Some x -> Permutation (x :: remove_at i l) l.
Proof.
  unfold remove_at. revert i. induction l as [|y l IH]; intros [|i] H;
    try discriminate.
  - cbn in H. injection H as ->. reflexivity.
  - cbn [nth_error] in H. cbn [firstn skipn app].
    rewrite perm_swap. constructor. now apply IH.
Qed.

Lemma insert_at_perm (i : nat) (x : jsstring) (l : list jsstring) :
  Permutation (insert_at i x l) (x :: l).
Proof.
  unfold insert_at. rewrite <- Permutation_middle.
  now rewrite firstn_skipn.
Qed.

Lemma insert_at_nth (i : nat) (x : jsstring) (l : list jsstring) :
  (i <= length l)%nat -> nth_error (insert_at i x l) i = Some x.
Proof.
  intros H. unfold insert_at.
  rewrite nth_error_app2 by (rewrite length_firstn; lia).
  rewrite length_firstn. replace (i - Nat.min i (length l))%nat with 0%nat by lia.
  reflexivity.
Qed.

Lemma remove_at_length (i : nat) (x : jsstring) (l : list jsstring) :
  nth_error l i = Some x -> length l = S (length (remove_at i l)).
Proof.
  intros H. apply remove_at_perm in H. apply Permutation_length in H.
  cbn [length] in H. lia.
Qed.

Lemma filter_not_in (x : jsstring) (l : list jsstring) :
  ~ In x l -> filter (fun k => negb (jseq k x)) l = l.
Proof.
  induction l as [|y l IH]; intros H; [reflexivity|]. cbn [filter].
  assert (jseq y x = false) as ->.
  { apply jseq_neq. intros ->. apply H. now left. }
  cbn [negb]. rewrite IH; [reflexivity|]. intros Hin. apply H. now right.
Qed.

Lemma remove_at_filter (i : nat) (x : jsstring) (l : list jsstring) :
  NoDup l -> nth_error l i = Some x ->
  remove_at i l = filter (fun k => negb (jseq k x)) l /\ ~ In x (remove_at i l).
Proof.
  unfold remove_at. revert i. induction l as [|y l IH]; intros [|i] Hnd H;
    try discriminate; inversion Hnd as [|? ? Hnotin Hnd']; subst.
  - cbn in H. injection H as ->. cbn [firstn skipn app filter].
    rewrite jseq_refl. cbn [negb]. now rewrite (filter_not_in x l Hnotin).
  - cbn [nth_error] in H. destruct (IH i Hnd' H) as [E Hx].
    cbn [firstn skipn app filter].
    assert (y <> x) as Hyx.
    { intros ->. apply Hnotin. now apply nth_error_In in H. }
    assert (jseq y x = false) as -> by now apply jseq_neq.
    cbn [negb]. split; [now rewrite <- E|].
    intros [Hin|Hin]; [contradiction|now apply Hx].
Qed.

Lemma insert_at_filter (i : nat) (x : jsstring) (l : list jsstring) :
  ~ In x l -> filter (fun k => negb (jseq k x)) (insert_at i x l) = l.
Proof.
  intros H. unfold insert_at. rewrite filter_app. cbn [filter].
  rewrite jseq_refl. cbn [negb]. rewrite <- filter_app, firstn_skipn.
  now apply filter_not_in.
Qed.

(** X16.  Dropping a row on another one.  With complete records and keys
    that are not array indices, the dragged key ends at the index of the
    row it was dropped on; the other keys keep their relative order; and
    every key keeps its text, icon and group. *)
Theorem drop_moves_key (settings : Settings) (fromIndex toIndex : nat)
    (movedKey : jsstring) (ic gr : JSObject.t) :
  icons settings = Some ic ->
  groups settings = Some gr ->
  complete settings ->
  NoDup (JSObject.keys (snippets settings)) ->
  (forall k, In k (JSObject.keys (snippets settings)) ->
     JSObject.array_index k = None /\ jseq k JSObject.PROTO = false) ->
  fromIndex <> toIndex ->
  nth_error (JSObject.keys (snippets settings)) fromIndex = Some movedKey ->
  (toIndex < length (JSObject.keys (snippets settings)))%nat ->
  exists s' i' g',
    drop settings fromIndex toIndex
    = Returns {| snippets := s'; icons := Some i'; groups := Some g' |}
    /\ JSObject.keys s'
       = insert_at toIndex movedKey
           (remove_at fromIndex (JSObject.keys (snippets settings)))
    /\ nth_error (JSObject.keys s') toIndex = Some movedKey
    /\ filter (fun k => negb (jseq k movedKey)) (JSObject.keys s')
       = filter (fun k => negb (jseq k movedKey))
           (JSObject.keys (snippets settings))
    /\ Permutation (JSObject.keys s') (JSObject.keys (snippets settings))
    /\ JSObject.keys i' = JSObject.keys s'
    /\ JSObject.keys g' = JSObject.keys s'
    /\ (forall k, In k (JSObject.keys (snippets settings)) ->
          JSObject.get_own s' k = JSObject.get_own (snippets settings) k
          /\ JSObject.get_own i' k = JSObject.get_own ic k
          /\ JSObject.get_own g' k = JSObject.get_own gr k).
Proof.
  intros Hi Hg Hc Hnd Hplain Hne Hfrom Hto.
  set (keys := JSObject.keys (snippets settings)) in *.
  set (keys' := insert_at toIndex movedKey (remove_at fromIndex keys)).
  assert (Hperm : Permutation keys' keys).
  { unfold keys'. rewrite insert_at_perm. now apply remove_at_perm. }
  assert (Hnd' : NoDup keys').
  { apply (Permutation_NoDup (l := keys)); [now symmetry|exact Hnd]. }
  assert (Hin' : forall k, In k keys' -> In k keys).
  { intros k. now apply Permutation_in. }
  assert (Hown : forall k, In k keys ->
            JSObject.get_own (snippets settings) k <> None).
  { intros k Hk. unfold keys, JSObject.keys in Hk.
    apply in_map_iff in Hk as ([k' v] & <- & Hin). cbn [fst].
    clear -Hin. induction (snippets settings) as [|[k0 v0] o IH];
      [destruct Hin|]. cbn [JSObject.get_own].
    destruct (jseq k0 k') eqn:E; [discriminate|].
    destruct Hin as [[= -> ->]|Hin]; [|now apply IH].
    rewrite jseq_refl in E. discriminate E. }
  assert (Hhas : forall k, In k keys ->
            JSObject.get_own ic k <> None /\ JSObject.get_own gr k <> None).
  { intros k Hk. specialize (Hown k Hk). specialize (Hc k).
    unfold has_own in Hc. rewrite Hi, Hg in Hc. cbn [JSObject.spread] in Hc.
    destruct (JSObject.get_own (snippets settings) k); [|congruence].
    destruct (Hc eq_refl) as [H1 H2].
    destruct (JSObject.get_own ic k), (JSObject.get_own gr k);
      try discriminate; split; congruence. }
  destruct (rebuild_plain (snippets settings) keys' Hnd') as (s' & Es & Ks & Vs).
  { intros k Hk. destruct (Hplain k (Hin' k Hk)). repeat split; auto. }
  destruct (rebuild_plain ic keys' Hnd') as (i' & Ei & Ki & Vi).
  { intros k Hk. destruct (Hplain k (Hin' k Hk)).
    repeat split; auto. now apply Hhas, Hin'. }
  destruct (rebuild_plain gr keys' Hnd') as (g' & Eg & Kg & Vg).
  { intros k Hk. destruct (Hplain k (Hin' k Hk)).
    repeat split; auto. now apply Hhas, Hin'. }
  exists s', i', g'.
  assert (Hk_in : forall k, In k keys -> In k keys').
  { intros k. apply Permutation_in. now symmetry. }
  destruct (remove_at_filter fromIndex movedKey keys Hnd Hfrom) as [Hrem Hnotin].
  repeat split.
  - unfold drop. fold keys.
    assert ((fromIndex =? toIndex)%nat = false) as -> by now apply Nat.eqb_neq.
    rewrite Hfrom, Hi, Hg. fold keys'. now rewrite Es, Ei, Eg.
  - exact Ks.
  - rewrite Ks. apply insert_at_nth.
    pose proof (remove_at_length fromIndex movedKey keys Hfrom). lia.
  - rewrite Ks. unfold keys'. rewrite (insert_at_filter _ _ _ Hnotin).
    exact Hrem.
  - now rewrite Ks.
  - now rewrite Ki, Ks.
  - now rewrite Kg, Ks.
  - now apply Vs, Hk_in.
  - now apply Vi, Hk_in.
  - now apply Vg, Hk_in.
Qed.

Lemma drop_moves_key_witness :
  exists s' i' g',
    drop {| snippets := [ (js "a", js "A"); (js "b", js "B"); (js "c", js "C") ];
            icons := Some [ (js "a", js "x"); (js "b", js "y"); (js "c", js "z") ];
            groups := Some [ (js "a", []); (js "b", []); (js "c", []) ] |}
      0 2
    = Returns {| snippets := s'; icons := Some i'; groups := Some g' |}
    /\ JSObject.keys s' = [js "b"; js "c"; js "a"].
Proof.
  destruct (drop_moves_key
      {| snippets := [ (js "a", js "A"); (js "b", js "B"); (js "c", js "C") ];
         icons := Some [ (js "a", js "x"); (js "b", js "y"); (js "c", js "z") ];
         groups := Some [ (js "a", []); (js "b", []); (js "c", []) ] |}
      0 2 (js "a") _ _ eq_refl eq_refl) as (s' & i' & g' & E & K & _).
  - intros k. unfold has_own.
    cbn [snippets icons groups JSObject.spread JSObject.get_own].
    destruct (jseq (js "a") k); [now split|].
    destruct (jseq (js "b") k); [now split|].
    destruct (jseq (js "c") k); [now split|discriminate].
  - repeat constructor; cbn [In]; intros H;
      repeat (destruct H as [H|H]; try discriminate H); exact H.
  - intros k [<-|[<-|[<-|[]]]]; split; reflexivity.
  - discriminate.
  - reflexivity.
  - cbn [JSObject.keys map length snippets]. lia.
  - exists s', i', g'. split; [exact E|exact K].
Defined.

Lemma keys_insert_index_perm (i : N) (o : JSObject.t) (k v : jsstring) :
  Permutation (JSObject.keys (JSObject.insert_index i k v o))
              (JSObject.keys o ++ [k]).
Proof.
  unfold JSObject.keys. induction o as [|[k' v'] o IH];
    cbn [JSObject.insert_index]; [reflexivity|].
  assert (Permutation (map fst ((k, v) :: (k', v') :: o))
                      (map fst ((k', v') :: o) ++ [k])) as Hcons.
  { cbn [map fst]. rewrite <- Permutation_cons_append. reflexivity. }
  destruct (JSObject.array_index k') as [j|]; [|exact Hcons].
  destruct (j <? i); [|exact Hcons].
  cbn [map fst app]. now constructor.
Qed.

Lemma keys_insert_index_plain (i : N) (o : JSObject.t) (k v : jsstring) :
  is_index k = true ->
  filter not_index (JSObject.keys (JSObject.insert_index i k v o))
  = filter not_index (JSObject.keys o).
Proof.
  intros Hk. unfold JSObject.keys.
  assert (forall o', filter not_index (map fst ((k, v) :: o'))
                     = filter not_index (map fst o')) as Hcons.
  { intros o'. cbn [map fst filter]. unfold not_index at 1. now rewrite Hk. }
  induction o as [|[k' v'] o IH]; cbn [JSObject.insert_index]; [apply Hcons|].
  destruct (JSObject.array_index k') as [j|]; [|apply Hcons].
  destruct (j <? i); [|apply Hcons].
  cbn [map fst filter]. now rewrite IH.
Qed.

Lemma keys_set_new (o : JSObject.t) (k v : jsstring) :
  JSObject.get_own o k = None ->
  jseq k JSObject.PROTO = false ->
  Permutation (JSObject.keys (JSObject.set o k v)) (JSObject.keys o ++ [k])
  /\ filter not_index (JSObject.keys (JSObject.set o k v))
     = filter not_index (JSObject.keys o ++ [k]).
Proof.
  intros Hown Hproto. unfold JSObject.set. rewrite Hown, Hproto.
  destruct (JSObject.array_index k) as [i|] eqn:Hidx.
  - split; [apply keys_insert_index_perm|].
    assert (is_index k = true) as Hk by (unfold is_index; now rewrite Hidx).
    rewrite keys_insert_index_plain by exact Hk.
    rewrite filter_app. cbn [filter]. unfold not_index at 3. rewrite Hk.
    cbn [negb]. now rewrite app_nil_r.
  - unfold JSObject.keys. rewrite map_app. now split.
Qed.

Lemma keys_insert_index_congr (i : N) (o1 o2 : JSObject.t) (k v1 v2 : jsstring) :
  JSObject.keys o1 = JSObject.keys o2 ->
  JSObject.keys (JSObject.insert_index i k v1 o1)
  = JSObject.keys (JSObject.insert_index i k v2 o2).
Proof.
  unfold JSObject.keys. revert o2.
  induction o1 as [|[k1 w1] o1 IH]; intros [|[k2 w2] o2] H; try discriminate;
    [reflexivity|].
  cbn [map fst] in H. injection H as -> H. cbn [JSObject.insert_index].
  destruct (JSObject.array_index k2) as [j|];
    [destruct (j <? i)|]; cbn [map fst]; rewrite ?H; try reflexivity.
  now rewrite (IH o2 H).
Qed.

Lemma has_own_keys (o : JSObject.t) (k : jsstring) :
  has_own o k = existsb (fun k' => jseq k' k) (JSObject.keys o).
Proof.
  unfold has_own, JSObject.keys. induction o as [|[k' v'] o IH]; [reflexivity|].
  cbn [JSObject.get_own map fst existsb]. now destruct (jseq k' k).
Qed.

Lemma keys_set_congr (o1 o2 : JSObject.t) (k v1 v2 : jsstring) :
  JSObject.keys o1 = JSObject.keys o2 ->
  JSObject.keys (JSObject.set o1 k v1) = JSObject.keys (JSObject.set o2 k v2).
Proof.
  intros H.
  assert (has_own o1 k = has_own o2 k) as Hh by now rewrite !has_own_keys, H.
  unfold has_own in Hh. unfold JSObject.set.
  destruct (JSObject.get_own o1 k), (JSObject.get_own o2 k); try discriminate.
  - now rewrite !keys_update.
  - destruct (jseq k JSObject.PROTO); [exact H|].
    destruct (JSObject.array_index k) as [i|].
    + now apply keys_insert_index_congr.
    + unfold JSObject.keys in *. now rewrite !map_app, H.
Qed.

Lemma rebuild_general (o : JSObject.t) (ks : list jsstring) (acc : JSObject.t) :
  NoDup ks ->
  (forall k, In k ks ->
     JSObject.get_own acc k = None /\ jseq k JSObject.PROTO = false
     /\ JSObject.get_own o k <> None) ->
  JSObject.ordered acc = true ->
  exists fresh,
    fold_left
      (fun a k =>
         match a, JSObject.get_own o k with
         | Some fresh, Some v => Some (JSObject.set fresh k v)
         | _, _ => None
         end) ks (Some acc)
    = Some fresh
    /\ Permutation (JSObject.keys fresh) (JSObject.keys acc ++ ks)
    /\ filter not_index (JSObject.keys fresh)
       = filter not_index (JSObject.keys acc ++ ks)
    /\ (forall k, In k ks -> JSObject.get_own fresh k = JSObject.get_own o k)
    /\ (forall k, ~ In k ks -> JSObject.get_own fresh k = JSObject.get_own acc k)
    /\ JSObject.ordered fresh = true.
Proof.
  revert acc. induction ks as [|k ks IH]; intros acc Hnd Hall Hord.
  - exists acc. rewrite app_nil_r. repeat split; try easy.
  - inversion Hnd as [|? ? Hnotin Hnd']; subst.
    destruct (Hall k (or_introl eq_refl)) as (Hacc & Hproto & Hown).
    destruct (JSObject.get_own o k) as [v|] eqn:Hv; [|congruence].
    cbn [fold_left]. rewrite Hv.
    destruct (keys_set_new acc k v Hacc Hproto) as [Hperm Hfilter].
    destruct (IH (JSObject.set acc k v) Hnd')
      as (fresh & E & Hp & Hf & Hin & Hout & Ho).
    { intros k' Hk'. destruct (Hall k' (or_intror Hk')) as (H1 & H2 & H3).
      repeat split; try assumption.
      rewrite get_own_set_other; [exact H1|]. intros ->. contradiction. }
    { now apply ordered_set. }
    exists fresh. split; [exact E|]. split; [|split; [|split; [|split]]].
    + rewrite Hp, Hperm, <- app_assoc. reflexivity.
    + rewrite Hf, filter_app, Hfilter, <- filter_app, <- app_assoc. reflexivity.
    + intros k' [<-|Hk']; [|now apply Hin].
      rewrite (Hout k Hnotin), Hv. apply get_own_set_same. now right.
    + intros k' Hk'. rewrite Hout by (intros H; apply Hk'; now right).
      apply get_own_set_other. intros ->. apply Hk'. now left.
    + exact Ho.
Qed.

Lemma rebuild_keys_congr (o1 o2 : JSObject.t) (ks : list jsstring)
    (acc1 acc2 fresh1 fresh2 : JSObject.t) :
  JSObject.keys acc1 = JSObject.keys acc2 ->
  fold_left
    (fun a k =>
       match a, JSObject.get_own o1 k with
       | Some fresh, Some v => Some (JSObject.set fresh k v)
       | _, _ => None
       end) ks (Some acc1) = Some fresh1 ->
  fold_left
    (fun a k =>
       match a, JSObject.get_own o2 k with
       | Some fresh, Some v => Some (JSObject.set fresh k v)
       | _, _ => None
       end) ks (Some acc2) = Some fresh2 ->
  JSObject.keys fresh1 = JSObject.keys fresh2.
Proof.
  revert acc1 acc2. induction ks as [|k ks IH]; intros acc1 acc2 Hk E1 E2.
  - cbn in E1, E2. congruence.
  - cbn [fold_left] in E1, E2.
    destruct (JSObject.get_own o1 k) as [v1|].
    2:{ exfalso. clear -E1. induction ks as [|k' ks IH']; [discriminate|].
        now apply IH'. }
    destruct (JSObject.get_own o2 k) as [v2|].
    2:{ exfalso. clear -E2. induction ks as [|k' ks IH']; [discriminate|].
        now apply IH'. }
    apply (IH _ _ (keys_set_congr acc1 acc2 k v1 v2 Hk) E1 E2).
Qed.

Lemma ordered_index_values (lo : N) (o : JSObject.t) :
  JSObject.ordered_from lo o = true ->
  StronglySorted N.lt (index_values (JSObject.keys o))
  /\ Forall (fun i => lo <= i) (index_values (JSObject.keys o)).
Proof.
  unfold JSObject.keys, index_values. revert lo.
  induction o as [|[k v] o IH]; intros lo H.
  - split; constructor.
  - cbn [JSObject.ordered_from] in H. cbn [map fst flat_map].
    destruct (JSObject.array_index k) as [i|] eqn:Hk.
    + apply andb_true_iff in H as [Hlo Ho]. apply N.leb_le in Hlo.
      destruct (IH _ Ho) as [Hs Hf]. cbn [app]. split.
      * constructor; [exact Hs|].
        eapply Forall_impl; [|exact Hf]. cbn. intros; lia.
      * constructor; [exact Hlo|].
        eapply Forall_impl; [|exact Hf]. cbn. intros; lia.
    + cbn [app].
      assert (flat_map (fun k0 => match JSObject.array_index k0 with
                                  | Some i => [i]
                                  | None => []
                                  end) (map fst o) = []) as ->.
      { clear -H. induction o as [|[k' v'] o IH]; [reflexivity|].
        cbn [JSObject.no_index forallb fst] in H. cbn [map fst flat_map].
        destruct (JSObject.array_index k'); [discriminate|].
        cbn [andb] in H. now rewrite (IH H). }
      split; constructor.
Qed.

Lemma filter_index_values (ks : list jsstring) :
  filter is_index ks = map decimal (index_values ks).
Proof.
  unfold index_values. induction ks as [|k ks IH]; [reflexivity|].
  cbn [filter flat_map]. unfold is_index at 1.
  destruct (JSObject.array_index k) as [i|] eqn:Hk; [|exact IH].
  cbn [app map]. now rewrite IH, (array_index_decimal k i Hk).
Qed.

Lemma index_values_perm (ks1 ks2 : list jsstring) :
  Permutation ks1 ks2 -> Permutation (index_values ks1) (index_values ks2).
Proof.
  unfold index_values. induction 1 as [|k l l' _ IH|k k' l|l l' l'' _ IH1 _ IH2].
  - reflexivity.
  - cbn [flat_map]. now apply Permutation_app_head.
  - cbn [flat_map]. rewrite !app_assoc. apply Permutation_app_tail.
    apply Permutation_app_comm.
  - now rewrite IH1.
Qed.

Lemma sorted_perm_eq (l1 l2 : list N) :
  StronglySorted N.lt l1 -> StronglySorted N.lt l2 ->
  Permutation l1 l2 -> l1 = l2.
Proof.
  revert l2. induction l1 as [|a l1 IH]; intros l2 H1 H2 Hp.
  - apply Permutation_nil in Hp. now subst.
  - destruct l2 as [|b l2].
    { symmetry in Hp. apply Permutation_nil in Hp. discriminate. }
    apply StronglySorted_inv in H1 as [H1 Ha].
    apply StronglySorted_inv in H2 as [H2 Hb].
    rewrite Forall_forall in Ha, Hb.
    assert (a = b) as ->.
    { assert (In a (b :: l2)) as Hia
        by (eapply Permutation_in; [exact Hp|now left]).
      assert (In b (a :: l1)) as Hib
        by (eapply Permutation_in; [symmetry; exact Hp|now left]).
      destruct Hia as [->|Hia]; [reflexivity|].
      destruct Hib as [->|Hib]; [reflexivity|].
      specialize (Ha _ Hib). specialize (Hb _ Hia). lia. }
    f_equal. apply IH; try assumption. now apply Permutation_cons_inv in Hp.
Qed.

Lemma ordered_index_keys_unique (o1 o2 : JSObject.t) :
  JSObject.ordered o1 = true -> JSObject.ordered o2 = true ->
  Permutation (JSObject.keys o1) (JSObject.keys o2) ->
  filter is_index (JSObject.keys o1) = filter is_index (JSObject.keys o2).
Proof.
  intros H1 H2 Hp. rewrite !filter_index_values. f_equal.
  apply sorted_perm_eq.
  - now apply (ordered_index_values 0).
  - now apply (ordered_index_values 0).
  - now apply index_values_perm.
Qed.

Lemma get_own_in_keys (o : JSObject.t) (k : jsstring) :
  In k (JSObject.keys o) -> JSObject.get_own o k <> None.
Proof.
  unfold JSObject.keys. induction o as [|[k' v'] o IH]; [intros []|].
  cbn [map fst JSObject.get_own]. intros [->|Hin].
  - now rewrite jseq_refl.
  - destruct (jseq k' k); [discriminate|now apply IH].
Qed.

(** X17.  Array-index keys cannot be dragged.  After a drop the keys that
    are array indices stand where they stood, in numeric order before all
    other keys, whichever row was moved; only the other keys take the order
    of the rows.  The three maps are rebuilt over the same keys, in the
    order in which the language enumerates them. *)
Theorem drop_index_keys_stay (settings : Settings) (fromIndex toIndex : nat)
    (movedKey : jsstring) (ic gr : JSObject.t) :
  icons settings = Some ic ->
  groups settings = Some gr ->
  complete settings ->
  NoDup (JSObject.keys (snippets settings)) ->
  (forall k, In k (JSObject.keys (snippets settings)) ->
     jseq k JSObject.PROTO = false) ->
  JSObject.ordered (snippets settings) = true ->
  fromIndex <> toIndex ->
  nth_error (JSObject.keys (snippets settings)) fromIndex = Some movedKey ->
  exists s' i' g',
    drop settings fromIndex toIndex
    = Returns {| snippets := s'; icons := Some i'; groups := Some g' |}
    /\ filter is_index (JSObject.keys s')
       = filter is_index (JSObject.keys (snippets settings))
    /\ filter not_index (JSObject.keys s')
       = filter not_index
           (insert_at toIndex movedKey
              (remove_at fromIndex (JSObject.keys (snippets settings))))
    /\ JSObject.keys i' = JSObject.keys s'
    /\ JSObject.keys g' = JSObject.keys s'
    /\ settings_ordered {| snippets := s'; icons := Some i'; groups := Some g' |}
    /\ (forall k, In k (JSObject.keys (snippets settings)) ->
          JSObject.get_own s' k = JSObject.get_own (snippets settings) k
          /\ JSObject.get_own i' k = JSObject.get_own ic k
          /\ JSObject.get_own g' k = JSObject.get_own gr k).
Proof.
  intros Hi Hg Hc Hnd Hproto Hord Hne Hfrom.
  set (keys := JSObject.keys (snippets settings)) in *.
  set (keys' := insert_at toIndex movedKey (remove_at fromIndex keys)).
  assert (Hperm : Permutation keys' keys).
  { unfold keys'. rewrite insert_at_perm. now apply remove_at_perm. }
  assert (Hnd' : NoDup keys').
  { apply (Permutation_NoDup (l := keys)); [now symmetry|exact Hnd]. }
  assert (Hin' : forall k, In k keys' -> In k keys).
  { intros k. now apply Permutation_in. }
  assert (Hk_in : forall k, In k keys -> In k keys').
  { intros k. apply Permutation_in. now symmetry. }
  assert (Hhas : forall k, In k keys ->
            JSObject.get_own ic k <> None /\ JSObject.get_own gr k <> None).
  { intros k Hk. pose proof (get_own_in_keys _ _ Hk) as Hown.
    specialize (Hc k).
    unfold has_own in Hc. rewrite Hi, Hg in Hc. cbn [JSObject.spread] in Hc.
    destruct (JSObject.get_own (snippets settings) k); [|congruence].
    destruct (Hc eq_refl) as [H1 H2].
    destruct (JSObject.get_own ic k), (JSObject.get_own gr k);
      try discriminate; split; congruence. }
  destruct (rebuild_general (snippets settings) keys' [] Hnd')
    as (s' & Es & Ps & Fs & Vs & _ & Os); [|reflexivity|].
  { intros k Hk. repeat split; [now apply Hproto, Hin'|].
    now apply get_own_in_keys, Hin'. }
  destruct (rebuild_general ic keys' [] Hnd')
    as (i' & Ei & _ & _ & Vi & _ & Oi); [|reflexivity|].
  { intros k Hk. repeat split; [now apply Hproto, Hin'|]. now apply Hhas, Hin'. }
  destruct (rebuild_general gr keys' [] Hnd')
    as (g' & Eg & _ & _ & Vg & _ & Og); [|reflexivity|].
  { intros k Hk. repeat split; [now apply Hproto, Hin'|]. now apply Hhas, Hin'. }
  cbn [JSObject.keys map app] in Ps, Fs.
  exists s', i', g'. split; [|split; [|split; [|split; [|split; [|split]]]]].
  - unfold drop. fold keys.
    assert ((fromIndex =? toIndex)%nat = false) as -> by now apply Nat.eqb_neq.
    rewrite Hfrom, Hi, Hg. fold keys'. unfold rebuild, JSObject.empty.
    now rewrite Es, Ei, Eg.
  - apply ordered_index_keys_unique; [exact Os|exact Hord|].
    now rewrite Ps.
  - exact Fs.
  - now apply (rebuild_keys_congr ic (snippets settings) keys' [] [] i' s').
  - now apply (rebuild_keys_congr gr (snippets settings) keys' [] [] g' s').
  - now repeat split.
  - intros k Hk. repeat split; [apply Vs|apply Vi|apply Vg]; now apply Hk_in.
Qed.

Lemma drop_index_keys_stay_witness :
  exists s' i' g',
    drop {| snippets := [ (js "1", js "one"); (js "a", js "A"); (js "b", js "B") ];
            icons := Some [ (js "1", js "x"); (js "a", js "y"); (js "b", js "z") ];
            groups := Some [ (js "1", []); (js "a", []); (js "b", []) ] |}
      0 2
    = Returns {| snippets := s'; icons := Some i'; groups := Some g' |}
    /\ filter is_index (JSObject.keys s') = [js "1"]
    /\ filter not_index (JSObject.keys s') = [js "a"; js "b"].
Proof.
  destruct (drop_index_keys_stay
      {| snippets := [ (js "1", js "one"); (js "a", js "A"); (js "b", js "B") ];
         icons := Some [ (js "1", js "x"); (js "a", js "y"); (js "b", js "z") ];
         groups := Some [ (js "1", []); (js "a", []); (js "b", []) ] |}
      0 2 (js "1") _ _ eq_refl eq_refl)
    as (s' & i' & g' & E & KI & KN & _).
  - intros k. unfold has_own.
    cbn [snippets icons groups JSObject.spread JSObject.get_own].
    destruct (jseq (js "1") k); [now split|].
    destruct (jseq (js "a") k); [now split|].
    destruct (jseq (js "b") k); [now split|discriminate].
  - repeat constructor; cbn [In]; intros H;
      repeat (destruct H as [H|H]; try discriminate H); exact H.
  - intros k [<-|[<-|[<-|[]]]]; reflexivity.
  - reflexivity.
  - discriminate.
  - reflexivity.
  - exists s', i', g'. split; [exact E|]. split; [exact KI|exact KN].
Defined.

(** ** Loading the settings *)

Lemma backfill_keeps (ks : list jsstring) (v : jsstring) (acc : JSObject.t)
    (k : jsstring) :
  JSObject.get_own acc k = Some v ->
  JSObject.get_own (fold_left (fun fresh k' => JSObject.set fresh k' v) ks acc) k
  = Some v.
Proof.
  revert acc. induction ks as [|k' ks IH]; intros acc H; [exact H|].
  cbn [fold_left]. apply IH. destruct (jseq k' k) eqn:E.
  - apply jseq_eq in E. subst k'. apply get_own_set_same. left. congruence.
  - apply jseq_neq in E. rewrite get_own_set_other by congruence. exact H.
Qed.

Lemma backfill_fold_keys (ks : list jsstring) (v : jsstring) (acc : JSObject.t)
    (k : jsstring) :
  JSObject.get_own (fold_left (fun fresh k' => JSObject.set fresh k' v) ks acc) k
  <> None ->
  In k ks \/ JSObject.get_own acc k <> None.
Proof.
  revert acc. induction ks as [|k' ks IH]; intros acc H; [now right|].
  cbn [fold_left] in H. destruct (IH _ H) as [Hin|Hacc]; [left; now right|].
  destruct (jseq k' k) eqn:E.
  - apply jseq_eq in E. left. now left.
  - apply jseq_neq in E. rewrite get_own_set_other in Hacc by congruence.
    now right.
Qed.

Lemma backfill_get (snippets : JSObject.t) (v k : jsstring) :
  has_own snippets k = true ->
  jseq k JSObject.PROTO = false ->
  JSObject.get_own (backfill snippets v) k = Some v.
Proof.
  intros Hk Hproto. unfold backfill.
  rewrite has_own_keys in Hk. apply existsb_exists in Hk as (k' & Hin & E).
  apply jseq_eq in E. subst k'. revert Hin. generalize JSObject.empty.
  induction (JSObject.keys snippets) as [|k' ks IH]; intros acc Hin;
    [destruct Hin|].
  cbn [fold_left]. destruct (jseq k' k) eqn:E.
  - apply jseq_eq in E. subst k'. apply backfill_keeps.
    apply get_own_set_same. now right.
  - apply jseq_neq in E. destruct Hin as [->|Hin]; [congruence|].
    now apply IH.
Qed.

Lemma backfill_only_keys (snippets : JSObject.t) (v k : jsstring) :
  has_own (backfill snippets v) k = true -> has_own snippets k = true.
Proof.
  unfold backfill, has_own at 1. intros H.
  destruct (backfill_fold_keys (JSObject.keys snippets) v JSObject.empty k)
    as [Hin|Hacc].
  - destruct (JSObject.get_own _ k); [discriminate|discriminate H].
  - rewrite has_own_keys. apply existsb_exists. exists k.
    split; [exact Hin|apply jseq_refl].
  - now elim Hacc.
Qed.

(** X18.  Loading stored data that has a [snippets] object, when the saves
    resolve.  The stored snippets are kept and both maps exist afterwards.
    A map stored as [null] is filled in for every stored key other than
    [__proto__] and for no other key: the default icon, the empty group.
    A map that the stored data does not mention is not filled in for the
    stored keys: it is the map of the default settings. *)
Theorem loadSettings_backfills (d : StoredData) (sn : JSObject.t) :
  data_snippets d = Some sn ->
  exists ic gr,
    loadSettings (Data d) true true
    = {| snippets := sn; icons := Some ic; groups := Some gr |}
    /\ (data_icons d = Null ->
        forall k,
          (has_own sn k = true -> jseq k JSObject.PROTO = false ->
           JSObject.get_own ic k = Some DEFAULT_ICON)
          /\ (has_own ic k = true -> has_own sn k = true))
    /\ (data_groups d = Null ->
        forall k,
          (has_own sn k = true -> jseq k JSObject.PROTO = false ->
           JSObject.get_own gr k = Some [])
          /\ (has_own gr k = true -> has_own sn k = true))
    /\ (data_icons d = Missing -> icons DEFAULT_SETTINGS = Some ic)
    /\ (data_groups d = Missing -> groups DEFAULT_SETTINGS = Some gr)
    /\ (forall o, data_icons d = Object o -> ic = o)
    /\ (forall o, data_groups d = Object o -> gr = o).
Proof.
  intros Hs. unfold loadSettings. rewrite Hs.
  destruct (data_icons d) as [| |io], (data_groups d) as [| |go];
    cbn [assigned icons groups DEFAULT_SETTINGS];
    eexists; eexists; (split; [reflexivity|]);
    repeat split; try discriminate; try congruence;
    try (intros; now apply backfill_get);
    try (intros; eapply backfill_only_keys; eassumption).
Qed.

Lemma loadSettings_backfills_witness :
  exists ic gr,
    loadSettings
      (Data {| data_snippets := Some [ (js "sig", js "-- me") ];
               data_icons := Null; data_groups := Missing |}) true true
    = {| snippets := [ (js "sig", js "-- me") ];
         icons := Some ic; groups := Some gr |}
    /\ JSObject.get_own ic (js "sig") = Some DEFAULT_ICON
    /\ JSObject.get_own gr (js "sig") = None.
Proof.
  destruct (loadSettings_backfills
      {| data_snippets := Some [ (js "sig", js "-- me") ];
         data_icons := Null; data_groups := Missing |}
      [ (js "sig", js "-- me") ] eq_refl)
    as (ic & gr & E & Hi & _ & _ & Hg & _).
  exists ic, gr. split; [exact E|]. split.
  - apply (Hi eq_refl (js "sig")); reflexivity.
  - specialize (Hg eq_refl). cbn in Hg. injection Hg as <-. reflexivity.
Defined.

(** ** Saving under the unchanged key *)

Lemma keys_insert_index_others (i : N) (o : JSObject.t) (k v : jsstring) :
  filter (fun k' => negb (jseq k' k))
    (JSObject.keys (JSObject.insert_index i k v o))
  = filter (fun k' => negb (jseq k' k)) (JSObject.keys o).
Proof.
  unfold JSObject.keys.
  assert (forall o', filter (fun k' => negb (jseq k' k)) (map fst ((k, v) :: o'))
                     = filter (fun k' => negb (jseq k' k)) (map fst o')) as Hcons.
  { intros o'. cbn [map fst filter]. now rewrite jseq_refl. }
  induction o as [|[k' v'] o IH]; cbn [JSObject.insert_index]; [apply Hcons|].
  destruct (JSObject.array_index k') as [j|]; [|apply Hcons].
  destruct (j <? i); [|apply Hcons].
  cbn [map fst filter]. now rewrite IH.
Qed.

Lemma keys_set_others (o : JSObject.t) (k v : jsstring) :
  filter (fun k' => negb (jseq k' k)) (JSObject.keys (JSObject.set o k v))
  = filter (fun k' => negb (jseq k' k)) (JSObject.keys o).
Proof.
  unfold JSObject.set. destruct (JSObject.get_own o k).
  - now rewrite keys_update.
  - destruct (jseq k JSObject.PROTO); [reflexivity|].
    destruct (JSObject.array_index k) as [i|].
    + apply keys_insert_index_others.
    + unfold JSObject.keys. rewrite map_app, filter_app. cbn [map fst filter].
      now rewrite jseq_refl, app_nil_r.
Qed.

Lemma ordered_keys_split (lo : N) (o : JSObject.t) :
  JSObject.ordered_from lo o = true ->
  JSObject.keys o
  = filter is_index (JSObject.keys o) ++ filter not_index (JSObject.keys o).
Proof.
  unfold JSObject.keys. revert lo. induction o as [|[k v] o IH]; intros lo H;
    [reflexivity|].
  cbn [JSObject.ordered_from] in H. cbn [map fst filter].
  change (not_index k) with (negb (is_index k)).
  destruct (is_index k) eqn:Hik; unfold is_index in Hik;
    destruct (JSObject.array_index k) as [i|]; try discriminate; cbn [negb].
  - apply andb_true_iff in H as [_ H]. cbn [app]. f_equal. now apply (IH (i + 1)).
  - assert (filter is_index (map fst o) = []
            /\ filter not_index (map fst o) = map fst o) as [-> ->]; [|reflexivity].
    clear -H. induction o as [|[k' v'] o IH]; [now split|].
    cbn [JSObject.no_index forallb fst] in H.
    apply andb_true_iff in H as [Hk' H].
    assert (is_index k' = false) as Hi.
    { unfold is_index. now destruct (JSObject.array_index k'). }
    cbn [map fst filter]. change (not_index k') with (negb (is_index k')).
    rewrite Hi. cbn [negb]. destruct (IH H) as [-> ->]. now split.
Qed.

Lemma filter_same_key (k : jsstring) (l : list jsstring) :
  NoDup l -> In k l -> filter (fun x => negb (negb (jseq x k))) l = [k].
Proof.
  induction l as [|y l IH]; intros Hnd Hin; [destruct Hin|].
  inversion Hnd as [|? ? Hnotin Hnd']; subst. cbn [filter].
  destruct (jseq y k) eqn:E; cbn [negb].
  - apply jseq_eq in E. subst y. f_equal.
    clear -Hnotin. induction l as [|z l IH]; [reflexivity|]. cbn [filter].
    assert (jseq z k = false) as ->.
    { apply jseq_neq. intros ->. apply Hnotin. now left. }
    cbn [negb]. apply IH. intros H. apply Hnotin. now right.
  - apply jseq_neq in E. destruct Hin as [->|Hin]; [congruence|now apply IH].
Qed.

(** X19.  Saving under the unchanged key, for every key.  The key gets the
    new text, icon and group; the records under the other keys keep their
    values and the other keys their relative order.  A key that is not an
    array index becomes the last key of [snippets]; a key that is an array
    index keeps its place. *)
Theorem handleSave_same_key (settings : Settings)
    (key value icon group : jsstring) :
  is_empty key = false ->
  is_empty value = false ->
  jseq key JSObject.PROTO = false ->
  exists s' i' g',
    handleSave settings key key value icon group
    = (Done, {| snippets := s'; icons := Some i'; groups := Some g' |})
    /\ JSObject.get_own s' key = Some value
    /\ JSObject.get_own i' key = Some icon
    /\ JSObject.get_own g' key = Some group
    /\ (forall k, k <> key ->
          JSObject.get_own s' k = JSObject.get_own (snippets settings) k
          /\ JSObject.get_own i' k
             = JSObject.get_own (JSObject.spread (icons settings)) k
          /\ JSObject.get_own g' k
             = JSObject.get_own (JSObject.spread (groups settings)) k)
    /\ filter (fun k => negb (jseq k key)) (JSObject.keys s')
       = filter (fun k => negb (jseq k key)) (JSObject.keys (snippets settings))
    /\ (JSObject.array_index key = None ->
        JSObject.keys s'
        = filter (fun k => negb (jseq k key)) (JSObject.keys (snippets settings))
          ++ [key])
    /\ (is_index key = true ->
        JSObject.ordered (snippets settings) = true ->
        NoDup (JSObject.keys (snippets settings)) ->
        In key (JSObject.keys (snippets settings)) ->
        JSObject.keys s' = JSObject.keys (snippets settings)).
Proof.
  intros Hk Hv Hproto.
  exists (JSObject.set (JSObject.delete (snippets settings) key) key value),
    (JSObject.set (JSObject.delete (JSObject.spread (icons settings)) key) key icon),
    (JSObject.set (JSObject.delete (JSObject.spread (groups settings)) key) key group).
  split; [|split; [|split; [|split; [|split; [|split; [|split]]]]]].
  - unfold handleSave. rewrite Hk, Hv, jseq_refl. reflexivity.
  - apply get_own_set_same. now right.
  - apply get_own_set_same. now right.
  - apply get_own_set_same. now right.
  - intros k Hne.
    rewrite !get_own_set_other by exact Hne.
    now rewrite !get_own_delete_other by exact Hne.
  - rewrite keys_set_others, keys_delete, filter_filter.
    apply filter_ext. intros k. now destruct (jseq k key).
  - intros Hidx.
    rewrite set_new_plain by (try apply get_own_delete_same; assumption).
    unfold JSObject.keys at 1. rewrite map_app. cbn [map fst].
    fold (JSObject.keys (JSObject.delete (snippets settings) key)).
    now rewrite keys_delete.
  - intros Hidx Hord Hnd Hin.
    set (o := snippets settings) in *.
    set (s' := JSObject.set (JSObject.delete o key) key value).
    assert (Hord' : JSObject.ordered s' = true)
      by now apply ordered_set, ordered_delete.
    destruct (keys_set_new (JSObject.delete o key) key value
                (get_own_delete_same o key) Hproto) as [Hperm Hplain].
    fold s' in Hperm, Hplain. rewrite keys_delete in Hperm, Hplain.
    assert (Hp : Permutation (JSObject.keys s') (JSObject.keys o)).
    { rewrite Hperm, <- (filter_same_key key _ Hnd Hin).
      apply filter_split_perm. }
    rewrite (ordered_keys_split 0 s' Hord'), (ordered_keys_split 0 o Hord).
    rewrite (ordered_index_keys_unique s' o Hord' Hord Hp). f_equal.
    rewrite Hplain, filter_app. cbn [filter].
    change (not_index key) with (negb (is_index key)).
    rewrite Hidx. cbn [negb]. rewrite app_nil_r, filter_filter.
    apply filter_ext. intros k. destruct (jseq k key) eqn:E; [|reflexivity].
    apply jseq_eq in E. subst k. unfold not_index. now rewrite Hidx.
Qed.

Lemma handleSave_same_key_witness :
  (exists s' i' g',
     handleSave
       {| snippets := [ (js "7", js "seven"); (js "a", js "A"); (js "b", js "B") ];
         icons := Some [ (js "7", js "x"); (js "a", js "y"); (js "b", js "z") ];
         groups := Some [ (js "7", []); (js "a", []); (js "b", []) ] |}
       (js "a") (js "a") (js "Hi") (js "star") (js "Greetings")
     = (Done, {| snippets := s'; icons := Some i'; groups := Some g' |})
     /\ JSObject.get_own s' (js "a") = Some (js "Hi")
     /\ JSObject.keys s' = [js "7"; js "b"; js "a"])
  /\ (exists s' i' g',
        handleSave
          {| snippets := [ (js "7", js "seven"); (js "a", js "A"); (js "b", js "B") ];
         icons := Some [ (js "7", js "x"); (js "a", js "y"); (js "b", js "z") ];
         groups := Some [ (js "7", []); (js "a", []); (js "b", []) ] |}
          (js "7") (js "7") (js "VII") (js "star") (js "Greetings")
        = (Done, {| snippets := s'; icons := Some i'; groups := Some g' |})
        /\ JSObject.get_own s' (js "7") = Some (js "VII")
        /\ JSObject.keys s' = [js "7"; js "a"; js "b"]).
Proof.
  split.
  - destruct (handleSave_same_key
        {| snippets := [ (js "7", js "seven"); (js "a", js "A"); (js "b", js "B") ];
         icons := Some [ (js "7", js "x"); (js "a", js "y"); (js "b", js "z") ];
         groups := Some [ (js "7", []); (js "a", []); (js "b", []) ] |}
        (js "a") (js "Hi") (js "star") (js "Greetings") eq_refl eq_refl eq_refl)
      as (s' & i' & g' & E & Hv & _ & _ & _ & _ & Hlast & _).
    exists s', i', g'. split; [exact E|]. split; [exact Hv|].
    exact (Hlast eq_refl).
  - destruct (handleSave_same_key
        {| snippets := [ (js "7", js "seven"); (js "a", js "A"); (js "b", js "B") ];
         icons := Some [ (js "7", js "x"); (js "a", js "y"); (js "b", js "z") ];
         groups := Some [ (js "7", []); (js "a", []); (js "b", []) ] |}
        (js "7") (js "VII") (js "star") (js "Greetings") eq_refl eq_refl eq_refl)
      as (s' & i' & g' & E & Hv & _ & _ & _ & _ & _ & Hstay).
    exists s', i', g'. split; [exact E|]. split; [exact Hv|].
    apply (Hstay eq_refl eq_refl).
    + repeat constructor; cbn [In]; intros H;
        repeat (destruct H as [H|H]; try discriminate H); exact H.
    + now left.
Defined.
